(** * libinotifytools: a shallow embedding of [inotifytools.c]

    The development follows the source file top to bottom: machine
    integers and C strings first, then the event codec
    ([inotifytools_str_to_event_sep], [inotifytools_event_to_str_sep]),
    the hash table of the debugging lookups ([hadd], [hfind]), the watch
    registry (two ordered indices over shared [watch] records), the
    formatter ([inotifytools_snprintf]), the event reader
    ([inotifytools_next_events]) and the recursive watcher. *)

From Stdlib Require Import ZArith String Ascii List Bool Lia Sorted.
From stdpp Require Import gmap strings.
Import ListNotations.

Local Open Scope string_scope.
Local Open Scope Z_scope.

#[local] Arguments String.append !s1 s2 : simpl nomatch.

(** ** Machine integers *)

(** [int] and [unsigned] are 32 bits wide; a value is carried as a [Z] and
    brought back into range after every operation that can leave it. *)
Definition to_uint32 (z : Z) : Z := z mod 2 ^ 32.
Definition to_int32 (z : Z) : Z := (z + 2 ^ 31) mod 2 ^ 32 - 2 ^ 31.
Definition int_range (z : Z) : Prop := - 2 ^ 31 <= z < 2 ^ 31.

(** ** C strings *)

(** A [char const *] that points at text is a [string]; a pointer into
    the middle of a string is the suffix it points at.  [NULL] is [None]. *)
Definition NUL : ascii := Ascii.zero.

Definition strlen (s : string) : Z := Z.of_nat (String.length s).

(** [s[0]], the terminator included. *)
Definition head_char (s : string) : ascii :=
  match s with
  | EmptyString => NUL
  | String c _ => c
  end.

Definition tail (s : string) : string :=
  match s with
  | EmptyString => EmptyString
  | String _ s' => s'
  end.

(** [strchr s c]: the suffix of [s] starting at the first [c]; the
    terminator counts as part of the string, so [strchr s NUL] succeeds. *)
Fixpoint strchr (s : string) (c : ascii) : option string :=
  match s with
  | EmptyString => if Ascii.eqb c NUL then Some EmptyString else None
  | String a s' => if Ascii.eqb a c then Some s else strchr s' c
  end.

(** [strncpy (dst, src, n); dst[n] = 0], read back as a C string. *)
Fixpoint take (n : nat) (s : string) : string :=
  match n, s with
  | S n', String c s' => String c (take n' s')
  | _, _ => EmptyString
  end.

Fixpoint drop (n : nat) (s : string) : string :=
  match n, s with
  | S n', String _ s' => drop n' s'
  | _, _ => s
  end.

Definition tolower (c : ascii) : ascii :=
  let n := nat_of_ascii c in
  if andb (Nat.leb 65 n) (Nat.leb n 90) then ascii_of_nat (n + 32) else c.

Fixpoint strlower (s : string) : string :=
  match s with
  | EmptyString => EmptyString
  | String c s' => String (tolower c) (strlower s')
  end.

(** [0 == strcasecmp (a, b)] *)
Definition strcaseeq (a b : string) : bool := String.eqb (strlower a) (strlower b).

(** [0 == strncmp (p, s, strlen (p))]: [p] is a prefix of [s]. *)
Fixpoint is_prefix (p s : string) : bool :=
  match p, s with
  | EmptyString, _ => true
  | String a p', String b s' => Ascii.eqb a b && is_prefix p' s'
  | String _ _, EmptyString => false
  end.

(** ** Event constants *)

(** Modelled from the spec: the [IN_*] constants of
    [inotifytools/inotify.h], a header that is not among the sources.  The
    primitive kinds are single, pairwise distinct bits, [IN_CLOSE] and
    [IN_MOVE] are the unions the spec names; the values are those of the
    Linux inotify interface. *)
Definition IN_ACCESS : Z := 0x001.
Definition IN_MODIFY : Z := 0x002.
Definition IN_ATTRIB : Z := 0x004.
Definition IN_CLOSE_WRITE : Z := 0x008.
Definition IN_CLOSE_NOWRITE : Z := 0x010.
Definition IN_OPEN : Z := 0x020.
Definition IN_MOVED_FROM : Z := 0x040.
Definition IN_MOVED_TO : Z := 0x080.
Definition IN_CREATE : Z := 0x100.
Definition IN_DELETE : Z := 0x200.
Definition IN_DELETE_SELF : Z := 0x400.
Definition IN_MOVE_SELF : Z := 0x800.
Definition IN_UNMOUNT : Z := 0x2000.
Definition IN_Q_OVERFLOW : Z := 0x4000.
Definition IN_IGNORED : Z := 0x8000.
Definition IN_ISDIR : Z := 0x40000000.
Definition IN_ONESHOT : Z := 0x80000000.
Definition IN_CLOSE : Z := Z.lor IN_CLOSE_WRITE IN_CLOSE_NOWRITE.
Definition IN_MOVE : Z := Z.lor IN_MOVED_FROM IN_MOVED_TO.
Definition IN_ALL_EVENTS : Z :=
  fold_right Z.lor 0
    [IN_ACCESS; IN_MODIFY; IN_ATTRIB; IN_CLOSE_WRITE; IN_CLOSE_NOWRITE;
     IN_OPEN; IN_MOVED_FROM; IN_MOVED_TO; IN_DELETE; IN_CREATE;
     IN_DELETE_SELF; IN_MOVE_SELF].

(** ** EventCodec *)

(** [onestr_to_event]: the chain of [strcasecmp] tests, in source order.
    The result is an [int], so [IN_ONESHOT] comes back as [INT_MIN]. *)
Definition onestr_to_event (event : option string) : Z :=
  match event with
  | None => 0
  | Some event =>
    if Ascii.eqb (head_char event) NUL then 0
    else if strcaseeq event "ACCESS" then to_int32 IN_ACCESS
    else if strcaseeq event "MODIFY" then to_int32 IN_MODIFY
    else if strcaseeq event "ATTRIB" then to_int32 IN_ATTRIB
    else if strcaseeq event "CLOSE_WRITE" then to_int32 IN_CLOSE_WRITE
    else if strcaseeq event "CLOSE_NOWRITE" then to_int32 IN_CLOSE_NOWRITE
    else if strcaseeq event "OPEN" then to_int32 IN_OPEN
    else if strcaseeq event "MOVED_FROM" then to_int32 IN_MOVED_FROM
    else if strcaseeq event "MOVED_TO" then to_int32 IN_MOVED_TO
    else if strcaseeq event "CREATE" then to_int32 IN_CREATE
    else if strcaseeq event "DELETE" then to_int32 IN_DELETE
    else if strcaseeq event "DELETE_SELF" then to_int32 IN_DELETE_SELF
    else if strcaseeq event "UNMOUNT" then to_int32 IN_UNMOUNT
    else if strcaseeq event "Q_OVERFLOW" then to_int32 IN_Q_OVERFLOW
    else if strcaseeq event "IGNORED" then to_int32 IN_IGNORED
    else if strcaseeq event "CLOSE" then to_int32 IN_CLOSE
    else if strcaseeq event "MOVE_SELF" then to_int32 IN_MOVE_SELF
    else if strcaseeq event "MOVE" then to_int32 IN_MOVE
    else if strcaseeq event "ISDIR" then to_int32 IN_ISDIR
    else if strcaseeq event "ONESHOT" then to_int32 IN_ONESHOT
    else if strcaseeq event "ALL_EVENTS" then to_int32 IN_ALL_EVENTS
    else -1
  end.

(** The [while] loop of [inotifytools_str_to_event_sep].  [event1] and
    [event2] are the two cursors; [fuel] bounds the iterations and [None]
    is returned only when it runs out. *)
Fixpoint str_to_event_loop (fuel : nat) (sep : ascii)
    (event1 event2 : option string) (ret : Z) : option Z :=
  match fuel with
  | O => None
  | S fuel' =>
    match event1 with
    | None => Some ret
    | Some e1 =>
      if Ascii.eqb (head_char e1) NUL then Some ret
      else
        let len :=
          match event2 with
          | Some e2 => strlen e1 - strlen e2
          | None => strlen e1
          end in
        let len := if 4095 <? len then 4095 else len in
        let eventstr := take (Z.to_nat len) e1 in
        let ret1 := onestr_to_event (Some eventstr) in
        if (ret1 =? 0) || (ret1 =? -1) then Some ret1
        else
          let ret := Z.lor ret ret1 in
          match event2 with
          | None => str_to_event_loop fuel' sep None event2 ret
          | Some e2 =>
            if Ascii.eqb (head_char e2) NUL
            then str_to_event_loop fuel' sep (Some e2) event2 ret
            else
              (* jump over 'sep' character *)
              let e1' := tail e2 in
              if Ascii.eqb (head_char e1') NUL then Some 0
              else str_to_event_loop fuel' sep (Some e1') (strchr e1' sep) ret
          end
    end
  end.

Definition sep_letters : string :=
  "_abcdefghijklmnopqrstuvwxyzABCDEFGHIJKLMNOPQRSTUVWXYZ".

Definition inotifytools_str_to_event_sep (event : option string) (sep : ascii)
    : option Z :=
  match strchr sep_letters sep with
  | Some _ => Some (-1)
  | None =>
    match event with
    | None => Some 0
    | Some ev =>
      if Ascii.eqb (head_char ev) NUL then Some 0
      else str_to_event_loop (S (String.length ev)) sep (Some ev) (strchr ev sep) 0
    end
  end.

Definition inotifytools_str_to_event (event : option string) : option Z :=
  inotifytools_str_to_event_sep event ",".

(** [chrtostr]: the one-character string; for the terminator it is empty. *)
Definition chrtostr (ch : ascii) : string :=
  if Ascii.eqb ch NUL then EmptyString else String ch EmptyString.

(** One [if ( IN_X & events ) { strcat; strcat }] block. *)
Definition cat_event (events : Z) (sep : ascii) (ret : string)
    (flag : Z) (name : string) : string :=
  if Z.land flag events =? 0 then ret
  else ret +:+ chrtostr sep +:+ name.

Definition hex_digit (d : Z) : ascii :=
  ascii_of_nat (Z.to_nat (if d <? 10 then 48 + d else 87 + d)).

Fixpoint hex_digits (n : nat) (z : Z) (acc : string) : string :=
  match n with
  | O => acc
  | S n' => hex_digits n' (z / 16) (String (hex_digit (z mod 16)) acc)
  end.

(** ["%08x"] of an [int] passed where [unsigned] is expected. *)
Definition hex8 (events : Z) : string := hex_digits 8 (to_uint32 events) "".

(** The vocabulary of [inotifytools_event_to_str_sep], in source order. *)
Definition event_names : list (Z * string) :=
  [ (IN_ACCESS, "ACCESS"); (IN_MODIFY, "MODIFY"); (IN_ATTRIB, "ATTRIB");
    (IN_CLOSE_WRITE, "CLOSE_WRITE"); (IN_CLOSE_NOWRITE, "CLOSE_NOWRITE");
    (IN_OPEN, "OPEN"); (IN_MOVED_FROM, "MOVED_FROM"); (IN_MOVED_TO, "MOVED_TO");
    (IN_CREATE, "CREATE"); (IN_DELETE, "DELETE");
    (IN_DELETE_SELF, "DELETE_SELF"); (IN_UNMOUNT, "UNMOUNT");
    (IN_Q_OVERFLOW, "Q_OVERFLOW"); (IN_IGNORED, "IGNORED");
    (IN_CLOSE, "CLOSE"); (IN_MOVE_SELF, "MOVE_SELF"); (IN_ISDIR, "ISDIR");
    (IN_ONESHOT, "ONESHOT") ].

(** [ret] is the static buffer ([ret[0] = ret[1] = 0] at entry); the
    function hands back [&ret[1]], skipping the leading separator. *)
Definition inotifytools_event_to_str_sep (events : Z) (sep : ascii) : string :=
  let ret :=
    fold_left (fun ret '(flag, name) => cat_event events sep ret flag name)
              event_names EmptyString in
  let ret :=
    if Ascii.eqb (head_char ret) NUL
    then String sep ("0x" +:+ hex8 events)
    else ret in
  tail ret.

Definition inotifytools_event_to_str (events : Z) : string :=
  inotifytools_event_to_str_sep events ",".

(** *** Tokens *)

(** A token is a maximal run without the separator.  [join_sep sep ts]
    writes every token of [ts] followed by one separator. *)
Definition sep_free (sep : ascii) (t : string) : Prop := strchr t sep = None.

Fixpoint join_sep (sep : ascii) (ts : list string) : string :=
  match ts with
  | [] => EmptyString
  | t :: ts' => t +:+ String sep (join_sep sep ts')
  end.

(** The token names one of the events of [onestr_to_event]. *)
Definition known_event (t : string) : bool :=
  negb ((onestr_to_event (Some t) =? 0) || (onestr_to_event (Some t) =? -1)).

Definition valid_sep (sep : ascii) : Prop := strchr sep_letters sep = None.

(** [tokens sep s]: the pieces of [s] between separators, in order; a
    leading, doubled or trailing separator gives an empty piece. *)
Fixpoint tokens (sep : ascii) (s : string) : list string :=
  match s with
  | EmptyString => [EmptyString]
  | String c s' =>
    if Ascii.eqb c sep then EmptyString :: tokens sep s'
    else
      match tokens sep s' with
      | [] => [String c EmptyString]
      | t :: ts => String c t :: ts
      end
  end.

(** *** Rendering followed by parsing *)

(** The entries of the vocabulary whose test [flag & events] succeeds. *)
Definition selected (events : Z) (table : list (Z * string)) : list (Z * string) :=
  List.filter (fun e => negb (Z.land (fst e) events =? 0)) table.

(** [unwords sep ns]: the names with one separator between neighbours. *)
Fixpoint unwords (sep : ascii) (ns : list string) : string :=
  match ns with
  | [] => EmptyString
  | [n] => n
  | n :: ns' => n +:+ String sep (unwords sep ns')
  end.

Fixpoint sep_words (sep : ascii) (ns : list string) : string :=
  match ns with
  | [] => EmptyString
  | n :: ns' => String sep n +:+ sep_words sep ns'
  end.

(** *** Masks as bit sets *)

(** The primitive kinds: the names of the vocabulary that stand for one
    bit ([IN_CLOSE], [IN_MOVE] and [IN_ALL_EVENTS] are unions). *)
Definition primitive_kinds : list Z :=
  [IN_ACCESS; IN_MODIFY; IN_ATTRIB; IN_CLOSE_WRITE; IN_CLOSE_NOWRITE; IN_OPEN;
   IN_MOVED_FROM; IN_MOVED_TO; IN_CREATE; IN_DELETE; IN_DELETE_SELF;
   IN_UNMOUNT; IN_Q_OVERFLOW; IN_IGNORED; IN_MOVE_SELF; IN_ISDIR; IN_ONESHOT].

Definition PRIMITIVE_BITS : Z := fold_right Z.lor 0 primitive_kinds.

(** An [int] whose 32-bit pattern is a non-empty set of primitive kinds. *)
Definition primitive_mask (mask : Z) : Prop :=
  int_range mask /\ mask <> 0 /\
  Z.land (to_uint32 mask) PRIMITIVE_BITS = to_uint32 mask.

(** An entry of the vocabulary is a unit for [mask] when its value [v]
    (what [onestr_to_event] returns) is either wholly inside or wholly
    outside [mask], and the test on its flag [f] agrees with that. *)
Definition unit_for (mask f v : Z) : Prop :=
  (Z.land f mask =? 0) = (Z.land v mask =? 0)
  /\ (Z.land v mask = 0 \/ Z.land v mask = v).

Definition entry_value (e : Z * string) : Z := to_int32 (fst e).

Definition names_low : list (Z * string) := firstn 14 event_names.
Definition names_high : list (Z * string) := skipn 15 event_names.

(** ** Watches *)

(** The fourteen tallies, kept once per watch ([hit_*]) and once for the
    library ([num_*]); all are 32 bits wide and wrap. *)
Record counters := mkCounters {
  c_access : Z; c_modify : Z; c_attrib : Z; c_close_nowrite : Z;
  c_close_write : Z; c_open : Z; c_move_self : Z; c_moved_from : Z;
  c_moved_to : Z; c_create : Z; c_delete : Z; c_delete_self : Z;
  c_unmount : Z; c_total : Z
}.

Definition zero_counters : counters := mkCounters 0 0 0 0 0 0 0 0 0 0 0 0 0 0.

(** Modelled from the spec: [struct watch] of [inotifytools_p.h], a header
    that is not among the sources; the fields are the ones the source
    reads and writes: the path the watch was set up with, the kernel's
    descriptor, and the per-kind hit tallies. *)
Record watch := mkWatch {
  filename : string;
  wd : Z;
  hit : counters
}.

(** A [watch *] is the address [calloc] returned. *)
Definition ptr := nat.

(** [strcmp]: only the sign of the result is used. *)
Definition strcmp (a b : string) : Z :=
  match String.compare a b with
  | Lt => -1
  | Eq => 0
  | Gt => 1
  end.

Definition wd_compare (d1 d2 : watch) : Z := to_int32 (wd d1 - wd d2).
Definition filename_compare (d1 d2 : watch) : Z := strcmp (filename d1) (filename d2).

(** ** The ordered index *)

(** Modelled from the spec: the tree library ([redblack.c] is not among
    the sources).  An index is an ordered search tree whose nodes hold
    watch addresses; every operation finds its way by calling the
    comparator on the key and on the watch a node points at, so a lookup
    reads the watches as they are at the time of the call.  Duplicate keys
    are never inserted.  Rebalancing is left out: no statement below
    depends on the height of a tree. *)
Inductive rbtree : Type :=
| RBNULL
| RBNODE (left : rbtree) (key : ptr) (right : rbtree).

(** The keys in ascending order of position. *)
Fixpoint elements (t : rbtree) : list ptr :=
  match t with
  | RBNULL => []
  | RBNODE l k r => (elements l ++ k :: elements r)%list
  end.

Section Tree.
(** [cmp p] compares the searched key with the watch at [p]; it is
    [None] when [p] does not point at a live watch. *)
Variable cmp : ptr -> option Z.

(** Modelled from the spec: [rbfind], the lookup of an index
    ([byDescriptor], [byPath]); [Some None] is a [NULL] result. *)
Fixpoint rbfind (t : rbtree) : option (option ptr) :=
  match t with
  | RBNULL => Some None
  | RBNODE l k r =>
    c ← cmp k;
    if c =? 0 then Some (Some k)
    else if c <? 0 then rbfind l else rbfind r
  end.

(** Modelled from the spec: [rbsearch], find-or-insert: the key [w] is
    added at the place the search ends unless an equal key is met. *)
Fixpoint rbsearch (w : ptr) (t : rbtree) : option rbtree :=
  match t with
  | RBNULL => Some (RBNODE RBNULL w RBNULL)
  | RBNODE l k r =>
    c ← cmp k;
    if c =? 0 then Some t
    else if c <? 0 then l' ← rbsearch w l; Some (RBNODE l' k r)
    else r' ← rbsearch w r; Some (RBNODE l k r')
  end.
End Tree.

(** The leftmost key of a non-empty tree and the tree without it. *)
Fixpoint rb_extract_min (l : rbtree) (k : ptr) (r : rbtree) : ptr * rbtree :=
  match l with
  | RBNULL => (k, r)
  | RBNODE ll lk lr =>
    let '(m, l') := rb_extract_min ll lk lr in (m, RBNODE l' k r)
  end.

(** Unlinking the root: a missing child is replaced by the other one,
    otherwise the successor's key moves up. *)
Definition rb_unlink (l r : rbtree) : rbtree :=
  match l, r with
  | RBNULL, _ => r
  | _, RBNULL => l
  | _, RBNODE rl rk rr => let '(m, r') := rb_extract_min rl rk rr in RBNODE l m r'
  end.

(** Modelled from the spec: [rbdelete], which looks the key up like
    [rbfind] and erases the node it finds, if any. *)
Fixpoint rbdelete (cmp : ptr -> option Z) (t : rbtree) : option rbtree :=
  match t with
  | RBNULL => Some RBNULL
  | RBNODE l k r =>
    c ← cmp k;
    if c =? 0 then Some (rb_unlink l r)
    else if c <? 0 then l' ← rbdelete cmp l; Some (RBNODE l' k r)
    else r' ← rbdelete cmp r; Some (RBNODE l k r')
  end.

(** The [VISIT] of [<search.h>] that the walk callbacks receive. *)
Inductive VISIT := preorder | postorder | endorder | leaf.

(** Modelled from the spec: [rbwalk] visits every watch of the index; the
    visits of one node are those of [twalk]: a leaf once, any other node
    before, between and after its subtrees.  The walk goes over the nodes
    the index had when it started. *)
Fixpoint rbwalk_visits (t : rbtree) : list (ptr * VISIT) :=
  match t with
  | RBNULL => []
  | RBNODE RBNULL k RBNULL => [(k, leaf)]
  | RBNODE l k r =>
    ((k, preorder) :: rbwalk_visits l ++ (k, postorder) :: rbwalk_visits r
       ++ [(k, endorder)])%list
  end.

Fixpoint rbwalk {S : Type} (action : ptr -> VISIT -> S -> option S)
    (visits : list (ptr * VISIT)) (s : S) : option S :=
  match visits with
  | [] => Some s
  | (k, which) :: rest => s' ← action k which s; rbwalk action rest s'
  end.

(** ** The debugging table *)

Definition MAX_ENTRIES : Z := 10000.
Definition NIL : Z := -1.

(** The newline of the [printf] formats. *)
Definition LF : string := String (ascii_of_nat 10) EmptyString.

(** ["%d"] of an [int]. *)
Fixpoint decimal_digits (fuel : nat) (n : Z) (acc : string) : string :=
  match fuel with
  | O => acc
  | S fuel' =>
    let acc := String (ascii_of_nat (Z.to_nat (48 + n mod 10))) acc in
    if n <? 10 then acc else decimal_digits fuel' (n / 10) acc
  end.

Definition decimal (n : Z) : string :=
  if n <? 0 then "-" +:+ decimal_digits 10 (- n) "" else decimal_digits 10 n "".

(** Modelled from the spec: the hash table of [<search.h>] in the GNU C
    library ([hcreate_r], [hsearch_r]), which is outside the sources.
    The table stores the [char *] of a key, not its text.  [h_used] is
    the hash value [hsearch_r] keeps beside an entry; [h_key] is the text
    the stored pointer points at, and [None] once that storage has been
    freed.  The entries are listed in the order in which they were
    entered, which is the order in which a probe meets the entries of
    one hash value. *)
Record hentry := mkHentry {
  h_used : Z;
  h_key : option string;
  h_data : Z
}.

(** [char] is signed. *)
Definition signed_char (c : ascii) : Z :=
  let n := Z.of_nat (nat_of_ascii c) in
  if n <? 128 then n else n - 256.

(** Modelled from the spec: the hash value of a key, computed in an
    [unsigned int] from the length and the bytes of the key, last byte
    first; it is never 0. *)
Definition hval (key : string) : Z :=
  let h :=
    fold_left (fun h c => to_uint32 (h * 16 + signed_char c))
              (rev (list_ascii_of_string key)) (to_uint32 (strlen key)) in
  if h =? 0 then 1 else h.

(** Modelled from the spec: [hcreate_r (MAX_ENTRIES, &tab)].  The static
    [tab] starts zeroed, which is [None]; the call makes an empty table
    of [HTAB_SIZE] slots (the first prime from [MAX_ENTRIES] on) and
    leaves a table that exists alone. *)
Definition HTAB_SIZE : Z := 10007.

Definition hcreate_r (tab : option (list hentry)) : option (list hentry) :=
  match tab with
  | None => Some []
  | Some t => Some t
  end.

(** The probe of [hsearch_r]: the key is compared, by [strcmp], with
    the stored keys of the same hash value, one after the other.
    [Some (Some i)] is the entry found, [Some None] an empty slot, and
    [None] a comparison that reads a key whose storage has been freed. *)
Fixpoint hprobe (hv : Z) (key : string) (t : list hentry) (i : nat)
    : option (option nat) :=
  match t with
  | [] => Some None
  | e :: t' =>
    if h_used e =? hv then
      match h_key e with
      | None => None
      | Some s =>
        if String.eqb s key then Some (Some i) else hprobe hv key t' (S i)
      end
    else hprobe hv key t' (S i)
  end.

Inductive ACTION := FIND | ENTER.

(** Modelled from the spec: [hsearch_r].  It takes [strlen] of the key,
    which a [NULL] key does not survive, and reduces the hash value
    modulo the size of the table, which is 0 for a table [hcreate_r] has
    not made; both are [None].  [ENTER] adds the item when the key is
    not found and the table is not full.  The result is the index of
    the entry [*retval] points at, if any, and the table. *)
Definition hsearch_r (item_key : option string) (item_data : Z) (action : ACTION)
    (tab : option (list hentry)) : option (option nat * list hentry) :=
  key ← item_key;
  t ← tab;
  found ← hprobe (hval key) key t 0;
  match found, action with
  | Some i, _ => Some (Some i, t)
  | None, FIND => Some (None, t)
  | None, ENTER =>
    if Z.of_nat (List.length t) =? HTAB_SIZE then Some (None, t)
    else Some (Some (List.length t),
               (t ++ [mkHentry (hval key) (Some key) item_data])%list)
  end.

(** [hadd] *)
Definition hadd (tab : option (list hentry)) (key : string) (value : Z)
    : option (list hentry) :=
  r ← hsearch_r (Some key) value ENTER tab;
  let '(pitem, t) := r in
  match pitem with
  | Some i => Some (alter (fun e => mkHentry (h_used e) (h_key e) value) i t)
  | None => Some t
  end.

(** [hfind]: the value found, or [NIL], and the lines written to
    [stdout].  A [NULL] key is printed before [hsearch_r] is reached,
    but the call does not return. *)
Definition hfind (tab : option (list hentry)) (key : option string)
    : option (Z * list string) :=
  k ← key;
  r ← hsearch_r key 0 FIND tab;
  let '(pitem, t) := r in
  match pitem with
  | Some i =>
    e ← t !! i;
    Some (h_data e, ["==>searching for " +:+ k +:+ LF; "==>success" +:+ LF])
  | None => Some (NIL, ["==>searching for " +:+ k +:+ LF; "==>fail" +:+ LF])
  end.

(** [free (key)] as the table sees it: the stored pointers to that text
    dangle from now on. *)
Definition free_key (key : string) (t : list hentry) : list hentry :=
  map (fun e =>
         match h_key e with
         | Some s => if String.eqb s key then mkHentry (h_used e) None (h_data e) else e
         | None => e
         end) t.

(** ** Library state *)

(** The two indices and the watches they point at. [brk] is the next
    address [calloc] hands out. *)
Record registry := mkRegistry {
  heap : gmap ptr watch;
  brk : ptr;
  tree_wd : rbtree;
  tree_filename : rbtree
}.

(** What the debugging statements of the library work on: the hash
    table [tab], the counter [dir_count], the array [dir_stack] (a slot
    holds the text its pointer pointed at when it was stored) and the
    lines written to [stdout] so far. *)
Record debug := mkDebug {
  tab : option (list hentry);
  dir_count : Z;
  dir_stack : gmap Z string;
  stdout : list string
}.

(** The file-scope variables of the library, the registry apart. *)
Record state := mkState {
  reg : registry;
  error : Z;
  init : bool;
  collect_stats : bool;
  num : counters;
  timefmt : option string;
  regex : option (string -> bool);
  dbg : debug
}.

Definition set_reg (r : registry) (st : state) : state :=
  mkState r (error st) (init st) (collect_stats st) (num st) (timefmt st) (regex st)
          (dbg st).
Definition set_error (e : Z) (st : state) : state :=
  mkState (reg st) e (init st) (collect_stats st) (num st) (timefmt st) (regex st)
          (dbg st).
Definition set_num (n : counters) (st : state) : state :=
  mkState (reg st) (error st) (init st) (collect_stats st) n (timefmt st) (regex st)
          (dbg st).
Definition set_collect_stats (b : bool) (st : state) : state :=
  mkState (reg st) (error st) (init st) b (num st) (timefmt st) (regex st) (dbg st).
Definition set_timefmt (f : option string) (st : state) : state :=
  mkState (reg st) (error st) (init st) (collect_stats st) (num st) f (regex st)
          (dbg st).
Definition set_regex (re : option (string -> bool)) (st : state) : state :=
  mkState (reg st) (error st) (init st) (collect_stats st) (num st) (timefmt st) re
          (dbg st).
Definition set_dbg (d : debug) (st : state) : state :=
  mkState (reg st) (error st) (init st) (collect_stats st) (num st) (timefmt st)
          (regex st) d.

Definition set_tab (t : option (list hentry)) (st : state) : state :=
  let d := dbg st in
  set_dbg (mkDebug t (dir_count d) (dir_stack d) (stdout d)) st.

(** [printf] from the library itself. *)
Definition print (lines : list string) (st : state) : state :=
  let d := dbg st in
  set_dbg (mkDebug (tab d) (dir_count d) (dir_stack d) (stdout d ++ lines)%list) st.

Definition empty_registry : registry := mkRegistry ∅ 1%nat RBNULL RBNULL.

(** The statics as the program starts: [tab] zeroed, [dir_count] 0. *)
Definition start_debug : debug := mkDebug None 0 ∅ [].

(** The state before [inotifytools_initialize]. *)
Definition start_state : state :=
  mkState empty_registry 0 false false zero_counters None None start_debug.

(** [inotifytools_initialize]; [fd] is what [inotify_init] returns. *)
Definition inotifytools_initialize (fd : Z) (st : state) : state * Z :=
  if init st then (st, 1)
  else
    let st := set_error 0 st in
    if fd <? 0 then (set_error fd st, 0)
    else
      (mkState (mkRegistry (heap (reg st)) (brk (reg st)) RBNULL RBNULL)
               (error st) true false (num st) None (regex st) (dbg st), 1).

(** The comparators as the tree sees them: the key is a watch value (the
    caller's stack variable or the watch being inserted), a node's key is
    read through its address. *)
Definition cmp_wd (h : gmap ptr watch) (key : watch) (p : ptr) : option Z :=
  d2 ← h !! p; Some (wd_compare key d2).
Definition cmp_filename (h : gmap ptr watch) (key : watch) (p : ptr) : option Z :=
  d2 ← h !! p; Some (filename_compare key d2).

(** [watch w; w.wd = wd;] the other fields are not read. *)
Definition key_wd (wd : Z) : watch := mkWatch EmptyString wd zero_counters.
Definition key_filename (filename : string) : watch := mkWatch filename 0 zero_counters.

Definition watch_from_wd (r : registry) (wd : Z) : option (option ptr) :=
  rbfind (cmp_wd (heap r) (key_wd wd)) (tree_wd r).

Definition watch_from_filename (r : registry) (filename : string)
    : option (option ptr) :=
  rbfind (cmp_filename (heap r) (key_filename filename)) (tree_filename r).

(** ** WatchRegistry *)

(** A result of [None] below stands for undefined behaviour: a tree
    operation compared through an address that is not a live watch. *)

(** The comparator when the key is itself a watch address. *)
Definition cmp_wd_at (h : gmap ptr watch) (w p : ptr) : option Z :=
  d1 ← h !! w; cmp_wd h d1 p.
Definition cmp_filename_at (h : gmap ptr watch) (w p : ptr) : option Z :=
  d1 ← h !! w; cmp_filename h d1 p.

Definition inotifytools_filename_from_wd (r : registry) (wd : Z)
    : option (option string) :=
  w ← watch_from_wd r wd;
  match w with
  | None => Some None
  | Some w => d ← heap r !! w; Some (Some (filename d))
  end.

Definition inotifytools_wd_from_filename (r : registry) (filename : string)
    : option Z :=
  w ← watch_from_filename r filename;
  match w with
  | None => Some (-1)
  | Some w => d ← heap r !! w; Some (wd d)
  end.

(** [create_watch].  The function returns 0 from its guard and has no
    [return] on the other path, so no caller can use its value: only the
    effect on the registry is modelled.  A [NULL] [filename] is [None]. *)
Definition create_watch (r : registry) (wd : Z) (filename : option string)
    : option registry :=
  match filename with
  | None => Some r
  | Some filename =>
    if wd <=? 0 then Some r
    else
      let w := brk r in
      let h := <[w := mkWatch filename wd zero_counters]> (heap r) in
      t_wd ← rbsearch (cmp_wd_at h w) w (tree_wd r);
      t_fn ← rbsearch (cmp_filename_at h w) w (tree_filename r);
      Some (mkRegistry h (S w) t_wd t_fn)
  end.

(** [destroy_watch]: the path and the watch are freed. *)
Definition destroy_watch (r : registry) (w : ptr) : registry :=
  mkRegistry (delete w (heap r)) (brk r) (tree_wd r) (tree_filename r).

Definition set_filename (h : gmap ptr watch) (w : ptr) (name : string)
    : gmap ptr watch :=
  alter (fun d => mkWatch name (wd d) (hit d)) w h.

(** [inotifytools_set_filename_by_wd]: the path is replaced in the watch
    itself; neither index is touched. *)
Definition inotifytools_set_filename_by_wd (r : registry) (wd : Z)
    (filename : string) : option registry :=
  w ← watch_from_wd r wd;
  match w with
  | None => Some r
  | Some w =>
    Some (mkRegistry (set_filename (heap r) w filename) (brk r)
                     (tree_wd r) (tree_filename r))
  end.

Definition inotifytools_set_filename_by_filename (r : registry)
    (oldname newname : string) : option registry :=
  w ← watch_from_filename r oldname;
  match w with
  | None => Some r
  | Some w =>
    Some (mkRegistry (set_filename (heap r) w newname) (brk r)
                     (tree_wd r) (tree_filename r))
  end.

(** [replace_filename], the walk callback of
    [inotifytools_replace_filename]. *)
Definition replace_filename (old_name new_name : string)
    (w : ptr) (which : VISIT) (r : registry) : option registry :=
  match which with
  | endorder | leaf =>
    d ← heap r !! w;
    if is_prefix old_name (filename d) then
      let name := new_name +:+ drop (String.length old_name) (filename d) in
      if strcmp (filename d) new_name =? 0 then Some r
      else
        t ← rbdelete (cmp_filename_at (heap r) w) (tree_filename r);
        let h := set_filename (heap r) w name in
        t' ← rbsearch (cmp_filename_at h w) w t;
        Some (mkRegistry h (brk r) (tree_wd r) t')
    else Some r
  | _ => Some r
  end.

(** The array [names] of [inotifytools_replace_filename] has
    [2 + sizeof (int) / sizeof (char * )] slots: three where a pointer is
    as wide as an [int], two where it is wider. *)
Definition names_slots (sizeof_char_ptr : Z) : Z := 2 + 4 / sizeof_char_ptr.

Inductive replace_result :=
| Replace_overrun (index : Z)
| Replace_return (r : registry).

(** [inotifytools_replace_filename]; [sizeof_char_ptr] is the width of
    a pointer on the platform.  The length of [oldname] is stored at
    [names[2]]; a store outside of [names] is not performed but
    reported. *)
Definition inotifytools_replace_filename (sizeof_char_ptr : Z) (r : registry)
    (oldname newname : option string) : option replace_result :=
  match oldname, newname with
  | Some oldname, Some newname =>
    if names_slots sizeof_char_ptr <=? 2 then Some (Replace_overrun 2)
    else
      r' ← rbwalk (replace_filename oldname newname)
                  (rbwalk_visits (tree_filename r)) r;
      Some (Replace_return r')
  | _, _ => Some (Replace_return r)
  end.

(** [get_num] and [inotifytools_get_num_watches]. *)
Definition get_num (w : ptr) (which : VISIT) (n : Z) : option Z :=
  match which with
  | endorder | leaf => Some (to_int32 (n + 1))
  | _ => Some n
  end.

Definition inotifytools_get_num_watches (r : registry) : option Z :=
  rbwalk get_num (rbwalk_visits (tree_filename r)) 0.

Section Kernel.
(** The kernel as one call sees it.  [inotify_rm_watch wd] is the
    status of the system call; [inotify_add_watch path events] is the
    descriptor, or -1 together with [errno]; [lstat64] answers with
    [errno] or with the two mode tests the source makes. *)
Variable inotify_rm_watch : Z -> Z.
Variable inotify_add_watch : string -> Z -> Z * Z.

Inductive stat_result :=
| StatErr (errno : Z)
| StatOk (s_isdir s_islnk : bool).

Variable lstat64 : string -> stat_result.

(** [remove_inotify_watch] *)
Definition remove_inotify_watch (st : state) (d : watch) : state * Z :=
  let st := set_error 0 st in
  let status := inotify_rm_watch (wd d) in
  if status <? 0 then (set_error status st, 0) else (st, 1).

Definition remove_watch (st : state) (w : ptr) : option (state * Z) :=
  d ← heap (reg st) !! w;
  let '(st, ok) := remove_inotify_watch st d in
  if ok =? 0 then Some (st, 0)
  else
    let r := reg st in
    t_wd ← rbdelete (cmp_wd_at (heap r) w) (tree_wd r);
    t_fn ← rbdelete (cmp_filename_at (heap r) w) (tree_filename r);
    Some (set_reg (destroy_watch (mkRegistry (heap r) (brk r) t_wd t_fn) w) st, 1).

(** [inotifytools_remove_watch_by_wd] *)
Definition inotifytools_remove_watch_by_wd (st : state) (wd : Z)
    : option (state * Z) :=
  w ← watch_from_wd (reg st) wd;
  match w with
  | None => Some (st, 1)
  | Some w => remove_watch st w
  end.

(** [inotifytools_remove_watch_by_filename] *)
Definition inotifytools_remove_watch_by_filename (st : state)
    (filename : string) : option (state * Z) :=
  w ← watch_from_filename (reg st) filename;
  match w with
  | None => Some (st, 1)
  | Some w => remove_watch st w
  end.

(** [isdir] *)
Definition isdir (path : string) : bool :=
  match lstat64 path with
  | StatErr _ => false
  | StatOk s_isdir s_islnk => s_isdir && negb s_islnk
  end.

Fixpoint last_char (s : string) : ascii :=
  match s with
  | EmptyString => NUL
  | String c EmptyString => c
  | String _ s' => last_char s'
  end.

(** [inotifytools_watch_files]: the [for] loop over the
    [NULL]-terminated array. *)
Fixpoint watch_files_loop (st : state) (filenames : list string) (events : Z)
    : option (state * Z) :=
  match filenames with
  | [] => Some (st, 1)
  | f :: rest =>
    let '(wd, errno) := inotify_add_watch f events in
    if wd <? 0 then
      if wd =? -1 then Some (set_error errno st, 0) else Some (st, 0)
    else
      (* Always end filename with / if it is a directory *)
      let filename :=
        if negb (isdir f) || Ascii.eqb (last_char f) "/" then f
        else f +:+ "/" in
      r ← create_watch (reg st) wd (Some filename);
      watch_files_loop (set_reg r st) rest events
  end.

Definition inotifytools_watch_files (st : state) (filenames : list string)
    (events : Z) : option (state * Z) :=
  watch_files_loop (set_error 0 st) filenames events.

Definition inotifytools_watch_file (st : state) (filename : string)
    (events : Z) : option (state * Z) :=
  inotifytools_watch_files st [filename] events.
End Kernel.

(** ** The ordering invariant of an index *)

Section Order.
Context {K : Type} (key : ptr -> K) (lt : K -> K -> Prop).

(** The ordering invariant of an index: at every node the keys to the
    left are smaller and the keys to the right are larger. *)
Fixpoint bst (t : rbtree) : Prop :=
  match t with
  | RBNULL => True
  | RBNODE l k r =>
    bst l /\ bst r
    /\ (forall q, q ∈ elements l -> lt (key q) (key k))
    /\ (forall q, q ∈ elements r -> lt (key k) (key q))
  end.

(** The comparator answers for every node, and its sign tells how the
    searched key [s] stands to the node's key. *)
Definition cmp_ok (s : K) (cmp : ptr -> option Z) (t : rbtree) : Prop :=
  forall p, p ∈ elements t ->
  exists z, cmp p = Some z
            /\ (z = 0 -> key p = s)
            /\ (z < 0 -> lt s (key p))
            /\ (0 < z -> lt (key p) s).
End Order.

(** ** The registry invariant *)

Definition str_lt (a b : string) : Prop := String.compare a b = Lt.

(** The key of a node as an index sees it. *)
Definition wd_of (h : gmap ptr watch) (p : ptr) : Z :=
  match h !! p with Some d => wd d | None => 0 end.
Definition filename_of (h : gmap ptr watch) (p : ptr) : string :=
  match h !! p with Some d => filename d | None => EmptyString end.

(** The two indices hold exactly the live watches, each index is ordered
    by its key (so no key and no watch occurs twice), descriptors are
    positive [int]s, and addresses from [brk] on are unused. *)
Record registry_ok (r : registry) : Prop := {
  ok_wd_bst : bst (wd_of (heap r)) Z.lt (tree_wd r);
  ok_fn_bst : bst (filename_of (heap r)) str_lt (tree_filename r);
  ok_wd_live : forall p, p ∈ elements (tree_wd r) <-> is_Some (heap r !! p);
  ok_fn_live : forall p, p ∈ elements (tree_filename r) <-> is_Some (heap r !! p);
  ok_wd_range : forall p d, heap r !! p = Some d -> 0 < wd d < 2 ^ 31;
  ok_brk : forall p : ptr, (brk r <= p)%nat -> heap r !! p = None
}.

(** ** Registries used in the scenarios *)

(** A registry with the single watch (1, ["/tmp/"]). *)
Definition one_watch : watch := mkWatch "/tmp/" 1 zero_counters.
Definition one_watch_registry : registry :=
  mkRegistry (<[1%nat := one_watch]> ∅) 2%nat
             (RBNODE RBNULL 1%nat RBNULL) (RBNODE RBNULL 1%nat RBNULL).

(** A kernel that accepts every removal, and the library state around
    [one_watch_registry]. *)
Definition rm_accept : Z -> Z := fun _ => 0.
Definition one_watch_state : state := set_reg one_watch_registry start_state.

(** The same once a recursive watch has made the table, with no key
    entered. *)
Definition one_watch_tab_state : state := set_tab (Some []) one_watch_state.

(** *** Three watched files *)

(** Three plain files ["b"], ["a"], ["c"], watched in this order, get the
    descriptors 1, 2, 3. *)
Definition three_files_add_watch (f : string) (events : Z) : Z * Z :=
  if String.eqb f "b" then (1, 0)
  else if String.eqb f "a" then (2, 0)
  else if String.eqb f "c" then (3, 0)
  else (-1, 2).
Definition plain_files (f : string) : stat_result := StatOk false false.

Definition three_watch_registry : registry :=
  mkRegistry
    (<[3%nat := mkWatch "c" 3 zero_counters]>
       (<[2%nat := mkWatch "a" 2 zero_counters]>
          (<[1%nat := mkWatch "b" 1 zero_counters]> ∅)))
    4%nat
    (RBNODE RBNULL 1%nat (RBNODE RBNULL 2%nat (RBNODE RBNULL 3%nat RBNULL)))
    (RBNODE (RBNODE RBNULL 2%nat RBNULL) 1%nat (RBNODE RBNULL 3%nat RBNULL)).

(** *** The walk of [inotifytools_replace_filename] *)

(** The visits on which the walk callbacks act. *)
Definition effective (which : VISIT) : bool :=
  match which with
  | endorder | leaf => true
  | _ => false
  end.

(** The watches in the order in which a walk acts on them. *)
Definition walk_order (vs : list (ptr * VISIT)) : list ptr :=
  map fst (List.filter (fun v => effective (snd v)) vs).

(** The path [replace_filename] leaves in a watch whose path is [f]. *)
Definition new_path (old_name new_name f : string) : string :=
  if is_prefix old_name f && negb (strcmp f new_name =? 0)
  then new_name +:+ drop (String.length old_name) f
  else f.

Definition renamed (old_name new_name : string) (d : watch) : watch :=
  mkWatch (new_path old_name new_name (filename d)) (wd d) (hit d).

(** No new path is the old or the new path of another watch. *)
Definition no_collision (old_name new_name : string) (h : gmap ptr watch) : Prop :=
  forall p q d e, h !! p = Some d -> h !! q = Some e -> p <> q ->
  new_path old_name new_name (filename d) <> filename e
  /\ new_path old_name new_name (filename d)
     <> new_path old_name new_name (filename e).

(** One watch on ["/a/x/y"]. *)
Definition axy_watch : watch := mkWatch "/a/x/y" 1 zero_counters.
Definition axy_registry : registry :=
  mkRegistry (<[1%nat := axy_watch]> ∅) 2%nat
             (RBNODE RBNULL 1%nat RBNULL) (RBNODE RBNULL 1%nat RBNULL).

(** Two watches, on ["/a/x"] and on ["/b/x"]. *)
Definition collide_registry : registry :=
  mkRegistry
    (<[2%nat := mkWatch "/b/x" 2 zero_counters]>
       (<[1%nat := mkWatch "/a/x" 1 zero_counters]> ∅))
    3%nat
    (RBNODE RBNULL 1%nat (RBNODE RBNULL 2%nat RBNULL))
    (RBNODE RBNULL 1%nat (RBNODE RBNULL 2%nat RBNULL)).

(** ** EventFormatter *)

(** Modelled from the spec: [struct inotify_event] of the system header
    (the RawRecord of the spec): descriptor, kind mask, cookie, the
    length of the name field and the name. *)
Record inotify_event := mkEvent {
  ev_wd : Z;
  ev_mask : Z;
  ev_cookie : Z;
  ev_len : Z;
  ev_name : string
}.

(** [errno] values of [<errno.h>] the source assigns or tests. *)
Definition ENOENT : Z := 2.
Definition EACCES : Z := 13.
Definition ENOTDIR : Z := 20.
Definition EINVAL : Z := 22.
Definition ELOOP : Z := 40.
Definition EMSGSIZE : Z := 90.

Definition MAX_STRLEN : Z := 4096.
Definition MAX_EVENTS : Z := 4096.

(** The caller's array [out] is a list of its bytes; a store outside of
    it is not performed but reported. *)
Definition store (out : list ascii) (i : Z) (c : ascii) : option (list ascii) :=
  if (0 <=? i) && (i <? Z.of_nat (List.length out))
  then Some (<[Z.to_nat i := c]> out)
  else None.

(** The [n] bytes [strncpy] writes: the text, cut or padded with
    terminators to exactly [n]. *)
Fixpoint strncpy_bytes (n : nat) (src : string) : list ascii :=
  match n with
  | O => []
  | S n' =>
    match src with
    | EmptyString => NUL :: strncpy_bytes n' EmptyString
    | String c src' => c :: strncpy_bytes n' src'
    end
  end.

(** Stores [bytes] from [out[i]] on; [inl k] is the index of the first
    store that falls outside the array. *)
Fixpoint store_bytes (out : list ascii) (i : Z) (bytes : list ascii)
    : Z + list ascii :=
  match bytes with
  | [] => inr out
  | b :: bytes' =>
    match store out i b with
    | None => inl i
    | Some out' => store_bytes out' (i + 1) bytes'
    end
  end.

Definition strncpy (out : list ascii) (i : Z) (src : string) (n : Z)
    : Z + list ascii :=
  store_bytes out i (strncpy_bytes (Z.to_nat n) src).

Inductive snprintf_result :=
| Snprintf_overrun (index : Z)
| Snprintf_return (ret : Z) (out : list ascii) (error : Z).

Section Snprintf.
(** [filename] and [eventname] as computed at the top of the function;
    [timestr] is what [strftime] produces for the current time (empty
    when it fails); [error] is threaded through. *)
Variable size : Z.
Variable event : inotify_event.
Variable filename : option string.
Variable eventname : option string.
Variable timefmt_set : bool.
Variable timestr : string.

(** [strncpy (&out[ind], s, size - ind); ind += strlen (s);] *)
Definition copy_text (out : list ascii) (ind : Z) (s : string)
    : Z + (list ascii * Z) :=
  match strncpy out ind s (to_uint32 (size - ind)) with
  | inl k => inl k
  | inr out' => inr (out', to_uint32 (ind + strlen s))
  end.

(** The [for] loop; [fmt] is the text from [fmt[i]] on. *)
Fixpoint snprintf_loop (fmt : string) (out : list ascii) (ind : Z) (error : Z)
    : snprintf_result :=
  let finish out ind error :=
    match store out ind NUL with
    | None => Snprintf_overrun ind
    | Some out' => Snprintf_return (to_int32 (ind - 1)) out' error
    end in
  let copied r k :=
    match r with
    | inl bad => Snprintf_overrun bad
    | inr (out', ind') => k out' ind'
    end in
  match fmt with
  | EmptyString => finish out ind error
  | String c fmt1 =>
    if negb (to_int32 ind <? size - 1) then finish out ind error
    else if negb (Ascii.eqb c "%") then
      match store out ind c with
      | None => Snprintf_overrun ind
      | Some out' => snprintf_loop fmt1 out' (to_uint32 (ind + 1)) error
      end
    else
      match fmt1 with
      | EmptyString =>
        (* last character is %, invalid *)
        Snprintf_return (to_int32 ind) out EINVAL
      | String ch1 fmt2 =>
        if Ascii.eqb ch1 "%" then
          match store out ind "%"%char with
          | None => Snprintf_overrun ind
          | Some out' => snprintf_loop fmt2 out' (to_uint32 (ind + 1)) error
          end
        else if Ascii.eqb ch1 "w" then
          match filename with
          | Some f =>
            copied (copy_text out ind f)
                   (fun out' ind' => snprintf_loop fmt2 out' ind' error)
          | None => snprintf_loop fmt2 out ind error
          end
        else if Ascii.eqb ch1 "f" then
          match eventname with
          | Some f =>
            copied (copy_text out ind f)
                   (fun out' ind' => snprintf_loop fmt2 out' ind' error)
          | None => snprintf_loop fmt2 out ind error
          end
        else if Ascii.eqb ch1 "e" then
          copied (copy_text out ind (inotifytools_event_to_str (ev_mask event)))
                 (fun out' ind' => snprintf_loop fmt2 out' ind' error)
        else if Ascii.eqb ch1 "T" then
          if timefmt_set && (strlen timestr <=? 0) then
            (* time format probably invalid *)
            Snprintf_return (to_int32 ind) out EINVAL
          else
            copied (copy_text out ind (if timefmt_set then timestr else EmptyString))
                   (fun out' ind' => snprintf_loop fmt2 out' ind' error)
        else
          match fmt2 with
          | String "e" fmt3 =>
            (* Check if next char in fmt is e *)
            copied (copy_text out ind
                      (inotifytools_event_to_str_sep (ev_mask event) ch1))
                   (fun out' ind' => snprintf_loop fmt3 out' ind' error)
          | _ =>
            (* OK, this wasn't a special format character *)
            let '(r, ind1) :=
              if ind <? MAX_STRLEN
              then (store out ind "%"%char, to_uint32 (ind + 1))
              else (Some out, ind) in
            match r with
            | None => Snprintf_overrun ind
            | Some out1 =>
              let '(r, ind2) :=
                if ind1 <? MAX_STRLEN
                then (store out1 ind1 ch1, to_uint32 (ind1 + 1))
                else (Some out1, ind1) in
              match r with
              | None => Snprintf_overrun ind1
              | Some out2 => snprintf_loop fmt2 out2 ind2 error
              end
            end
          end
      end
  end.
End Snprintf.

(** [printf ("filename %s\n", filename)]; the C library prints
    [(null)] for a [NULL] string. *)
Definition printf_filename (filename : option string) : string :=
  "filename " +:+ default "(null)" filename +:+ LF.

(** [inotifytools_snprintf]: the lines the call writes to [stdout] and
    its result.  The lookup of the path is followed by the two debugging
    calls, [printf] and [hfind (&tab, filename)], before [fmt] is looked
    at; the call returns only if [hfind] does. *)
Definition inotifytools_snprintf (st : state) (timestr : string)
    (out : list ascii) (size : Z) (event : inotify_event) (fmt : option string)
    : option (list string * snprintf_result) :=
  let eventname := if 0 <? ev_len event then Some (ev_name event) else None in
  filename ← inotifytools_filename_from_wd (reg st) (ev_wd event);
  found ← hfind (tab (dbg st)) filename;
  let lines := printf_filename filename :: snd found in
  match fmt with
  | None => Some (lines, Snprintf_return (-1) out EINVAL)
  | Some fmt =>
    if strlen fmt =? 0 then Some (lines, Snprintf_return (-1) out EINVAL)
    else if (MAX_STRLEN <? strlen fmt) || (MAX_STRLEN <? size)
    then Some (lines, Snprintf_return (-1) out EMSGSIZE)
    else
      Some (lines,
            snprintf_loop size event filename eventname
              (match timefmt st with Some _ => true | None => false end)
              timestr fmt out 0 (error st))
  end.

(** What a call writes to [stdout] when [hfind] does not find the
    path [f] of the watch. *)
Definition snprintf_lines (f : string) : list string :=
  [printf_filename (Some f); "==>searching for " +:+ f +:+ LF; "==>fail" +:+ LF].

(** [inotifytools_sprintf] *)
Definition inotifytools_sprintf (st : state) (timestr : string)
    (out : list ascii) (event : inotify_event) (fmt : option string)
    : option (list string * snprintf_result) :=
  inotifytools_snprintf st timestr out MAX_STRLEN event fmt.

(** The text in [out] read back as a C string. *)
Fixpoint c_string (out : list ascii) : string :=
  match out with
  | [] => EmptyString
  | c :: out' => if Ascii.eqb c NUL then EmptyString else String c (c_string out')
  end.

(** ** StatsCollector *)

(** [++x] on a 32-bit tally. *)
Definition incr (x : Z) : Z := to_uint32 (x + 1).

(** The thirteen tests of [record_stats] and the total, applied to one
    set of tallies (the source bumps the watch's and the library's in the
    same [if]). *)
Definition count_event (mask : Z) (c : counters) : counters :=
  let on flag x := if Z.land flag mask =? 0 then x else incr x in
  mkCounters
    (on IN_ACCESS (c_access c))
    (on IN_MODIFY (c_modify c))
    (on IN_ATTRIB (c_attrib c))
    (on IN_CLOSE_NOWRITE (c_close_nowrite c))
    (on IN_CLOSE_WRITE (c_close_write c))
    (on IN_OPEN (c_open c))
    (on IN_MOVE_SELF (c_move_self c))
    (on IN_MOVED_FROM (c_moved_from c))
    (on IN_MOVED_TO (c_moved_to c))
    (on IN_CREATE (c_create c))
    (on IN_DELETE (c_delete c))
    (on IN_DELETE_SELF (c_delete_self c))
    (on IN_UNMOUNT (c_unmount c))
    (incr (c_total c)).

(** [record_stats]: nothing is counted when the descriptor resolves to
    no watch. *)
Definition record_stats (st : state) (event : inotify_event) : option state :=
  w ← watch_from_wd (reg st) (ev_wd event);
  match w with
  | None => Some st
  | Some w =>
    d ← heap (reg st) !! w;
    let d' := mkWatch (filename d) (wd d) (count_event (ev_mask event) (hit d)) in
    let r := reg st in
    Some (set_num (count_event (ev_mask event) (num st))
            (set_reg (mkRegistry (<[w := d']> (heap r)) (brk r)
                        (tree_wd r) (tree_filename r)) st))
  end.

(** [stat_ptr], read through. *)
Definition stat_of (c : counters) (event : Z) : option Z :=
  if event =? IN_ACCESS then Some (c_access c)
  else if event =? IN_MODIFY then Some (c_modify c)
  else if event =? IN_ATTRIB then Some (c_attrib c)
  else if event =? IN_CLOSE_WRITE then Some (c_close_write c)
  else if event =? IN_CLOSE_NOWRITE then Some (c_close_nowrite c)
  else if event =? IN_OPEN then Some (c_open c)
  else if event =? IN_MOVED_FROM then Some (c_moved_from c)
  else if event =? IN_MOVED_TO then Some (c_moved_to c)
  else if event =? IN_CREATE then Some (c_create c)
  else if event =? IN_DELETE then Some (c_delete c)
  else if event =? IN_DELETE_SELF then Some (c_delete_self c)
  else if event =? IN_UNMOUNT then Some (c_unmount c)
  else if event =? IN_MOVE_SELF then Some (c_move_self c)
  else if event =? 0 then Some (c_total c)
  else None.

(** [inotifytools_get_stat_by_wd] *)
Definition inotifytools_get_stat_by_wd (st : state) (wd : Z) (event : Z)
    : option Z :=
  if negb (collect_stats st) then Some (-1)
  else
    w ← watch_from_wd (reg st) wd;
    match w with
    | None => Some (-1)
    | Some w =>
      d ← heap (reg st) !! w;
      match stat_of (hit d) event with
      | None => Some (-1)
      | Some i => Some (to_int32 i)
      end
    end.

(** [inotifytools_get_stat_total] *)
Definition inotifytools_get_stat_total (st : state) (event : Z) : Z :=
  if negb (collect_stats st) then -1
  else match stat_of (num st) event with
       | None => -1
       | Some i => to_int32 i
       end.

(** [empty_stats], the walk callback of [inotifytools_initialize_stats]. *)
Definition empty_stats (w : ptr) (which : VISIT) (h : gmap ptr watch)
    : option (gmap ptr watch) :=
  match which with
  | endorder | leaf =>
    d ← h !! w; Some (<[w := mkWatch (filename d) (wd d) zero_counters]> h)
  | _ => Some h
  end.

(** [inotifytools_initialize_stats] *)
Definition inotifytools_initialize_stats (st : state) : option state :=
  let r := reg st in
  h ← (if collect_stats st
       then rbwalk empty_stats (rbwalk_visits (tree_wd r)) (heap r)
       else Some (heap r));
  Some (mkState (mkRegistry h (brk r) (tree_wd r) (tree_filename r))
                (error st) (init st) true zero_counters (timefmt st) (regex st)
                (dbg st)).

(** ** EventStreamReader *)

(** The function-scope statics of [inotifytools_next_events]: the array
    [event] as a map from byte offsets to bytes (a byte never written is
    0, the array being static), [first_byte] and [bytes]. *)
Record reader := mkReader {
  event_buf : gmap Z Z;
  first_byte : Z;
  bytes : Z
}.

Definition idle_reader : reader := mkReader ∅ 0 0.

(** [sizeof (struct inotify_event)] and the size of the array. *)
Definition EVENT_SIZE : Z := 16.
Definition BUF_SIZE : Z := EVENT_SIZE * MAX_EVENTS.

Definition byte_at (buf : gmap Z Z) (off : Z) : Z := default 0 (buf !! off).

(** A 32-bit field, least significant byte first. *)
Definition le32 (buf : gmap Z Z) (off : Z) : Z :=
  byte_at buf off + 2 ^ 8 * byte_at buf (off + 1)
  + 2 ^ 16 * byte_at buf (off + 2) + 2 ^ 24 * byte_at buf (off + 3).

(** The text at [off], up to its terminator or to the end of the array. *)
Fixpoint cstring_at (fuel : nat) (buf : gmap Z Z) (off : Z) : string :=
  match fuel with
  | O => EmptyString
  | S fuel' =>
    let b := byte_at buf off in
    if b =? 0 then EmptyString
    else String (ascii_of_nat (Z.to_nat b)) (cstring_at fuel' buf (off + 1))
  end.

(** The record a [struct inotify_event *] into the array points at. *)
Definition event_at (buf : gmap Z Z) (off : Z) : inotify_event :=
  mkEvent (to_int32 (le32 buf off)) (le32 buf (off + 4)) (le32 buf (off + 8))
          (le32 buf (off + 12))
          (cstring_at (Z.to_nat (BUF_SIZE - (off + 16))) buf (off + 16)).

Fixpoint poke (buf : gmap Z Z) (off : Z) (data : list Z) : gmap Z Z :=
  match data with
  | [] => buf
  | b :: data' => poke (<[off := b]> buf) (off + 1) data'
  end.

(** [memcpy (&event[0], ret, n)], reading the source as it was. *)
Definition move_to_front (buf : gmap Z Z) (ret : Z) (n : Z) : gmap Z Z :=
  poke buf 0 (map (fun k => byte_at buf (ret + Z.of_nat k)) (seq 0 (Z.to_nat n))).

(** Modelled from the spec: the notification source as one wait sees it
    (the kernel is outside the sources).  [k_ready_after] is the number
    of seconds after which the descriptor becomes readable, if ever;
    [k_select_errno] makes [select] fail; [k_fionread] are the successive
    answers [(rc, bytes_to_read)] of the [FIONREAD] query, the last one
    repeating for ever; [k_read] is what [read] has to deliver, or its
    [errno]. *)
Record kernel_round := mkRound {
  k_ready_after : option Z;
  k_select_errno : option Z;
  k_fionread : list (Z * Z);
  k_ioctl_errno : Z;
  k_read : Z + list Z
}.

(** A source on which nothing ever happens. *)
Definition silent_round : kernel_round := mkRound None None [] 0 (inr []).

Inductive select_result :=
| Select_blocks
| Select_returns (rc errno : Z).

(** Modelled from the spec: [select] on the one descriptor.  With a
    [NULL] timeout it returns only once the descriptor is readable; with
    a timeout of [t] seconds it returns 0 when [t] seconds pass first. *)
Definition select (read_timeout_ptr : option Z) (k : kernel_round) : select_result :=
  match k_select_errno k with
  | Some e => Select_returns (-1) e
  | None =>
    match read_timeout_ptr, k_ready_after k with
    | None, None => Select_blocks
    | None, Some _ => Select_returns 1 0
    | Some t, Some s => if s <=? t then Select_returns 1 0 else Select_returns 0 0
    | Some t, None => Select_returns 0 0
    end
  end.

(** The [do ... while] around [ioctl (FIONREAD)]: [None] when the loop
    never ends. *)
Fixpoint fionread_loop (answers : list (Z * Z)) (need : Z) : option (Z * Z) :=
  match answers with
  | [] => None
  | [(rc, n)] => if (rc =? 0) && (n <? need) then None else Some (rc, n)
  | (rc, n) :: rest =>
    if (rc =? 0) && (n <? need) then fionread_loop rest need else Some (rc, n)
  end.

Inductive reader_outcome :=
| Event (st : state) (rd : reader) (env : list kernel_round)
        (ret : Z) (event : inotify_event)
| NoEvent (st : state) (rd : reader) (env : list kernel_round)
| Blocked
| Undefined
| OutOfFuel.

(** [static char match_name[MAX_STRLEN]] *)
Definition match_name : list ascii := repeat NUL (Z.to_nat MAX_STRLEN).

Inductive return_result :=
| Return_event (st : state)
| Return_longjmp (st : state)
| Return_undefined.

(** The [RETURN] macro applied to the record at [ret]. *)
Definition RETURN (st : state) (event : inotify_event) : return_result :=
  let filtered :=
    match regex st with
    | Some re =>
      match inotifytools_snprintf st "" match_name MAX_STRLEN event (Some "%w%f") with
      | Some (lines, Snprintf_return _ out err) =>
        Some (print lines (set_error err st), re (c_string out))
      | _ => None
      end
    | None => Some (st, false)
    end in
  match filtered with
  | None => Return_undefined
  | Some (st, true) => Return_longjmp st
  | Some (st, false) =>
    if collect_stats st then
      match record_stats st event with
      | Some st' => Return_event st'
      | None => Return_undefined
      end
    else Return_event st
  end.

(** [inotifytools_next_events] from [setjmp] on; one unit of [fuel] is
    spent by every [longjmp] and by the call of the function to itself. *)
Fixpoint next_events_loop (fuel : nat) (st : state) (rd : reader)
    (env : list kernel_round) (timeout num_events : Z) : reader_outcome :=
  match fuel with
  | O => OutOfFuel
  | S fuel' =>
    if num_events <? 1 then NoEvent st rd env
    else
      let st := set_error 0 st in
      let buf := event_buf rd in
      let finish st rd env ret :=
        match RETURN st (event_at (event_buf rd) ret) with
        | Return_event st' => Event st' rd env ret (event_at (event_buf rd) ret)
        | Return_longjmp st' => next_events_loop fuel' st' rd env timeout num_events
        | Return_undefined => Undefined
        end in
      if negb (first_byte rd =? 0)
         && (first_byte rd <=? to_int32 (bytes rd - EVENT_SIZE)) then
        let ret := first_byte rd in
        let fb := to_int32 (first_byte rd + EVENT_SIZE + le32 buf (ret + 12)) in
        if fb =? bytes rd then finish st (mkReader buf 0 (bytes rd)) env ret
        else if bytes rd <? fb then
          (* An incomplete event: copy what we have to the front, call
             self to read the remainder. *)
          let n := bytes rd - ret in
          next_events_loop fuel' st (mkReader (move_to_front buf ret n) fb n)
                           env timeout num_events
        else finish st (mkReader buf fb (bytes rd)) env ret
      else
        let bytes0 := if first_byte rd =? 0 then 0 else bytes rd in
        let read_timeout_ptr := if timeout <=? 0 then None else Some timeout in
        let '(k, env') :=
          match env with
          | [] => (silent_round, [])
          | k :: env' => (k, env')
          end in
        match select read_timeout_ptr k with
        | Select_blocks => Blocked
        | Select_returns rc errno =>
          if rc <? 0 then NoEvent (set_error errno st) (mkReader buf (first_byte rd) bytes0) env'
          else if rc =? 0 then NoEvent st (mkReader buf (first_byte rd) bytes0) env'
          else
            match fionread_loop (k_fionread k) (EVENT_SIZE * num_events) with
            | None => Blocked
            | Some (rc, _) =>
              if rc =? -1 then
                NoEvent (set_error (k_ioctl_errno k) st)
                        (mkReader buf (first_byte rd) bytes0) env'
              else
                match k_read k with
                | inl errno =>
                  NoEvent (set_error errno st) (mkReader buf (first_byte rd) bytes0) env'
                | inr data =>
                  let data := firstn (Z.to_nat (BUF_SIZE - bytes0)) data in
                  let this_bytes := Z.of_nat (List.length data) in
                  if this_bytes =? 0 then
                    NoEvent st (mkReader buf (first_byte rd) bytes0) env'
                  else
                    (* [&event[0] + bytes] counts in records, not in bytes *)
                    let dst := EVENT_SIZE * bytes0 in
                    if BUF_SIZE <? dst + this_bytes then Undefined
                    else
                      let buf' := poke buf dst data in
                      let bytes' := bytes0 + this_bytes in
                      let fb := to_int32 (EVENT_SIZE + le32 buf' 12) in
                      let fb := if fb =? bytes' then 0 else fb in
                      finish st (mkReader buf' fb bytes') env' 0
                end
            end
        end
  end.

Definition inotifytools_next_events (fuel : nat) (st : state) (rd : reader)
    (env : list kernel_round) (timeout num_events : Z) : reader_outcome :=
  next_events_loop fuel st rd env timeout num_events.

Definition inotifytools_next_event (fuel : nat) (st : state) (rd : reader)
    (env : list kernel_round) (timeout : Z) : reader_outcome :=
  inotifytools_next_events fuel st rd env timeout 1.

(** [inotifytools_ignore_events_by_regex]; [compiled] is what [regcomp]
    makes of the pattern: the match predicate, or [None] when the pattern
    does not compile. *)
Definition inotifytools_ignore_events_by_regex (st : state)
    (pattern : option string) (compiled : option (string -> bool)) : state * Z :=
  match pattern with
  | None => (set_regex None st, 1)
  | Some _ =>
    match compiled with
    | Some re => (set_regex (Some re) st, 1)
    | None => (set_error EINVAL (set_regex None st), 0)
    end
  end.

(** *** Kernel rounds used in the scenarios *)

(** The bytes of a record as the kernel writes them. *)
Definition le32_bytes (z : Z) : list Z :=
  [z mod 2 ^ 8; (z / 2 ^ 8) mod 2 ^ 8; (z / 2 ^ 16) mod 2 ^ 8; (z / 2 ^ 24) mod 2 ^ 8].

Fixpoint name_bytes (n : nat) (s : string) : list Z :=
  match n with
  | O => []
  | S n' =>
    match s with
    | EmptyString => 0 :: name_bytes n' EmptyString
    | String c s' => Z.of_nat (nat_of_ascii c) :: name_bytes n' s'
    end
  end.

Definition event_bytes (event : inotify_event) : list Z :=
  (le32_bytes (to_uint32 (ev_wd event)) ++ le32_bytes (ev_mask event)
   ++ le32_bytes (ev_cookie event) ++ le32_bytes (ev_len event)
   ++ name_bytes (Z.to_nat (ev_len event)) (ev_name event))%list.

(** A wait that finds [data] ready to be read at once. *)
Definition ready_round (data : list Z) : kernel_round :=
  mkRound (Some 0) None [(0, Z.of_nat (List.length data))] 0 (inr data).

(** *** A filtered and a delivered event *)

(** Tallies are kept, and events on ["/tmp/skip"] are filtered out. *)
Definition skip_state : state :=
  set_collect_stats true
    (set_regex (Some (fun text => String.eqb text "/tmp/skip")) one_watch_state).

Definition skip_event : inotify_event := mkEvent 1 IN_CREATE 0 16 "skip".
Definition keep_event : inotify_event := mkEvent 1 IN_MODIFY 0 16 "keep".

(** ** RecursiveWatcher *)

(** Modelled from the spec: the directory tree as the walk finds it (the
    file system is outside the sources).  [opendir] on a path either
    fails with an [errno] or opens a directory, whose entries [readdir]
    hands out one by one; each entry carries what [opendir] would find
    at it. *)
Inductive dirtree :=
| OpenErr (errno : Z)
| OpenDir (entries : dirents)
with dirents :=
| NoMore
| Entry (d_name : string) (sub : dirtree) (rest : dirents).


(** The [for] loop over [exclude_list]: is [next_file] excluded? *)
Fixpoint excluded (exclude_list : list string) (next_file : string) : bool :=
  match exclude_list with
  | [] => false
  | exclude_entry :: rest =>
    let exclude_length := strlen exclude_entry in
    let exclude_length :=
      if Ascii.eqb (last_char exclude_entry) "/"
      then exclude_length - 1 else exclude_length in
    if (strlen next_file =? to_uint32 (exclude_length + 1))
       && String.eqb (take (Z.to_nat exclude_length) exclude_entry)
                     (take (Z.to_nat exclude_length) next_file)
    then true
    else excluded rest next_file
  end.

Section Recursive.
Variable inotify_add_watch : string -> Z -> Z * Z.
Variable lstat64 : string -> stat_result.
Variable events : Z.
Variable exclude_list : option (list string).

(** For some errors, we will continue. *)
Definition tolerable (error : Z) : bool :=
  (error =? EACCES) || (error =? ENOENT) || (error =? ELOOP).

(** The debugging statements that follow the recursive call, up to
    [free ( next_file )]: [hadd], [hfind], the store into
    [dir_stack], [printf] and [dir_count++].  [dir_stack] has
    [MAX_ENTRIES] slots, and a store outside of it is [None]. *)
Definition debug_watching (next_file : string) (st : state) : option state :=
  let d := dbg st in
  t ← hadd (tab d) next_file (dir_count d);
  found ← hfind (Some t) (Some next_file);
  if (0 <=? dir_count d) && (dir_count d <? MAX_ENTRIES) then
    Some (set_dbg
            (mkDebug (Some (free_key next_file t))
                     (to_int32 (dir_count d + 1))
                     (<[dir_count d := next_file]> (dir_stack d))
                     (stdout d ++ snd found
                        ++ ["veraoks_debug: watching " +:+ next_file +:+ "("
                              +:+ decimal (dir_count d) +:+ ")" +:+ LF])%list)
            st)
  else None.

(** [inotifytools_watch_recursively_with_exclude]: [watch_recursively] is
    the function on a path at which [opendir] finds [tree];
    [watch_entries] is its [while ( ent )] loop followed by the watch on
    the directory itself. *)
Fixpoint watch_recursively (tree : dirtree) (path : string) (st : state)
    {struct tree} : option (state * Z) :=
  let st := set_error 0 st in
  match tree with
  | OpenErr errno =>
    (* If not a directory, don't need to do anything special *)
    if errno =? ENOTDIR
    then inotifytools_watch_file inotify_add_watch lstat64 st path events
    else Some (set_error errno st, 0)
  | OpenDir entries =>
    let st := set_tab (hcreate_r (tab (dbg st))) st in
    let my_path :=
      if negb (Ascii.eqb (last_char path) "/") then path +:+ "/" else path in
    watch_entries entries my_path st
  end
with watch_entries (ents : dirents) (my_path : string) (st : state)
    {struct ents} : option (state * Z) :=
  match ents with
  | NoMore => inotifytools_watch_file inotify_add_watch lstat64 st my_path events
  | Entry d_name sub rest =>
    if negb (String.eqb d_name ".") && negb (String.eqb d_name "..") then
      let next_file := my_path +:+ d_name in
      match lstat64 next_file with
      | StatErr errno =>
        if negb (errno =? EACCES) then Some (set_error errno st, 0)
        else watch_entries rest my_path (set_error 0 st)
      | StatOk s_isdir s_islnk =>
        if s_isdir && negb s_islnk then
          let next_file := my_path +:+ d_name +:+ "/" in
          let no_watch :=
            match exclude_list with
            | None => false
            | Some l => excluded l next_file
            end in
          r ← (if no_watch then Some (st, 1)
               else watch_recursively sub next_file st);
          let '(st, status) := r in
          (* For some errors, we will continue. *)
          if negb no_watch && (status =? 0) && negb (tolerable (error st))
          then Some (st, 0)
          else
            st ← debug_watching next_file st;
            watch_entries rest my_path (set_error 0 st)
        else watch_entries rest my_path (set_error 0 st)
      end
    else watch_entries rest my_path (set_error 0 st)
  end.

Definition inotifytools_watch_recursively_with_exclude (tree : dirtree)
    (path : string) (st : state) : option (state * Z) :=
  watch_recursively tree path st.
End Recursive.

(** *** Growth of the registry *)

(** Every watch of [r] is still there in [r'], unchanged and in both
    indices. *)
Definition registry_grows (r r' : registry) : Prop :=
  (forall p d, heap r !! p = Some d -> heap r' !! p = Some d)
  /\ (forall q, q ∈ elements (tree_wd r) -> q ∈ elements (tree_wd r'))
  /\ (forall q, q ∈ elements (tree_filename r) -> q ∈ elements (tree_filename r')).

(** The allocator has not handed out the addresses from [brk] on. *)
Definition brk_fresh (r : registry) : Prop :=
  forall p : ptr, (brk r <= p)%nat -> heap r !! p = None.

(** *** Directory trees used in the scenarios *)

(** [root/] with the subdirectories [a/] and [b/]; [b/] holds a
    subdirectory that cannot be opened. *)
Definition root_tree : dirtree :=
  OpenDir
    (Entry "." (OpenDir NoMore)
       (Entry ".." (OpenDir NoMore)
          (Entry "a" (OpenDir NoMore)
             (Entry "b" (OpenDir (Entry "secret" (OpenErr EACCES) NoMore))
                NoMore)))).

Definition all_directories (path : string) : stat_result := StatOk true false.

Definition root_add_watch (path : string) (events : Z) : Z * Z :=
  if String.eqb path "root/a/" then (2, 0)
  else if String.eqb path "root/b/" then (3, 0)
  else if String.eqb path "root/" then (4, 0)
  else (-1, EACCES).



(** *** What a recursive watch comes to *)



Section Verdict.
Variable inotify_add_watch : string -> Z -> Z * Z.
Variable lstat64 : string -> stat_result.
Variable events : Z.
Variable exclude_list : option (list string).


Definition no_watch (next_file : string) : bool :=
  match exclude_list with
  | None => false
  | Some l => excluded l next_file
  end.



End Verdict.

(** ** Walks over all watches *)

(** What a walk whose callback acts on the [endorder] and [leaf] visits
    only comes to: [f] applied to the watches in walk order. *)
Fixpoint visit_all {S : Type} (f : ptr -> S -> option S) (ps : list ptr) (s : S)
    : option S :=
  match ps with
  | [] => Some s
  | p :: ps' => s' ← f p s; visit_all f ps' s'
  end.

(** [cleanup_tree], the walk callback of [inotifytools_cleanup]:
    [destroy_watch] on every watch of the descriptor index.  Freeing an
    address that holds no live watch is undefined. *)
Definition cleanup_tree (w : ptr) (which : VISIT) (r : registry) : option registry :=
  match which with
  | endorder | leaf => _ ← heap r !! w; Some (destroy_watch r w)
  | _ => Some r
  end.

(** [inotifytools_cleanup]: [rbdestroy] frees the nodes of an index, and
    the pointer to it is set to 0. *)
Definition inotifytools_cleanup (st : state) : option state :=
  if negb (init st) then Some st
  else
    r ← rbwalk cleanup_tree (rbwalk_visits (tree_wd (reg st))) (reg st);
    Some (mkState (mkRegistry (heap r) (brk r) RBNULL RBNULL)
                  0 false false (num st) None None (dbg st)).

(** [inotifytools_error] *)
Definition inotifytools_error (st : state) : Z := error st.

(** A kernel that hands out descriptor 2 for ["/var"], a directory. *)
Definition var_add_watch (f : string) (events : Z) : Z * Z :=
  if String.eqb f "/var" then (2, 0) else (-1, ENOENT).

(** The initialised library around [three_watch_registry]. *)
Definition three_watch_state : state :=
  mkState three_watch_registry 0 true false zero_counters None None start_debug.

(** ** Tallies by path *)

(** [inotifytools_get_stat_by_filename] *)
Definition inotifytools_get_stat_by_filename (st : state) (filename : string)
    (event : Z) : option Z :=
  wd ← inotifytools_wd_from_filename (reg st) filename;
  inotifytools_get_stat_by_wd st wd event.

(** ** Event strings as lists of tokens *)

(** What the tokens of an event string come to, read left to right: the
    first token that [onestr_to_event] answers 0 (it is empty) or -1 (it
    is no event name) for decides the result; otherwise the values of all
    tokens are or-ed together. *)
Fixpoint parse_tokens (ts : list string) (acc : Z) : Z :=
  match ts with
  | [] => acc
  | t :: ts' =>
    let v := onestr_to_event (Some t) in
    if (v =? 0) || (v =? -1) then v else parse_tokens ts' (Z.lor acc v)
  end.

(** ** The text a template stands for *)

(** Either the whole template was read, or it was given up with
    [EINVAL]; [text] is what was produced up to there. *)
Inductive expansion :=
| Expanded (text : string)
| Rejected (text : string).

Definition prepend (s : string) (e : expansion) : expansion :=
  match e with
  | Expanded t => Expanded (s +:+ t)
  | Rejected t => Rejected (s +:+ t)
  end.

Section Expand.
Variable event : inotify_event.
Variable filename : option string.
Variable eventname : option string.
Variable timefmt_set : bool.
Variable timestr : string.

(** The tokens of [inotifytools_snprintf], in the order of its tests:
    a character other than [%] stands for itself, [%%] for [%], [%w] for
    the path of the watch, [%f] for the name in the event, [%e] for the
    event names with commas, [%T] for the time, [%Xe] for the event names
    with [X] between them, and [%] before any other character for the
    two characters.  A [%] that ends the template and a [%T] whose time
    format produces nothing give the template up. *)
Fixpoint expand (fmt : string) : expansion :=
  match fmt with
  | EmptyString => Expanded EmptyString
  | String c fmt1 =>
    if negb (Ascii.eqb c "%") then prepend (String c EmptyString) (expand fmt1)
    else
      match fmt1 with
      | EmptyString => Rejected EmptyString
      | String ch1 fmt2 =>
        if Ascii.eqb ch1 "%" then prepend "%" (expand fmt2)
        else if Ascii.eqb ch1 "w"
        then prepend (default EmptyString filename) (expand fmt2)
        else if Ascii.eqb ch1 "f"
        then prepend (default EmptyString eventname) (expand fmt2)
        else if Ascii.eqb ch1 "e"
        then prepend (inotifytools_event_to_str (ev_mask event)) (expand fmt2)
        else if Ascii.eqb ch1 "T" then
          if timefmt_set && (strlen timestr <=? 0) then Rejected EmptyString
          else prepend (if timefmt_set then timestr else EmptyString) (expand fmt2)
        else
          match fmt2 with
          | String "e" fmt3 =>
            prepend (inotifytools_event_to_str_sep (ev_mask event) ch1) (expand fmt3)
          | _ => prepend (String "%" (String ch1 EmptyString)) (expand fmt2)
          end
      end
  end.
End Expand.

(** [out'] is [out] with [text] written from index [ind] on; below
    [ind] and from [size] on the two arrays are the same. *)
Definition agrees (out out' : list ascii) (ind : nat) (text : string) (size : nat)
    : Prop :=
  List.length out' = List.length out
  /\ forall k : nat,
       ((k < ind)%nat -> out' !! k = out !! k)
       /\ ((ind <= k < ind + String.length text)%nat ->
           out' !! k = list_ascii_of_string text !! (k - ind)%nat)
       /\ ((size <= k)%nat -> out' !! k = out !! k).

(** What the loop of [inotifytools_snprintf] comes to when the text of
    the template leaves room for the terminator. *)
Definition loop_post (size : Z) (out : list ascii) (ind : Z) (error : Z)
    (e : expansion) (r : snprintf_result) : Prop :=
  match e with
  | Expanded text =>
    ind + strlen text <= size - 1 ->
    exists out',
      r = Snprintf_return (ind + strlen text - 1) out' error
      /\ agrees out out' (Z.to_nat ind) text (Z.to_nat size)
      /\ out' !! Z.to_nat (ind + strlen text) = Some NUL
  | Rejected text =>
    ind + strlen text < size - 1 ->
    exists out',
      r = Snprintf_return (ind + strlen text) out' EINVAL
      /\ agrees out out' (Z.to_nat ind) text (Z.to_nat size)
  end.

(** [inotifytools_fprintf]: [out] is the function's static array of
    [MAX_STRLEN + 1] bytes as the call before left it.  The result is the
    value returned, the array and [error] afterwards, the lines the
    debugging statements write to [stdout], and the text handed to
    [fprintf] after them, if any. *)
Definition inotifytools_fprintf (st : state) (timestr : string) (out : list ascii)
    (event : inotify_event) (fmt : option string)
    : option (Z * list ascii * Z * list string * option string) :=
  r ← inotifytools_sprintf st timestr out event fmt;
  match snd r with
  | Snprintf_overrun _ => None
  | Snprintf_return ret out' error =>
    Some (ret, out', error, fst r,
          if ret =? -1 then None else Some (c_string out'))
  end.

(** [inotifytools_printf]: the file is [stdout]. *)
Definition inotifytools_printf (st : state) (timestr : string) (out : list ascii)
    (event : inotify_event) (fmt : option string)
    : option (Z * list ascii * Z * list string * option string) :=
  inotifytools_fprintf st timestr out event fmt.

(** [inotifytools_set_printf_timefmt] *)
Definition inotifytools_set_printf_timefmt (st : state) (fmt : option string) : state :=
  set_timefmt fmt st.

(** ** Records in the buffer *)

(** The bytes of several records, one after the other, as one [read]
    delivers them. *)
Definition events_bytes (es : list inotify_event) : list Z :=
  concat (map event_bytes es).

(** A record as the kernel writes it: the fields fit their 32 bits, and
    a name, when there is one, is a text without terminator inside it,
    followed by at least one terminator within [len] bytes. *)
Definition kernel_record (e : inotify_event) : Prop :=
  int_range (ev_wd e)
  /\ 0 <= ev_mask e < 2 ^ 32 /\ 0 <= ev_cookie e < 2 ^ 32 /\ 0 <= ev_len e < 2 ^ 32
  /\ (0 < ev_len e ->
      strlen (ev_name e) < ev_len e
      /\ Forall (fun c => c <> NUL) (list_ascii_of_string (ev_name e))).

(** Two records with the same fields; the name counts when [len] says
    there is one (the source does not read it otherwise). *)
Definition same_record (a b : inotify_event) : Prop :=
  ev_wd a = ev_wd b /\ ev_mask a = ev_mask b /\ ev_cookie a = ev_cookie b
  /\ ev_len a = ev_len b /\ (0 < ev_len a -> ev_name a = ev_name b).

(** The array holds [data] from offset [off] on. *)
Definition holds (buf : gmap Z Z) (off : Z) (data : list Z) : Prop :=
  forall k : nat, (k < List.length data)%nat ->
                  byte_at buf (off + Z.of_nat k) = nth k data 0.

(** The records [es] are what is left in the array for the calls to
    come: [first_byte] points at the first of them and [bytes] behind the
    last; with nothing left, [first_byte] is 0. *)
Definition pending (rd : reader) (es : list inotify_event) : Prop :=
  match es with
  | [] => first_byte rd = 0
  | _ :: _ =>
    0 < first_byte rd
    /\ holds (event_buf rd) (first_byte rd) (events_bytes es)
    /\ bytes rd = first_byte rd + Z.of_nat (List.length (events_bytes es))
    /\ bytes rd <= BUF_SIZE
  end.

(** [n] calls of [inotifytools_next_event] in a row: the events they
    return, or [None] when one of them returns no event. *)
Fixpoint next_event_n (n : nat) (fuel : nat) (st : state) (rd : reader)
    (env : list kernel_round) (timeout : Z)
    : option (list inotify_event * state * reader * list kernel_round) :=
  match n with
  | O => Some ([], st, rd, env)
  | S n' =>
    match inotifytools_next_event fuel st rd env timeout with
    | Event st' rd' env' _ e =>
      r ← next_event_n n' fuel st' rd' env' timeout;
      let '(es, st'', rd'', env'') := r in Some (e :: es, st'', rd'', env'')
    | _ => None
    end
  end.

(** A round on which [read] fails with [EINTR]. *)
Definition interrupted_round : kernel_round :=
  mkRound (Some 0) None [(0, 16)] 0 (inl 4).

(** ** Exclusions and plain directories *)

(** An entry of the exclude list without the ["/"] it may end in. *)
Definition strip_slash (s : string) : string :=
  if Ascii.eqb (last_char s) "/" then take (String.length s - 1) s else s.

(** [inotifytools_watch_recursively] *)
Definition inotifytools_watch_recursively (inotify_add_watch : string -> Z -> Z * Z)
    (lstat64 : string -> stat_result) (events : Z) (tree : dirtree) (path : string)
    (st : state) : option (state * Z) :=
  inotifytools_watch_recursively_with_exclude inotify_add_watch lstat64 events None
    tree path st.

(** The entries of a directory that the walk passes over: ["."] and
    [".."], what [lstat64] does not show as a directory proper, and what
    it may not examine. *)
Fixpoint passed_over (lstat64 : string -> stat_result) (my_path : string)
    (ents : dirents) : Prop :=
  match ents with
  | NoMore => True
  | Entry d_name _ rest =>
    (d_name = "." \/ d_name = ".."
     \/ lstat64 (my_path +:+ d_name) = StatErr EACCES
     \/ exists s_isdir s_islnk,
          lstat64 (my_path +:+ d_name) = StatOk s_isdir s_islnk
          /\ s_isdir && negb s_islnk = false)
    /\ passed_over lstat64 my_path rest
  end.

(** A directory with two plain files. *)
Definition files_tree : dirtree :=
  OpenDir (Entry "." (OpenDir NoMore)
             (Entry "a.txt" (OpenErr ENOTDIR) (Entry "b.txt" (OpenErr ENOTDIR) NoMore))).

(** ** Watches sorted by a tally *)

(** How [event_compare] reads its [config]: the kind to sort by and
    whether the order is ascending; -1 asks for the total, descending,
    any other negative number for the kind with that absolute value,
    descending. *)
Definition sort_order (sort_event : Z) : Z * bool :=
  if sort_event =? -1 then (0, false)
  else if sort_event <? 0 then (to_int32 (- sort_event), false)
  else (sort_event, true).

(** [event_compare] on two watches.  [None] is the dereference of the
    null pointer that [stat_ptr] returns for an event it does not know. *)
Definition event_compare (sort_event : Z) (d1 d2 : watch) : option Z :=
  let '(kind, asc) := sort_order sort_event in
  i1 ← stat_of (hit d1) kind;
  i2 ← stat_of (hit d2) kind;
  let i1 := to_int32 i1 in
  let i2 := to_int32 i2 in
  if to_int32 (i1 - i2) =? 0 then Some (to_int32 (wd d1 - wd d2))
  else if asc then Some (to_int32 (i1 - i2))
  else Some (to_int32 (i2 - i1)).

(** The comparator as the tree sees it, the key being a watch address. *)
Definition cmp_event_at (h : gmap ptr watch) (sort_event : Z) (w p : ptr)
    : option Z :=
  d1 ← h !! w; d2 ← h !! p; event_compare sort_event d1 d2.

(** The [while] loop of [inotifytools_wd_sorted_by_event] over the keys
    [rbreadlist] hands out. *)
Fixpoint sorted_insert_all (h : gmap ptr watch) (sort_event : Z) (ps : list ptr)
    (ret : rbtree) : option rbtree :=
  match ps with
  | [] => Some ret
  | p :: ps' =>
    ret' ← rbsearch (cmp_event_at h sort_event p) p ret;
    sorted_insert_all h sort_event ps' ret'
  end.

(** Modelled from the spec: [rbopenlist] and [rbreadlist] of the tree
    library list the keys of an index in ascending order, which for the
    descriptor index is the order of [elements].
    [inotifytools_wd_sorted_by_event] inserts them one by one into a new
    tree ordered by [event_compare]. *)
Definition inotifytools_wd_sorted_by_event (r : registry) (sort_event : Z)
    : option rbtree :=
  sorted_insert_all (heap r) sort_event (elements (tree_wd r)) RBNULL.

(** The tally a watch is sorted by, negated when the order is
    descending, and its descriptor. *)
Definition sort_key (h : gmap ptr watch) (sort_event : Z) (p : ptr) : Z * Z :=
  let '(kind, asc) := sort_order sort_event in
  match h !! p with
  | Some d =>
    let i := match stat_of (hit d) kind with Some i => to_int32 i | None => 0 end in
    (if asc then i else - i, wd d)
  | None => (0, 0)
  end.

Definition lex_lt (a b : Z * Z) : Prop :=
  fst a < fst b \/ (fst a = fst b /\ snd a < snd b).

(** The three watches of [three_watch_registry] after 5, 2 and 5 events. *)
Definition total_only (n : Z) : counters := mkCounters 0 0 0 0 0 0 0 0 0 0 0 0 0 n.

Definition tallied_registry : registry :=
  mkRegistry
    (<[3%nat := mkWatch "c" 3 (total_only 5)]>
       (<[2%nat := mkWatch "a" 2 (total_only 2)]>
          (<[1%nat := mkWatch "b" 1 (total_only 5)]> ∅)))
    (brk three_watch_registry) (tree_wd three_watch_registry)
    (tree_filename three_watch_registry).

(** ** A filter on a watched directory *)

(** A kernel that hands out descriptor 1 for ["/tmp"], a directory. *)
Definition tmp_add_watch (f : string) (events : Z) : Z * Z :=
  if String.eqb f "/tmp" || String.eqb f "/tmp/" then (1, 0) else (-1, ENOENT).

Definition skip_filter (text : string) : bool := String.eqb text "/tmp/skip".

(** The library after [inotifytools_initialize], a watch on ["/tmp"] set
    up by [watch], [inotifytools_initialize_stats] and
    [inotifytools_ignore_events_by_regex]. *)
Definition filtered_after (watch : state -> option (state * Z)) : option state :=
  r ← watch (fst (inotifytools_initialize 3 start_state));
  st ← inotifytools_initialize_stats (fst r);
  Some (fst (inotifytools_ignore_events_by_regex st (Some "^/tmp/skip$")
               (Some skip_filter))).

(** * Theorems *)

(** ** EventCodec: lemmas *)

Example ex_parse_1 :
  inotifytools_str_to_event (Some "MODIFY,close,Create") = Some 0x11a.
Proof. reflexivity. Qed.
Example ex_parse_2 : inotifytools_str_to_event (Some "MODIFY,") = Some 0.
Proof. reflexivity. Qed.
Example ex_parse_3 : inotifytools_str_to_event (Some "bogus") = Some (-1).
Proof. reflexivity. Qed.
Example ex_render_1 :
  inotifytools_event_to_str (Z.lor IN_CREATE IN_ISDIR) = "CREATE,ISDIR".
Proof. reflexivity. Qed.
Example ex_render_2 : inotifytools_event_to_str IN_CLOSE_WRITE = "CLOSE_WRITE,CLOSE".
Proof. reflexivity. Qed.
Example ex_render_3 : inotifytools_event_to_str 0 = "0x00000000".
Proof. reflexivity. Qed.
Example ex_render_4 : inotifytools_event_to_str 0x10000 = "0x00010000".
Proof. reflexivity. Qed.

(** *** String lemmas *)

Lemma length_append (a b : string) :
  String.length (a +:+ b) = (String.length a + String.length b)%nat.
Proof. induction a as [|c a IH]; simpl; [reflexivity | now rewrite IH]. Qed.

Lemma take_append (a b : string) : take (String.length a) (a +:+ b) = a.
Proof. induction a as [|c a IH]; simpl; [now destruct b | now rewrite IH]. Qed.

Lemma take_all (a : string) : take (String.length a) a = a.
Proof. induction a as [|c a IH]; simpl; [reflexivity | now rewrite IH]. Qed.

Lemma strchr_None_not_NUL (t : string) (c : ascii) : strchr t c = None -> c <> NUL.
Proof.
  induction t as [|a t IH]; simpl.
  - destruct (Ascii.eqb c NUL) eqn:E; [discriminate |].
    intros _. now apply Ascii.eqb_neq.
  - destruct (Ascii.eqb a c); [discriminate | exact IH].
Qed.

Lemma strchr_append_free (t rest : string) (c : ascii) :
  strchr t c = None -> rest <> EmptyString ->
  strchr (t +:+ rest) c = strchr rest c.
Proof.
  induction t as [|a t IH]; simpl; intros H Hr.
  - reflexivity.
  - destruct (Ascii.eqb a c); [discriminate | now apply IH].
Qed.

Lemma strchr_head (c : ascii) (s : string) : strchr (String c s) c = Some (String c s).
Proof. simpl. now rewrite Ascii.eqb_refl. Qed.

Lemma head_char_append (t rest : string) :
  t <> EmptyString -> head_char (t +:+ rest) = head_char t.
Proof. destruct t; [congruence | reflexivity]. Qed.

Lemma length_strlower (s : string) : String.length (strlower s) = String.length s.
Proof. induction s as [|c s IH]; simpl; [reflexivity | now rewrite IH]. Qed.

Lemma strcaseeq_length (a b : string) :
  strcaseeq a b = true -> String.length a = String.length b.
Proof.
  unfold strcaseeq. intros H. apply String.eqb_eq in H.
  rewrite <- (length_strlower a), <- (length_strlower b). now rewrite H.
Qed.

(** Every name of the vocabulary is short, so the [len > 4095] clamp of
    the loop never cuts a known token. *)
Lemma known_event_short (t : string) :
  known_event t = true -> (0 < String.length t <= 13)%nat.
Proof.
  unfold known_event, onestr_to_event.
  destruct t as [|c t]; [discriminate |].
  destruct (Ascii.eqb (head_char (String c t)) NUL); [discriminate |].
  repeat match goal with
  | |- context [if strcaseeq ?a ?b then _ else _] =>
      let E := fresh "E" in
      destruct (strcaseeq a b) eqn:E;
      [ apply strcaseeq_length in E; rewrite E; simpl; intros _; lia |]
  end.
  discriminate.
Qed.

Lemma known_event_value (t : string) :
  known_event t = true ->
  (onestr_to_event (Some t) =? 0) || (onestr_to_event (Some t) =? -1) = false.
Proof. unfold known_event. now destruct (_ || _). Qed.

(** *** One iteration of the parsing loop *)

Lemma known_event_head (t : string) :
  known_event t = true -> Ascii.eqb (head_char t) NUL = false.
Proof.
  unfold known_event, onestr_to_event.
  destruct (Ascii.eqb (head_char t) NUL); [discriminate | reflexivity].
Qed.

Lemma clamp_short (n : nat) :
  (n <= 13)%nat ->
  Z.to_nat (if 4095 <? Z.of_nat n then 4095 else Z.of_nat n) = n.
Proof.
  intros H. destruct (4095 <? Z.of_nat n) eqn:E.
  - apply Z.ltb_lt in E. lia.
  - apply Nat2Z.id.
Qed.

(** A known token that ends the string: its value is accumulated and the
    loop stops at the next test. *)
Lemma loop_last_token (fuel : nat) (sep : ascii) (t : string) (acc : Z) :
  known_event t = true -> sep_free sep t ->
  str_to_event_loop (S (S fuel)) sep (Some t) (strchr t sep) acc
  = Some (Z.lor acc (onestr_to_event (Some t))).
Proof.
  intros Hk Hf. red in Hf. rewrite Hf.
  cbn [str_to_event_loop].
  rewrite (known_event_head _ Hk).
  unfold strlen. rewrite clamp_short by (apply known_event_short in Hk; lia).
  rewrite take_all, (known_event_value _ Hk). reflexivity.
Qed.

(** A known token followed by a separator: either the separator is the
    last character and the call returns 0, or the loop goes on after it. *)
Lemma loop_next_token (fuel : nat) (sep : ascii) (t rest : string) (acc : Z) :
  known_event t = true -> sep_free sep t ->
  str_to_event_loop (S fuel) sep (Some (t +:+ String sep rest))
                    (strchr (t +:+ String sep rest) sep) acc
  = if Ascii.eqb (head_char rest) NUL then Some 0
    else str_to_event_loop fuel sep (Some rest) (strchr rest sep)
                           (Z.lor acc (onestr_to_event (Some t))).
Proof.
  intros Hk Hf.
  assert (Hsep : Ascii.eqb sep NUL = false).
  { apply Ascii.eqb_neq. exact (strchr_None_not_NUL _ _ Hf). }
  rewrite strchr_append_free by (exact Hf || discriminate).
  rewrite strchr_head.
  cbn [str_to_event_loop].
  rewrite head_char_append by (intros ->; discriminate).
  rewrite (known_event_head _ Hk).
  unfold strlen. rewrite length_append.
  replace (Z.of_nat (String.length t + String.length (String sep rest))
           - Z.of_nat (String.length (String sep rest)))
    with (Z.of_nat (String.length t)) by lia.
  rewrite clamp_short by (apply known_event_short in Hk; lia).
  rewrite take_append, (known_event_value _ Hk).
  cbn [head_char tail]. rewrite Hsep. reflexivity.
Qed.

(** An empty token at the cursor: [onestr_to_event] answers 0 and the
    loop returns it. *)
Lemma loop_empty_token (fuel : nat) (sep : ascii) (rest : string) (acc : Z) :
  sep <> NUL ->
  str_to_event_loop (S fuel) sep (Some (String sep rest))
                    (strchr (String sep rest) sep) acc = Some 0.
Proof.
  intros Hsep. rewrite strchr_head. cbn [str_to_event_loop head_char].
  apply Ascii.eqb_neq in Hsep. rewrite Hsep.
  replace (strlen (String sep rest) - strlen (String sep rest)) with 0 by lia.
  reflexivity.
Qed.

Lemma append_assoc (a b c : string) : (a +:+ b) +:+ c = a +:+ (b +:+ c).
Proof. induction a as [|x a IH]; simpl; [reflexivity | now rewrite IH]. Qed.

(** Known tokens, each followed by a separator, and then an empty token
    (the end of the string or one more separator): the loop returns 0
    whatever it had accumulated. *)
Lemma loop_empty_after_known (sep : ascii) (pre : list string) :
  Forall (fun t => sep_free sep t /\ known_event t = true) pre ->
  sep <> NUL ->
  forall (rest : string) (fuel : nat) (acc : Z),
  rest = EmptyString \/ head_char rest = sep ->
  pre <> [] \/ rest <> EmptyString ->
  (List.length pre < fuel)%nat ->
  str_to_event_loop fuel sep (Some (join_sep sep pre +:+ rest))
                    (strchr (join_sep sep pre +:+ rest) sep) acc = Some 0.
Proof.
  intros Hpre Hsep rest.
  induction Hpre as [|t pre [Hf Hk] Hpre IH]; intros fuel acc Hrest Hne Hfuel;
    (destruct fuel as [|fuel]; [cbn in Hfuel; lia |]).
  - cbn [join_sep String.append].
    destruct rest as [|c rest]; [destruct Hne; congruence |].
    destruct Hrest as [Hrest|Hrest]; [discriminate |].
    cbn in Hrest. subst c. now apply loop_empty_token.
  - cbn [join_sep]. rewrite append_assoc. cbn [String.append].
    rewrite loop_next_token by assumption.
    destruct (Ascii.eqb (head_char (join_sep sep pre +:+ rest)) NUL) eqn:E;
      [reflexivity |].
    apply IH; [assumption | | cbn in Hfuel; lia].
    destruct pre; [right | left; discriminate].
    intros ->. cbn in E. discriminate.
Qed.

Lemma join_sep_length (sep : ascii) (pre : list string) :
  (List.length pre <= String.length (join_sep sep pre))%nat.
Proof.
  induction pre as [|t pre IH]; cbn [join_sep List.length]; [lia |].
  rewrite length_append. cbn [String.length]. lia.
Qed.

Lemma tokens_sep_free (sep : ascii) (s : string) :
  sep <> NUL -> Forall (sep_free sep) (tokens sep s).
Proof.
  intros Hsep. apply Ascii.eqb_neq in Hsep.
  assert (Hnil : sep_free sep EmptyString) by (unfold sep_free; simpl; now rewrite Hsep).
  induction s as [|c s IH]; simpl.
  - constructor; [exact Hnil | constructor].
  - destruct (Ascii.eqb c sep) eqn:E.
    + constructor; [exact Hnil | exact IH].
    + destruct (tokens sep s) as [|t ts].
      * constructor; [| constructor]. unfold sep_free. simpl. now rewrite E, Hsep.
      * inversion IH as [|? ? Ht Hts]; subst. constructor; [| exact Hts].
        unfold sep_free in *. simpl. now rewrite E.
Qed.

(** The text up to an empty token is the tokens before it, each with its
    separator; the empty token is followed by the end of the string or by
    one more separator. *)
Lemma tokens_empty_split (sep : ascii) (s : string) :
  forall pre post, tokens sep s = (pre ++ EmptyString :: post)%list ->
  exists rest, s = join_sep sep pre +:+ rest
               /\ (rest = EmptyString \/ head_char rest = sep).
Proof.
  induction s as [|c s IH]; intros pre post H; simpl in H.
  - destruct pre as [|p pre].
    + exists EmptyString. split; [reflexivity | now left].
    + destruct pre; discriminate.
  - destruct (Ascii.eqb c sep) eqn:E.
    + apply Ascii.eqb_eq in E. subst c.
      destruct pre as [|p pre].
      * exists (String sep s). split; [reflexivity | now right].
      * simpl in H. injection H as <- H.
        destruct (IH _ _ H) as (rest & -> & Hrest).
        exists rest. split; [reflexivity | exact Hrest].
    + destruct (tokens sep s) as [|t ts] eqn:Et.
      * destruct pre as [|p pre]; [discriminate |].
        destruct pre; discriminate.
      * destruct pre as [|p pre]; [discriminate |].
        simpl in H. injection H as <- H.
        destruct (IH (t :: pre) post) as (rest & -> & Hrest).
        { simpl. now rewrite H. }
        exists rest. split; [reflexivity | exact Hrest].
Qed.

(** ** EventCodec: theorems *)

(** C10: with a separator that is no letter or underscore, an empty token
    makes [inotifytools_str_to_event_sep] return 0 once the tokens before
    it are known event names: what they had accumulated is discarded.
    The trailing separator of ["MODIFY,"] is the case [post = []]. *)
Theorem str_to_event_sep_empty_token (sep : ascii) (event : string)
    (pre post : list string) :
  valid_sep sep ->
  tokens sep event = (pre ++ EmptyString :: post)%list ->
  Forall (fun t => known_event t = true) pre ->
  inotifytools_str_to_event_sep (Some event) sep = Some 0.
Proof.
  intros Hsep Htok Hpre.
  assert (Hnul : sep <> NUL) by exact (strchr_None_not_NUL _ _ Hsep).
  unfold inotifytools_str_to_event_sep. red in Hsep. rewrite Hsep.
  destruct (Ascii.eqb (head_char event) NUL) eqn:Ehd; [reflexivity |].
  destruct (tokens_empty_split _ _ _ _ Htok) as (rest & -> & Hrest).
  apply loop_empty_after_known; try assumption.
  - pose proof (tokens_sep_free sep (join_sep sep pre +:+ rest) Hnul) as Hfree.
    rewrite Htok in Hfree. apply Forall_app in Hfree as [Hfree _].
    rewrite Forall_forall in *. intros t Ht. split; [now apply Hfree | now apply Hpre].
  - destruct pre; [right | left; discriminate].
    intros ->. simpl in Ehd. discriminate.
  - rewrite length_append. pose proof (join_sep_length sep pre). lia.
Qed.

Lemma str_to_event_sep_empty_token_witness :
  inotifytools_str_to_event_sep (Some "MODIFY,") "," = Some 0.
Proof.
  apply (str_to_event_sep_empty_token "," "MODIFY," ["MODIFY"] []).
  - reflexivity.
  - reflexivity.
  - repeat constructor.
Defined.

Lemma append_nil_r (a : string) : a +:+ EmptyString = a.
Proof. induction a as [|c a IH]; simpl; [reflexivity | now rewrite IH]. Qed.

Lemma render_fold (events : Z) (sep : ascii) (table : list (Z * string)) :
  sep <> NUL ->
  forall ret,
  fold_left (fun ret '(flag, name) => cat_event events sep ret flag name) table ret
  = ret +:+ sep_words sep (map snd (selected events table)).
Proof.
  intros Hsep. apply Ascii.eqb_neq in Hsep.
  induction table as [|[f n] table IH]; intros ret; simpl.
  - now rewrite append_nil_r.
  - rewrite IH. unfold cat_event, chrtostr. rewrite Hsep.
    destruct (Z.land f events =? 0); simpl; [reflexivity |].
    now rewrite !append_assoc.
Qed.

Lemma tail_sep_words (sep : ascii) (ns : list string) :
  tail (sep_words sep ns) = unwords sep ns.
Proof.
  destruct ns as [|n ns]; [reflexivity |]. simpl.
  revert n. induction ns as [|m ns IH]; intros n.
  - simpl. now rewrite append_nil_r.
  - cbn [sep_words unwords]. cbn [sep_words] in IH. simpl. now rewrite <- IH.
Qed.

(** What [inotifytools_event_to_str_sep] returns when some test succeeds. *)
Lemma event_to_str_sep_selected (events : Z) (sep : ascii) :
  sep <> NUL -> selected events event_names <> [] ->
  inotifytools_event_to_str_sep events sep
  = unwords sep (map snd (selected events event_names)).
Proof.
  intros Hsep Hne. unfold inotifytools_event_to_str_sep.
  rewrite render_fold by assumption.
  set (l := selected events event_names) in *. clearbody l.
  destruct l as [|[f n] l]; [congruence |].
  cbn [map snd sep_words String.append head_char].
  apply Ascii.eqb_neq in Hsep. rewrite Hsep.
  change (String sep (n +:+ sep_words sep (map snd l)))
    with (sep_words sep (map snd ((f, n) :: l))).
  apply tail_sep_words.
Qed.

(** Parsing names written with one separator between them accumulates
    the values of all of them. *)
Lemma loop_unwords (sep : ascii) (ns : list string) :
  Forall (fun t => sep_free sep t /\ known_event t = true) ns ->
  ns <> [] ->
  forall (fuel : nat) (acc : Z),
  (List.length ns < fuel)%nat ->
  str_to_event_loop fuel sep (Some (unwords sep ns)) (strchr (unwords sep ns) sep) acc
  = Some (fold_left Z.lor (map (fun t => onestr_to_event (Some t)) ns) acc).
Proof.
  intros Hns. induction Hns as [|t ns [Hf Hk] Hns IH]; intros Hne fuel acc Hfuel;
    [congruence |].
  destruct ns as [|m ns].
  - cbn [unwords map fold_left].
    destruct fuel as [|[|fuel]]; [cbn in Hfuel; lia .. |].
    now apply loop_last_token.
  - destruct fuel as [|fuel]; [cbn in Hfuel; lia |].
    change (unwords sep (t :: m :: ns)) with (t +:+ String sep (unwords sep (m :: ns))).
    rewrite loop_next_token by assumption.
    assert (Hhd : Ascii.eqb (head_char (unwords sep (m :: ns))) NUL = false).
    { inversion Hns as [|? ? [_ Hkm] _]; subst.
      pose proof (known_event_head _ Hkm) as Hm.
      destruct ns; cbn [unwords]; [exact Hm |].
      rewrite head_char_append; [exact Hm |].
      intros ->. discriminate. }
    rewrite Hhd. rewrite IH; [reflexivity | discriminate | cbn in Hfuel |- *; lia].
Qed.

Lemma unwords_length (sep : ascii) (ns : list string) :
  Forall (fun t => known_event t = true) ns ->
  (List.length ns <= String.length (unwords sep ns))%nat.
Proof.
  induction 1 as [|t ns Hk Hns IH]; [simpl; lia |].
  apply known_event_short in Hk.
  destruct ns as [|m ns]; [simpl; lia |].
  change (unwords sep (t :: m :: ns)) with (t +:+ String sep (unwords sep (m :: ns))).
  rewrite length_append. cbn [String.length List.length] in *. lia.
Qed.

Lemma str_to_event_sep_unwords (sep : ascii) (ns : list string) :
  valid_sep sep ->
  Forall (fun t => sep_free sep t /\ known_event t = true) ns ->
  ns <> [] ->
  inotifytools_str_to_event_sep (Some (unwords sep ns)) sep
  = Some (fold_left Z.lor (map (fun t => onestr_to_event (Some t)) ns) 0).
Proof.
  intros Hsep Hns Hne.
  unfold inotifytools_str_to_event_sep. red in Hsep. rewrite Hsep.
  assert (Hk : Forall (fun t => known_event t = true) ns).
  { clear -Hns. induction Hns as [|t l [_ H] _ IH]; constructor; assumption. }
  assert (Hhd : Ascii.eqb (head_char (unwords sep ns)) NUL = false).
  { destruct ns as [|t ns]; [congruence |].
    inversion Hk as [|? ? Hkt _]; subst.
    pose proof (known_event_head _ Hkt) as Ht.
    destruct ns; cbn [unwords]; [exact Ht |].
    rewrite head_char_append; [exact Ht | intros ->; discriminate]. }
  rewrite Hhd. apply loop_unwords; try assumption.
  pose proof (unwords_length sep ns Hk). lia.
Qed.

Lemma land_pow2 (k m : Z) :
  0 <= k -> Z.land (2 ^ k) m = if Z.testbit m k then 2 ^ k else 0.
Proof.
  intros Hk. apply Z.bits_inj'. intros n Hn.
  rewrite Z.land_spec, Z.pow2_bits_eqb by assumption.
  destruct (Z.eqb_spec k n) as [->|Hne].
  - destruct (Z.testbit m n);
      [now rewrite Z.pow2_bits_eqb, Z.eqb_refl | now rewrite Z.bits_0].
  - simpl. destruct (Z.testbit m k); [| now rewrite Z.bits_0].
    rewrite Z.pow2_bits_eqb by assumption. symmetry. now apply Z.eqb_neq.
Qed.

(** From bit 31 upwards an [int] repeats its sign. *)
Lemma int_high_bits (m n : Z) :
  int_range m -> 31 <= n -> Z.testbit m n = (m <? 0).
Proof.
  intros [Hlo Hhi] Hn. destruct (Z.ltb_spec m 0) as [Hneg|Hpos].
  - apply Z.bits_above_log2_neg; [assumption |].
    destruct (Z.eq_dec (Z.pred (- m)) 0) as [->|Hnz]; [simpl; lia |].
    apply Z.lt_le_trans with 31; [| assumption].
    apply Z.log2_lt_pow2; lia.
  - destruct (Z.eq_dec m 0) as [->|Hnz]; [apply Z.bits_0 |].
    apply Z.bits_above_log2; [assumption |].
    apply Z.lt_le_trans with 31; [| assumption].
    apply Z.log2_lt_pow2; lia.
Qed.

Lemma int_min_bits (n : Z) : 0 <= n -> Z.testbit (- 2 ^ 31) n = (31 <=? n).
Proof.
  intros Hn. change (- 2 ^ 31) with (Z.lnot (Z.ones 31)).
  rewrite Z.lnot_spec, Z.testbit_ones by lia.
  destruct (Z.leb_spec 0 n), (Z.ltb_spec n 31), (Z.leb_spec 31 n); simpl; lia.
Qed.

Lemma land_int_min (m : Z) :
  int_range m -> Z.land (- 2 ^ 31) m = if m <? 0 then - 2 ^ 31 else 0.
Proof.
  intros Hm. apply Z.bits_inj'. intros n Hn.
  rewrite Z.land_spec, int_min_bits by assumption.
  destruct (Z.leb_spec 31 n) as [H31|H31].
  - rewrite (int_high_bits m n Hm H31).
    destruct (m <? 0); [rewrite int_min_bits by assumption | rewrite Z.bits_0].
    + simpl. symmetry. now apply Z.leb_le.
    + reflexivity.
  - simpl. destruct (m <? 0); [rewrite int_min_bits by assumption | now rewrite Z.bits_0].
    symmetry. apply Z.leb_gt. lia.
Qed.

Lemma unit_for_pow2 (mask k : Z) : 0 <= k -> unit_for mask (2 ^ k) (2 ^ k).
Proof.
  intros Hk. split; [reflexivity |].
  rewrite land_pow2 by assumption. destruct (Z.testbit mask k); auto.
Qed.

Lemma unit_for_oneshot (mask : Z) :
  int_range mask -> unit_for mask (2 ^ 31) (- 2 ^ 31).
Proof.
  intros Hm. unfold unit_for.
  rewrite land_pow2 by lia. rewrite land_int_min by assumption.
  rewrite (int_high_bits mask 31 Hm) by lia.
  destruct (mask <? 0); split; auto.
Qed.

Lemma fold_left_lor_acc (l : list Z) (acc : Z) :
  fold_left Z.lor l acc = Z.lor acc (fold_left Z.lor l 0).
Proof.
  revert acc. induction l as [|x l IH]; intros acc; cbn [fold_left].
  - now rewrite Z.lor_0_r.
  - rewrite (IH (Z.lor acc x)), (IH (Z.lor 0 x)), Z.lor_0_l. now rewrite Z.lor_assoc.
Qed.

(** Over entries that are units, the values of the selected entries add
    up to the part of [mask] that the entries cover. *)
Lemma selected_units (mask : Z) (table : list (Z * string)) :
  Forall (fun e => unit_for mask (fst e) (entry_value e)) table ->
  fold_left Z.lor (map entry_value (selected mask table)) 0
  = Z.land (fold_left Z.lor (map entry_value table) 0) mask.
Proof.
  induction 1 as [|e table [Htest Hunit] _ IH]; [reflexivity |].
  cbn [selected List.filter map fold_left]. fold (selected mask table).
  rewrite (fold_left_lor_acc (map entry_value table)), Z.land_lor_distr_l, <- IH.
  rewrite Htest, Z.lor_0_l.
  destruct Hunit as [Hu|Hu]; rewrite Hu.
  - rewrite Z.eqb_refl. simpl negb. cbv iota. now rewrite Z.lor_0_l.
  - destruct (Z.eqb_spec (entry_value e) 0) as [Hz|Hz]; simpl negb; cbv iota.
    + now rewrite Hz, Z.lor_0_l.
    + cbn [map fold_left]. now rewrite fold_left_lor_acc, Z.lor_0_l.
Qed.

Lemma primitive_mask_covered (mask : Z) :
  primitive_mask mask -> Z.land (to_int32 PRIMITIVE_BITS) mask = mask.
Proof.
  intros (Hr & _ & Hsub). apply Z.bits_inj'. intros n Hn.
  rewrite Z.land_spec.
  destruct (Z.testbit mask n) eqn:Hbit; [| apply andb_false_r].
  rewrite andb_true_r.
  destruct (Z.leb_spec 31 n) as [H31|H31].
  - rewrite int_high_bits; [reflexivity | | assumption].
    unfold int_range. now vm_compute.
  - assert (HP : to_int32 PRIMITIVE_BITS mod 2 ^ 32 = PRIMITIVE_BITS) by reflexivity.
    rewrite <- (Z.mod_pow2_bits_low (to_int32 PRIMITIVE_BITS) 32 n) by lia.
    rewrite HP.
    apply (f_equal (fun z => Z.testbit z n)) in Hsub.
    rewrite Z.land_spec in Hsub. unfold to_uint32 in Hsub.
    rewrite Z.mod_pow2_bits_low, Hbit in Hsub by lia.
    exact Hsub.
Qed.

Lemma event_names_split :
  event_names = (names_low ++ [(IN_CLOSE, "CLOSE")] ++ names_high)%list.
Proof. reflexivity. Qed.

Lemma names_low_units (mask : Z) :
  Forall (fun e => unit_for mask (fst e) (entry_value e)) names_low.
Proof.
  unfold names_low, event_names. cbn [firstn].
  repeat (apply List.Forall_cons;
    [ match goal with
      | |- unit_for _ (fst (?f, _)) _ =>
          let k := eval vm_compute in (Z.log2 f) in
          exact (unit_for_pow2 mask k ltac:(lia))
      end | ]).
  apply List.Forall_nil.
Qed.

Lemma names_high_units (mask : Z) :
  int_range mask ->
  Forall (fun e => unit_for mask (fst e) (entry_value e)) names_high.
Proof.
  intros Hm. unfold names_high, event_names. cbn [skipn].
  apply List.Forall_cons; [exact (unit_for_pow2 mask 11 ltac:(lia)) |].
  apply List.Forall_cons; [exact (unit_for_pow2 mask 30 ltac:(lia)) |].
  apply List.Forall_cons; [exact (unit_for_oneshot mask Hm) |].
  apply List.Forall_nil.
Qed.

(** The value the parser accumulates from the names the renderer wrote. *)
Lemma selected_value (mask : Z) :
  primitive_mask mask ->
  fold_left Z.lor (map entry_value (selected mask event_names)) 0
  = if Z.land IN_CLOSE mask =? 0 then mask else Z.lor mask IN_CLOSE.
Proof.
  intros Hm. pose proof (primitive_mask_covered mask Hm) as Hcov.
  destruct Hm as (Hr & _ & _).
  rewrite event_names_split. unfold selected.
  rewrite !List.filter_app, !map_app, !fold_left_app.
  fold (selected mask names_low) (selected mask names_high).
  rewrite fold_left_lor_acc, (selected_units mask names_high) by now apply names_high_units.
  rewrite (fold_left_lor_acc (map entry_value (List.filter _ [_]))).
  rewrite (selected_units mask names_low) by apply names_low_units.
  cbn [List.filter fst].
  assert (Hsplit : Z.lor (fold_left Z.lor (map entry_value names_low) 0)
                         (fold_left Z.lor (map entry_value names_high) 0)
                   = to_int32 PRIMITIVE_BITS) by reflexivity.
  set (lo := fold_left Z.lor (map entry_value names_low) 0) in *.
  set (hi := fold_left Z.lor (map entry_value names_high) 0) in *.
  assert (Hmask : Z.lor (Z.land lo mask) (Z.land hi mask) = mask).
  { now rewrite <- Z.land_lor_distr_l, Hsplit. }
  destruct (Z.land IN_CLOSE mask =? 0); cbn [negb map fold_left].
  - rewrite Z.lor_0_r. exact Hmask.
  - change (entry_value (IN_CLOSE, "CLOSE")) with IN_CLOSE.
    rewrite Z.lor_0_l, <- Z.lor_assoc, (Z.lor_comm IN_CLOSE), Z.lor_assoc.
    now rewrite Hmask.
Qed.

Lemma selected_incl (mask : Z) (table : list (Z * string)) (P : Z * string -> Prop) :
  Forall P table -> Forall P (selected mask table).
Proof.
  induction 1 as [|e l He _ IH]; cbn [selected List.filter]; [constructor |].
  destruct (negb _); [constructor |]; assumption.
Qed.

Lemma event_names_known :
  Forall (fun e => (sep_free "," (snd e) /\ known_event (snd e) = true)
                   /\ onestr_to_event (Some (snd e)) = entry_value e) event_names.
Proof. repeat constructor. Qed.

(** Rendering a set of primitive kinds with [','] and parsing the text
    gives the set back, with [IN_CLOSE] added as soon as one of its two
    bits is there. *)
Lemma render_parse (mask : Z) :
  primitive_mask mask ->
  inotifytools_str_to_event_sep (Some (inotifytools_event_to_str_sep mask ",")) ","
  = Some (if Z.land IN_CLOSE mask =? 0 then mask else Z.lor mask IN_CLOSE).
Proof.
  intros Hm. pose proof (selected_value mask Hm) as Hval.
  pose proof (selected_incl mask _ _ event_names_known) as Hknown.
  assert (Hne : selected mask event_names <> []).
  { intros Hnil. rewrite Hnil in Hval. cbn [map fold_left] in Hval.
    destruct Hm as (_ & Hnz & _).
    destruct (Z.land IN_CLOSE mask =? 0); [congruence |].
    symmetry in Hval. apply Z.lor_eq_0_iff in Hval. tauto. }
  rewrite event_to_str_sep_selected by (assumption || discriminate).
  rewrite str_to_event_sep_unwords.
  - f_equal. rewrite <- Hval. f_equal.
    rewrite map_map. clear -Hknown.
    induction Hknown as [|e l [_ He] _ IH]; [reflexivity |].
    cbn [map]. now rewrite He, IH.
  - reflexivity.
  - clear -Hknown. induction Hknown as [|e l [He _] _ IH]; constructor; assumption.
  - destruct (selected mask event_names); [congruence | discriminate].
Qed.

Lemma lor_absorb (m c : Z) : Z.land c m = c -> Z.lor m c = m.
Proof.
  intros H. apply Z.bits_inj'. intros n _.
  apply (f_equal (fun z => Z.testbit z n)) in H.
  rewrite Z.land_spec in H. rewrite Z.lor_spec.
  destruct (Z.testbit m n), (Z.testbit c n); simpl in *; congruence.
Qed.

(** C9, as the code has it: for every mask that is a non-empty set of
    primitive kinds, parsing the comma-separated rendering gives the mask
    with [IN_CLOSE] added when the mask holds [IN_CLOSE_WRITE] or
    [IN_CLOSE_NOWRITE] (the renderer writes ["CLOSE"] after either of
    them); the round trip is the identity when the mask holds both of the
    two bits or neither. *)
Theorem event_codec_roundtrip (mask : Z) :
  primitive_mask mask ->
  inotifytools_str_to_event_sep (Some (inotifytools_event_to_str_sep mask ",")) ","
  = Some (if Z.land IN_CLOSE mask =? 0 then mask else Z.lor mask IN_CLOSE)
  /\ (Z.land IN_CLOSE mask = 0 \/ Z.land IN_CLOSE mask = IN_CLOSE ->
      inotifytools_str_to_event_sep
        (Some (inotifytools_event_to_str_sep mask ",")) "," = Some mask).
Proof.
  intros Hm. pose proof (render_parse mask Hm) as H. split; [exact H |].
  intros [Hc|Hc]; rewrite H.
  - now rewrite Hc.
  - destruct (Z.land IN_CLOSE mask =? 0); [reflexivity |].
    now rewrite lor_absorb.
Qed.

Lemma event_codec_roundtrip_witness :
  primitive_mask (Z.lor IN_CREATE IN_ISDIR)
  /\ inotifytools_str_to_event_sep
       (Some (inotifytools_event_to_str_sep (Z.lor IN_CREATE IN_ISDIR) ",")) ","
     = Some (Z.lor IN_CREATE IN_ISDIR).
Proof.
  assert (Hm : primitive_mask (Z.lor IN_CREATE IN_ISDIR)).
  { unfold primitive_mask, int_range. repeat split; (discriminate || reflexivity). }
  split; [exact Hm |].
  apply (proj2 (event_codec_roundtrip (Z.lor IN_CREATE IN_ISDIR) Hm)).
  left. reflexivity.
Defined.

(** C9 as stated fails: [IN_CLOSE_WRITE] alone is rendered as
    ["CLOSE_WRITE,CLOSE"], which parses to both close bits. *)
Lemma event_codec_roundtrip_counterexample :
  ~ (forall mask, primitive_mask mask ->
       inotifytools_str_to_event_sep
         (Some (inotifytools_event_to_str_sep mask ",")) "," = Some mask).
Proof.
  intros H. specialize (H IN_CLOSE_WRITE).
  assert (Hm : primitive_mask IN_CLOSE_WRITE).
  { unfold primitive_mask, int_range. repeat split; (discriminate || reflexivity). }
  specialize (H Hm). vm_compute in H. discriminate.
Qed.

(** ** Ordered indices: search-tree facts *)

Section Bst.
Context {K : Type} (key : ptr -> K) (lt : K -> K -> Prop).
Hypothesis lt_irrefl : forall a, ~ lt a a.
Hypothesis lt_trans : forall a b c, lt a b -> lt b c -> lt a c.

Lemma cmp_ok_node (s : K) (cmp : ptr -> option Z) (l r : rbtree) (k : ptr) :
  cmp_ok key lt s cmp (RBNODE l k r) ->
  cmp_ok key lt s cmp l /\ cmp_ok key lt s cmp r
  /\ exists z, cmp k = Some z /\ (z = 0 -> key k = s)
               /\ (z < 0 -> lt s (key k)) /\ (0 < z -> lt (key k) s).
Proof.
  intros H. repeat split.
  - intros p Hp. apply H. simpl. apply elem_of_app. now left.
  - intros p Hp. apply H. simpl. apply elem_of_app. right. now apply elem_of_cons; right.
  - apply H. simpl. apply elem_of_app. right. now apply elem_of_cons; left.
Qed.

Ltac sign z :=
  let Hs := fresh "Hs" in
  destruct (Z.eqb_spec z 0) as [Hs|Hs];
  [| let Hs' := fresh "Hs" in destruct (Z.ltb_spec z 0) as [Hs'|Hs']].

Lemma rbfind_elem (cmp : ptr -> option Z) (t : rbtree) (p : ptr) :
  rbfind cmp t = Some (Some p) -> p ∈ elements t /\ cmp p = Some 0.
Proof.
  induction t as [|l IHl k r IHr]; simpl; [discriminate |].
  destruct (cmp k) as [z|] eqn:Ez; simpl; [| discriminate].
  sign z; intros H.
  - injection H as <-. subst z. split; [| assumption].
    apply elem_of_app. right. now apply elem_of_cons; left.
  - destruct (IHl H) as [Hin Hc]. split; [| assumption].
    apply elem_of_app. now left.
  - destruct (IHr H) as [Hin Hc]. split; [| assumption].
    apply elem_of_app. right. now apply elem_of_cons; right.
Qed.

Lemma rbfind_present (s : K) (cmp : ptr -> option Z) (t : rbtree) (p : ptr) :
  bst key lt t -> cmp_ok key lt s cmp t -> p ∈ elements t -> key p = s ->
  rbfind cmp t = Some (Some p).
Proof.
  induction t as [|l IHl k r IHr]; simpl; intros Hb Hc Hin Hk.
  - now apply elem_of_nil in Hin.
  - destruct Hb as (Hbl & Hbr & Hlt & Hgt).
    destruct (cmp_ok_node _ _ _ _ _ Hc) as (Hcl & Hcr & z & Ez & H0 & Hneg & Hpos).
    rewrite Ez. simpl.
    apply elem_of_app in Hin as [Hin|Hin]; [| apply elem_of_cons in Hin as [->|Hin]].
    + specialize (Hlt _ Hin). rewrite Hk in Hlt. sign z.
      * rewrite H0 in Hlt by assumption. now apply lt_irrefl in Hlt.
      * now apply IHl.
      * exfalso. apply (lt_irrefl s). apply lt_trans with (key k); [assumption |].
        apply Hpos. lia.
    + sign z; [reflexivity | |].
      * exfalso. apply (lt_irrefl s). rewrite <- Hk at 2. now apply Hneg.
      * exfalso. apply (lt_irrefl s). rewrite <- Hk at 1. apply Hpos. lia.
    + specialize (Hgt _ Hin). rewrite Hk in Hgt. sign z.
      * rewrite H0 in Hgt by assumption. now apply lt_irrefl in Hgt.
      * exfalso. apply (lt_irrefl s). apply lt_trans with (key k); [| assumption].
        now apply Hneg.
      * now apply IHr.
Qed.

Lemma rbfind_absent (s : K) (cmp : ptr -> option Z) (t : rbtree) :
  cmp_ok key lt s cmp t -> (forall p, p ∈ elements t -> key p <> s) ->
  rbfind cmp t = Some None.
Proof.
  induction t as [|l IHl k r IHr]; simpl; intros Hc Hno; [reflexivity |].
  destruct (cmp_ok_node _ _ _ _ _ Hc) as (Hcl & Hcr & z & Ez & H0 & _).
  rewrite Ez. simpl. sign z.
  - exfalso. apply (Hno k); [| now apply H0].
    apply elem_of_app. right. now apply elem_of_cons; left.
  - apply IHl; [assumption |]. intros p Hp. apply Hno. apply elem_of_app. now left.
  - apply IHr; [assumption |]. intros p Hp. apply Hno.
    apply elem_of_app. right. now apply elem_of_cons; right.
Qed.

(** Find-or-insert meets an equal key: nothing is inserted. *)
Lemma rbsearch_present (s : K) (cmp : ptr -> option Z) (w : ptr) (t : rbtree) (p : ptr) :
  bst key lt t -> cmp_ok key lt s cmp t -> p ∈ elements t -> key p = s ->
  rbsearch cmp w t = Some t.
Proof.
  induction t as [|l IHl k r IHr]; simpl; intros Hb Hc Hin Hk.
  - now apply elem_of_nil in Hin.
  - destruct Hb as (Hbl & Hbr & Hlt & Hgt).
    destruct (cmp_ok_node _ _ _ _ _ Hc) as (Hcl & Hcr & z & Ez & H0 & Hneg & Hpos).
    rewrite Ez. simpl.
    apply elem_of_app in Hin as [Hin|Hin]; [| apply elem_of_cons in Hin as [->|Hin]].
    + specialize (Hlt _ Hin). rewrite Hk in Hlt. sign z.
      * reflexivity.
      * now rewrite IHl.
      * exfalso. apply (lt_irrefl s). apply lt_trans with (key k); [assumption |].
        apply Hpos. lia.
    + sign z; [reflexivity | |].
      * exfalso. apply (lt_irrefl s). rewrite <- Hk at 2. now apply Hneg.
      * exfalso. apply (lt_irrefl s). rewrite <- Hk at 1. apply Hpos. lia.
    + specialize (Hgt _ Hin). rewrite Hk in Hgt. sign z.
      * reflexivity.
      * exfalso. apply (lt_irrefl s). apply lt_trans with (key k); [| assumption].
        now apply Hneg.
      * now rewrite IHr.
Qed.

(** Find-or-insert of a key that is not there: the new address is added
    and the ordering invariant is kept. *)
Lemma rbsearch_absent (cmp : ptr -> option Z) (w : ptr) (t : rbtree) :
  bst key lt t -> cmp_ok key lt (key w) cmp t ->
  (forall p, p ∈ elements t -> key p <> key w) ->
  exists t', rbsearch cmp w t = Some t' /\ bst key lt t'
             /\ forall q, q ∈ elements t' <-> q = w \/ q ∈ elements t.
Proof.
  induction t as [|l IHl k r IHr]; simpl; intros Hb Hc Hno.
  - exists (RBNODE RBNULL w RBNULL). split; [reflexivity |]. split.
    + simpl. repeat split; intros q Hq; now apply elem_of_nil in Hq.
    + intros q. simpl. rewrite elem_of_cons. tauto.
  - destruct Hb as (Hbl & Hbr & Hlt & Hgt).
    destruct (cmp_ok_node _ _ _ _ _ Hc) as (Hcl & Hcr & z & Ez & H0 & Hneg & Hpos).
    rewrite Ez. simpl. sign z.
    + exfalso. apply (Hno k); [| now apply H0].
      apply elem_of_app. right. now apply elem_of_cons; left.
    + destruct IHl as (l' & El & Hbl' & Hel); [assumption .. | |].
      { intros p Hp. apply Hno. apply elem_of_app. now left. }
      rewrite El. simpl. exists (RBNODE l' k r). split; [reflexivity |]. split.
      * simpl. repeat split; try assumption.
        intros q Hq. apply Hel in Hq as [->|Hq]; [now apply Hneg | now apply Hlt].
      * intros q. simpl. rewrite !elem_of_app, Hel. tauto.
    + destruct IHr as (r' & Er & Hbr' & Her); [assumption .. | |].
      { intros p Hp. apply Hno. apply elem_of_app. right. now apply elem_of_cons; right. }
      rewrite Er. simpl. exists (RBNODE l k r'). split; [reflexivity |]. split.
      * simpl. repeat split; try assumption.
        intros q Hq. apply Her in Hq as [->|Hq]; [apply Hpos; lia | now apply Hgt].
      * intros q. simpl. rewrite !elem_of_app, !elem_of_cons, Her. tauto.
Qed.

Lemma rb_extract_min_spec (l : rbtree) (k : ptr) (r : rbtree) (m : ptr) (t' : rbtree) :
  rb_extract_min l k r = (m, t') -> bst key lt (RBNODE l k r) ->
  elements (RBNODE l k r) = m :: elements t'
  /\ bst key lt t' /\ forall q, q ∈ elements t' -> lt (key m) (key q).
Proof.
  revert k r m t'. induction l as [|ll IHll lk lr _]; intros k r m t' E Hb.
  - simpl in E. injection E as <- <-. simpl in *. tauto.
  - simpl in E. destruct (rb_extract_min ll lk lr) as [m' l'] eqn:E'.
    injection E as <- <-.
    destruct Hb as (Hbl & Hbr & Hlt & Hgt).
    destruct (IHll _ _ _ _ E' Hbl) as (Hel & Hbl' & Hmin).
    change (elements (RBNODE (RBNODE ll lk lr) k r))
      with (elements (RBNODE ll lk lr) ++ k :: elements r)%list.
    rewrite Hel. split; [reflexivity |]. split.
    + simpl. repeat split; try assumption.
      intros q Hq. apply Hlt. rewrite Hel. now apply elem_of_cons; right.
    + intros q Hq. simpl in Hq.
      assert (Hmk : lt (key m') (key k)).
      { apply Hlt. rewrite Hel. now apply elem_of_cons; left. }
      apply elem_of_app in Hq as [Hq|Hq]; [now apply Hmin |].
      apply elem_of_cons in Hq as [->|Hq]; [assumption |].
      apply lt_trans with (key k); [assumption | now apply Hgt].
Qed.

Lemma rb_unlink_spec (l r : rbtree) (k : ptr) :
  bst key lt (RBNODE l k r) ->
  bst key lt (rb_unlink l r)
  /\ forall q, q ∈ elements (rb_unlink l r) <-> q ∈ elements l \/ q ∈ elements r.
Proof.
  intros Hb. pose proof Hb as (Hbl & Hbr & Hlt & Hgt).
  destruct l as [|ll lk lr].
  - simpl. split; [assumption |]. intros q. rewrite elem_of_nil. tauto.
  - destruct r as [|rl rk rr].
    + simpl rb_unlink. split; [assumption |]. intros q.
      simpl (elements RBNULL). rewrite elem_of_nil. tauto.
    + unfold rb_unlink. destruct (rb_extract_min rl rk rr) as [m r'] eqn:E.
      destruct (rb_extract_min_spec _ _ _ _ _ E Hbr) as (Hel & Hbr' & Hmin).
      split.
      * simpl. repeat split; try apply Hbl; try assumption.
        -- intros q Hq. apply lt_trans with (key k); [now apply Hlt |].
           apply Hgt. rewrite Hel. now apply elem_of_cons; left.
      * intros q. change (elements (RBNODE (RBNODE ll lk lr) m r'))
          with (elements (RBNODE ll lk lr) ++ m :: elements r')%list.
        rewrite elem_of_app, Hel. tauto.
Qed.

(** Deletion erases exactly the node whose key equals the searched key
    and keeps the ordering invariant. *)
Lemma rbdelete_spec (s : K) (cmp : ptr -> option Z) (t : rbtree) :
  bst key lt t -> cmp_ok key lt s cmp t ->
  exists t', rbdelete cmp t = Some t' /\ bst key lt t'
             /\ forall q, q ∈ elements t' <-> q ∈ elements t /\ key q <> s.
Proof.
  induction t as [|l IHl k r IHr]; simpl; intros Hb Hc.
  - exists RBNULL. split; [reflexivity |]. split; [exact I |].
    intros q. simpl. rewrite elem_of_nil. tauto.
  - pose proof Hb as (Hbl & Hbr & Hlt & Hgt).
    destruct (cmp_ok_node _ _ _ _ _ Hc) as (Hcl & Hcr & z & Ez & H0 & Hneg & Hpos).
    assert (Hl : z < 0 -> forall q, q ∈ elements r -> key q <> s).
    { intros Hz q Hq E. apply (lt_irrefl s). rewrite <- E at 2.
      apply lt_trans with (key k); [now apply Hneg | now apply Hgt]. }
    assert (Hr : 0 < z -> forall q, q ∈ elements l -> key q <> s).
    { intros Hz q Hq E. apply (lt_irrefl s). rewrite <- E at 1.
      apply lt_trans with (key k); [now apply Hlt | now apply Hpos]. }
    rewrite Ez. simpl. sign z.
    + destruct (rb_unlink_spec l r k Hb) as (Hbu & Heu).
      exists (rb_unlink l r). split; [reflexivity |]. split; [assumption |].
      intros q. rewrite Heu, elem_of_app, elem_of_cons.
      specialize (H0 ltac:(assumption)). split.
      * intros [Hq|Hq]; (split; [tauto |]); intros E.
        -- apply (lt_irrefl s). rewrite <- E at 1. rewrite <- H0. now apply Hlt.
        -- apply (lt_irrefl s). rewrite <- E at 2. rewrite <- H0. now apply Hgt.
      * intros [[Hq|[->|Hq]] Hne]; tauto.
    + destruct (IHl Hbl Hcl) as (l' & El & Hbl' & Hel).
      rewrite El. simpl. exists (RBNODE l' k r). split; [reflexivity |]. split.
      * simpl. repeat split; try assumption.
        intros q Hq. apply Hlt. now apply Hel in Hq.
      * intros q. simpl. rewrite !elem_of_app, !elem_of_cons, Hel. split.
        -- intros [[Hq Hne]|[->|Hq]].
           ++ tauto.
           ++ split; [tauto |]. intros E. apply (lt_irrefl s).
              rewrite <- E at 2. now apply Hneg.
           ++ split; [tauto |]. now apply Hl.
        -- tauto.
    + destruct (IHr Hbr Hcr) as (r' & Er & Hbr' & Her).
      rewrite Er. simpl. exists (RBNODE l k r'). split; [reflexivity |]. split.
      * simpl. repeat split; try assumption.
        intros q Hq. apply Hgt. now apply Her in Hq.
      * intros q. simpl. rewrite !elem_of_app, !elem_of_cons, Her. split.
        -- intros [Hq|[->|[Hq Hne]]].
           ++ split; [tauto |]. apply Hr; [lia | assumption].
           ++ split; [tauto |]. intros E. apply (lt_irrefl s).
              rewrite <- E at 1. apply Hpos. lia.
           ++ tauto.
        -- tauto.
Qed.
(** Keys are unique in an ordered index. *)
Lemma bst_key_inj (t : rbtree) (p q : ptr) :
  bst key lt t -> p ∈ elements t -> q ∈ elements t -> key p = key q -> p = q.
Proof.
  induction t as [|l IHl k r IHr]; simpl; intros Hb Hp Hq E.
  - now apply elem_of_nil in Hp.
  - destruct Hb as (Hbl & Hbr & Hlt & Hgt).
    assert (Hlr : forall a b, a ∈ elements l -> b ∈ elements r -> key a <> key b).
    { intros a b Ha Hb' Eab. apply (lt_irrefl (key a)).
      apply lt_trans with (key k); [now apply Hlt |].
      rewrite Eab. now apply Hgt. }
    assert (Hlk : forall a, a ∈ elements l -> key a <> key k).
    { intros a Ha Eak. apply (lt_irrefl (key k)). rewrite <- Eak at 1. now apply Hlt. }
    assert (Hrk : forall a, a ∈ elements r -> key a <> key k).
    { intros a Ha Eak. apply (lt_irrefl (key k)). rewrite <- Eak at 2. now apply Hgt. }
    apply elem_of_app in Hp as [Hp|Hp]; [| apply elem_of_cons in Hp as [->|Hp]];
      (apply elem_of_app in Hq as [Hq|Hq]; [| apply elem_of_cons in Hq as [->|Hq]]);
      try reflexivity; try (now apply IHl); try (now apply IHr); exfalso.
    + now apply (Hlk p).
    + now apply (Hlr p q).
    + now apply (Hlk q).
    + now apply (Hrk q).
    + now apply (Hlr q p).
    + now apply (Hrk p).
Qed.

(** A comparator that never answers 0 finds nothing. *)
Lemma rbfind_nonzero (cmp : ptr -> option Z) (t : rbtree) :
  (forall p, p ∈ elements t -> exists z, cmp p = Some z /\ z <> 0) ->
  rbfind cmp t = Some None.
Proof.
  induction t as [|l IHl k r IHr]; simpl; intros H; [reflexivity |].
  destruct (H k) as (z & Ez & Hz).
  { apply elem_of_app. right. now apply elem_of_cons; left. }
  rewrite Ez. simpl. sign z; [congruence | |].
  - apply IHl. intros p Hp. apply H. apply elem_of_app. now left.
  - apply IHr. intros p Hp. apply H. apply elem_of_app. right. now apply elem_of_cons; right.
Qed.
End Bst.

(** The ordering invariant only reads the keys of the nodes. *)
Lemma bst_ext {K : Type} (key key' : ptr -> K) (lt : K -> K -> Prop) (t : rbtree) :
  (forall p, p ∈ elements t -> key p = key' p) -> bst key lt t -> bst key' lt t.
Proof.
  induction t as [|l IHl k r IHr]; simpl; [trivial |].
  intros Hext (Hbl & Hbr & Hlt & Hgt).
  assert (Hk : key k = key' k).
  { apply Hext. apply elem_of_app. right. now apply elem_of_cons; left. }
  assert (Hel : forall p, p ∈ elements l -> key p = key' p).
  { intros p Hp. apply Hext. apply elem_of_app. now left. }
  assert (Her : forall p, p ∈ elements r -> key p = key' p).
  { intros p Hp. apply Hext. apply elem_of_app. right. now apply elem_of_cons; right. }
  repeat split; auto.
  - intros q Hq. rewrite <- Hk, <- (Hel q Hq). now apply Hlt.
  - intros q Hq. rewrite <- Hk, <- (Her q Hq). now apply Hgt.
Qed.

(** ** The registry invariant *)

Lemma ascii_compare_refl (a : ascii) : Ascii.compare a a = Eq.
Proof. unfold Ascii.compare. apply N.compare_refl. Qed.

Lemma str_compare_refl (a : string) : String.compare a a = Eq.
Proof.
  induction a as [|c a IH]; simpl; [reflexivity |].
  now rewrite ascii_compare_refl.
Qed.

Lemma str_lt_irrefl (a : string) : ~ str_lt a a.
Proof. unfold str_lt. now rewrite str_compare_refl. Qed.

Lemma str_lt_trans (a b c : string) : str_lt a b -> str_lt b c -> str_lt a c.
Proof.
  unfold str_lt. revert b c.
  induction a as [|x a IH]; intros [|y b] [|z c]; simpl; try congruence.
  destruct (Ascii.compare x y) eqn:Exy; try discriminate;
    destruct (Ascii.compare y z) eqn:Eyz; try discriminate.
  - apply Ascii.compare_eq_iff in Exy, Eyz. subst.
    rewrite ascii_compare_refl. apply IH.
  - apply Ascii.compare_eq_iff in Exy. subst. now rewrite Eyz.
  - apply Ascii.compare_eq_iff in Eyz. subst. now rewrite Exy.
  - unfold Ascii.compare in *. rewrite N.compare_lt_iff in *.
    assert (H : (N_of_ascii x < N_of_ascii z)%N) by lia.
    apply N.compare_lt_iff in H. now rewrite H.
Qed.

Lemma strcmp_sign (a b : string) :
  (strcmp a b = 0 -> b = a)
  /\ (strcmp a b < 0 -> str_lt a b)
  /\ (0 < strcmp a b -> str_lt b a).
Proof.
  unfold strcmp, str_lt. rewrite (String.compare_antisym a b).
  destruct (String.compare b a) eqn:E; simpl;
    repeat split; intros H; try lia; try reflexivity; try assumption.
  now apply String.compare_eq_iff.
Qed.

Lemma to_int32_id (z : Z) : int_range z -> to_int32 z = z.
Proof.
  unfold int_range, to_int32. intros H.
  rewrite Z.mod_small by lia. lia.
Qed.

Lemma cmp_wd_ok (h : gmap ptr watch) (k : watch) (t : rbtree) :
  (forall p, p ∈ elements t -> exists d, h !! p = Some d /\ 0 < wd d < 2 ^ 31) ->
  -1 <= wd k < 2 ^ 31 ->
  cmp_ok (wd_of h) Z.lt (wd k) (cmp_wd h k) t.
Proof.
  intros Hlive Hk p Hp. destruct (Hlive p Hp) as (d & Ed & Hd).
  unfold cmp_wd, wd_of. rewrite Ed. simpl.
  exists (wd_compare k d). split; [reflexivity |].
  unfold wd_compare. rewrite to_int32_id by (unfold int_range; lia). lia.
Qed.

Lemma cmp_filename_ok (h : gmap ptr watch) (k : watch) (t : rbtree) :
  (forall p, p ∈ elements t -> is_Some (h !! p)) ->
  cmp_ok (filename_of h) str_lt (filename k) (cmp_filename h k) t.
Proof.
  intros Hlive p Hp. destruct (Hlive p Hp) as (d & Ed).
  unfold cmp_filename, filename_of. rewrite Ed. simpl.
  exists (filename_compare k d). split; [reflexivity |].
  unfold filename_compare. apply strcmp_sign.
Qed.

Lemma registry_ok_wd_nodes (r : registry) :
  registry_ok r ->
  forall p, p ∈ elements (tree_wd r) ->
  exists d, heap r !! p = Some d /\ 0 < wd d < 2 ^ 31.
Proof.
  intros Hok p Hp. apply (ok_wd_live r Hok) in Hp as [d Ed].
  exists d. split; [assumption |]. exact (ok_wd_range r Hok p d Ed).
Qed.

Lemma registry_ok_fn_nodes (r : registry) :
  registry_ok r ->
  forall p, p ∈ elements (tree_filename r) -> is_Some (heap r !! p).
Proof. intros Hok p Hp. now apply (ok_fn_live r Hok). Qed.

(** In a registry that satisfies the invariant every live watch is found
    by its descriptor and by its path. *)
Lemma watch_from_wd_live (r : registry) (p : ptr) (d : watch) :
  registry_ok r -> heap r !! p = Some d ->
  watch_from_wd r (wd d) = Some (Some p).
Proof.
  intros Hok Ed. unfold watch_from_wd.
  apply rbfind_present with (key := wd_of (heap r)) (lt := Z.lt) (s := wd d).
  - exact Z.lt_irrefl.
  - exact Z.lt_trans.
  - exact (ok_wd_bst r Hok).
  - apply (cmp_wd_ok (heap r) (key_wd (wd d))).
    + now apply registry_ok_wd_nodes.
    + pose proof (ok_wd_range r Hok p d Ed). simpl. lia.
  - apply (ok_wd_live r Hok). now exists d.
  - unfold wd_of. now rewrite Ed.
Qed.

Lemma watch_from_filename_live (r : registry) (p : ptr) (d : watch) :
  registry_ok r -> heap r !! p = Some d ->
  watch_from_filename r (filename d) = Some (Some p).
Proof.
  intros Hok Ed. unfold watch_from_filename.
  apply rbfind_present with (key := filename_of (heap r)) (lt := str_lt)
                            (s := filename d).
  - exact str_lt_irrefl.
  - exact str_lt_trans.
  - exact (ok_fn_bst r Hok).
  - apply (cmp_filename_ok (heap r) (key_filename (filename d))).
    now apply registry_ok_fn_nodes.
  - apply (ok_fn_live r Hok). now exists d.
  - unfold filename_of. now rewrite Ed.
Qed.

Lemma to_int32_zero (a b : Z) :
  int_range a -> int_range b -> to_int32 (a - b) = 0 -> a = b.
Proof.
  unfold int_range, to_int32. intros Ha Hb H.
  assert (Hm : (a - b + 2 ^ 31) mod 2 ^ 32 = 2 ^ 31) by lia.
  pose proof (Z.div_mod (a - b + 2 ^ 31) (2 ^ 32) ltac:(lia)) as Hdm.
  rewrite Hm in Hdm.
  assert (Hq : (a - b + 2 ^ 31) / 2 ^ 32 = 0) by nia.
  lia.
Qed.

(** A descriptor that no live watch has is not found, whatever [int] it is. *)
Lemma watch_from_wd_none (r : registry) (s : Z) :
  registry_ok r -> int_range s ->
  (forall p d, heap r !! p = Some d -> wd d <> s) ->
  watch_from_wd r s = Some None.
Proof.
  intros Hok Hs Hno. unfold watch_from_wd. apply rbfind_nonzero.
  intros p Hp. destruct (registry_ok_wd_nodes r Hok p Hp) as (d & Ed & Hd).
  unfold cmp_wd. rewrite Ed. simpl. eexists. split; [reflexivity |].
  unfold wd_compare. simpl. intros Hz.
  apply to_int32_zero in Hz; [| assumption | unfold int_range; lia].
  now apply (Hno p d).
Qed.

Lemma watch_from_filename_none (r : registry) (s : string) :
  registry_ok r ->
  (forall p d, heap r !! p = Some d -> filename d <> s) ->
  watch_from_filename r s = Some None.
Proof.
  intros Hok Hno. unfold watch_from_filename.
  apply rbfind_absent with (key := filename_of (heap r)) (lt := str_lt) (s := s).
  - apply (cmp_filename_ok (heap r) (key_filename s)). now apply registry_ok_fn_nodes.
  - intros p Hp. apply (ok_fn_live r Hok) in Hp as [d Ed].
    unfold filename_of. rewrite Ed. now apply (Hno p).
Qed.

Lemma registry_ok_empty : registry_ok empty_registry.
Proof.
  split; simpl; try exact I.
  - intros p. rewrite elem_of_nil, lookup_empty. split; [tauto | now intros [? ?]].
  - intros p. rewrite elem_of_nil, lookup_empty. split; [tauto | now intros [? ?]].
  - intros p d. now rewrite lookup_empty.
  - intros p _. apply lookup_empty.
Qed.

Lemma cmp_wd_at_ok (h : gmap ptr watch) (w : ptr) (d : watch) (t : rbtree) :
  h !! w = Some d ->
  (forall p, p ∈ elements t -> exists d', h !! p = Some d' /\ 0 < wd d' < 2 ^ 31) ->
  -1 <= wd d < 2 ^ 31 ->
  cmp_ok (wd_of h) Z.lt (wd d) (cmp_wd_at h w) t.
Proof.
  intros Ew Hlive Hd p Hp. unfold cmp_wd_at. rewrite Ew. simpl.
  now apply (cmp_wd_ok h d t).
Qed.

Lemma cmp_filename_at_ok (h : gmap ptr watch) (w : ptr) (d : watch) (t : rbtree) :
  h !! w = Some d ->
  (forall p, p ∈ elements t -> is_Some (h !! p)) ->
  cmp_ok (filename_of h) str_lt (filename d) (cmp_filename_at h w) t.
Proof.
  intros Ew Hlive p Hp. unfold cmp_filename_at. rewrite Ew. simpl.
  now apply (cmp_filename_ok h d t).
Qed.

(** Creation with a descriptor and a path that no live watch has keeps
    the invariant: the new watch enters both indices. *)
Lemma create_watch_ok (r : registry) (wd0 : Z) (f : string) :
  registry_ok r -> 0 < wd0 < 2 ^ 31 ->
  (forall p d, heap r !! p = Some d -> wd d <> wd0 /\ filename d <> f) ->
  exists r', create_watch r wd0 (Some f) = Some r'
             /\ registry_ok r'
             /\ heap r' = <[brk r := mkWatch f wd0 zero_counters]> (heap r)
             /\ brk r' = S (brk r).
Proof.
  intros Hok Hwd Hfresh. unfold create_watch.
  destruct (Z.leb_spec wd0 0) as [?|_]; [lia |].
  set (w := brk r). set (nw := mkWatch f wd0 zero_counters).
  set (h := <[w := nw]> (heap r)).
  assert (Hw : heap r !! w = None) by (apply (ok_brk r Hok); unfold w; lia).
  assert (Ew : h !! w = Some nw) by apply lookup_insert_eq.
  assert (Hold : forall p, is_Some (heap r !! p) -> h !! p = heap r !! p).
  { intros p [d Ed]. unfold h. apply lookup_insert_ne. intros ->. congruence. }
  (* the descriptor index *)
  destruct (rbsearch_absent (wd_of h) Z.lt
              (cmp_wd_at h w) w (tree_wd r)) as (t1 & E1 & Hb1 & He1).
  { apply bst_ext with (key := wd_of (heap r)); [| exact (ok_wd_bst r Hok)].
    intros p Hp. apply (ok_wd_live r Hok) in Hp. unfold wd_of. now rewrite Hold. }
  { replace (wd_of h w) with (wd nw) by (unfold wd_of; now rewrite Ew).
    apply cmp_wd_at_ok; [exact Ew | | simpl; lia].
    intros p Hp. destruct (registry_ok_wd_nodes r Hok p Hp) as (d & Ed & Hd).
    exists d. split; [| assumption]. rewrite Hold; [assumption | now exists d]. }
  { intros p Hp. apply (ok_wd_live r Hok) in Hp as [d Ed].
    unfold wd_of. rewrite Ew, Hold, Ed by now exists d. simpl.
    now apply (Hfresh p d). }
  (* the path index *)
  destruct (rbsearch_absent (filename_of h) str_lt
              (cmp_filename_at h w) w (tree_filename r)) as (t2 & E2 & Hb2 & He2).
  { apply bst_ext with (key := filename_of (heap r)); [| exact (ok_fn_bst r Hok)].
    intros p Hp. apply (ok_fn_live r Hok) in Hp. unfold filename_of. now rewrite Hold. }
  { replace (filename_of h w) with (filename nw) by (unfold filename_of; now rewrite Ew).
    apply cmp_filename_at_ok; [exact Ew |].
    intros p Hp. apply (ok_fn_live r Hok) in Hp. now rewrite Hold. }
  { intros p Hp. apply (ok_fn_live r Hok) in Hp as [d Ed].
    unfold filename_of. rewrite Ew, Hold, Ed by now exists d. simpl.
    now apply (Hfresh p d). }
  rewrite E1. simpl. rewrite E2. simpl.
  eexists. split; [reflexivity |]. split; [| split; reflexivity].
  assert (Hlive : forall q, q = w \/ is_Some (heap r !! q) <-> is_Some (h !! q)).
  { intros q. unfold h. rewrite lookup_insert_is_Some.
    destruct (decide (w = q)) as [->|Hne]; [tauto |].
    split; [intros [->|?]; [congruence | tauto] | tauto]. }
  split; simpl.
  - exact Hb1.
  - exact Hb2.
  - intros q. rewrite He1, (ok_wd_live r Hok). apply Hlive.
  - intros q. rewrite He2, (ok_fn_live r Hok). apply Hlive.
  - intros p d Ed. unfold h in Ed. apply lookup_insert_Some in Ed as [[_ <-]|[_ Ed]].
    + simpl. lia.
    + exact (ok_wd_range r Hok p d Ed).
  - intros p Hp. unfold h. rewrite lookup_insert_ne by lia.
    apply (ok_brk r Hok). unfold w in *. lia.
Qed.

(** Two live watches of a registry that satisfies the invariant differ in
    descriptor and in path. *)
Lemma registry_ok_wd_inj (r : registry) (p q : ptr) (d e : watch) :
  registry_ok r -> heap r !! p = Some d -> heap r !! q = Some e ->
  wd d = wd e -> p = q.
Proof.
  intros Hok Ed Ee E.
  apply (bst_key_inj (wd_of (heap r)) Z.lt Z.lt_irrefl Z.lt_trans (tree_wd r)).
  - exact (ok_wd_bst r Hok).
  - apply (ok_wd_live r Hok). now exists d.
  - apply (ok_wd_live r Hok). now exists e.
  - unfold wd_of. now rewrite Ed, Ee.
Qed.

Lemma registry_ok_filename_inj (r : registry) (p q : ptr) (d e : watch) :
  registry_ok r -> heap r !! p = Some d -> heap r !! q = Some e ->
  filename d = filename e -> p = q.
Proof.
  intros Hok Ed Ee E.
  apply (bst_key_inj (filename_of (heap r)) str_lt str_lt_irrefl str_lt_trans
           (tree_filename r)).
  - exact (ok_fn_bst r Hok).
  - apply (ok_fn_live r Hok). now exists d.
  - apply (ok_fn_live r Hok). now exists e.
  - unfold filename_of. now rewrite Ed, Ee.
Qed.

(** ** WatchRegistry: theorems *)

(** *** Removal *)

Section Removal.
Variable inotify_rm_watch : Z -> Z.

(** The success path of both removal functions: the watch leaves both
    indices and is freed, and the invariant is kept. *)
Lemma remove_watch_ok (st : state) (w : ptr) (d : watch) :
  registry_ok (reg st) -> heap (reg st) !! w = Some d ->
  0 <= inotify_rm_watch (wd d) ->
  exists st', remove_watch inotify_rm_watch st w = Some (st', 1)
    /\ registry_ok (reg st')
    /\ heap (reg st') = delete w (heap (reg st))
    /\ (forall q, q ∈ elements (tree_wd (reg st'))
                  <-> q ∈ elements (tree_wd (reg st)) /\ q <> w)
    /\ (forall q, q ∈ elements (tree_filename (reg st'))
                  <-> q ∈ elements (tree_filename (reg st)) /\ q <> w)
    /\ error st' = 0.
Proof.
  intros Hok Ed Hst. unfold remove_watch, remove_inotify_watch. rewrite Ed. simpl.
  destruct (Z.ltb_spec (inotify_rm_watch (wd d)) 0) as [?|_]; [lia |].
  simpl. set (r := reg st) in *.
  destruct (rbdelete_spec (wd_of (heap r)) Z.lt Z.lt_irrefl Z.lt_trans (wd d)
              (cmp_wd_at (heap r) w) (tree_wd r)) as (t1 & E1 & Hb1 & He1).
  { exact (ok_wd_bst r Hok). }
  { apply cmp_wd_at_ok; [exact Ed | now apply registry_ok_wd_nodes |].
    pose proof (ok_wd_range r Hok w d Ed). lia. }
  destruct (rbdelete_spec (filename_of (heap r)) str_lt str_lt_irrefl str_lt_trans
              (filename d) (cmp_filename_at (heap r) w) (tree_filename r))
    as (t2 & E2 & Hb2 & He2).
  { exact (ok_fn_bst r Hok). }
  { apply cmp_filename_at_ok; [exact Ed | now apply registry_ok_fn_nodes]. }
  rewrite E1. simpl. rewrite E2. simpl.
  assert (Hw1 : forall q, q ∈ elements t1 <-> q ∈ elements (tree_wd r) /\ q <> w).
  { intros q. rewrite He1. split; intros [Hq Hne]; (split; [assumption |]).
    - intros ->. apply Hne. unfold wd_of. now rewrite Ed.
    - intros E. apply Hne. apply (ok_wd_live r Hok) in Hq as [e Ee].
      apply (registry_ok_wd_inj r q w e d Hok Ee Ed).
      unfold wd_of in E. now rewrite Ee in E. }
  assert (Hw2 : forall q, q ∈ elements t2 <-> q ∈ elements (tree_filename r) /\ q <> w).
  { intros q. rewrite He2. split; intros [Hq Hne]; (split; [assumption |]).
    - intros ->. apply Hne. unfold filename_of. now rewrite Ed.
    - intros E. apply Hne. apply (ok_fn_live r Hok) in Hq as [e Ee].
      apply (registry_ok_filename_inj r q w e d Hok Ee Ed).
      unfold filename_of in E. now rewrite Ee in E. }
  eexists. split; [reflexivity |]. simpl.
  split; [| split; [reflexivity | split; [exact Hw1 | split; [exact Hw2 | reflexivity]]]].
  split; simpl.
  - apply bst_ext with (key := wd_of (heap r)); [| exact Hb1].
    intros p Hp. apply Hw1 in Hp as [_ Hne]. unfold wd_of.
    now rewrite lookup_delete_ne.
  - apply bst_ext with (key := filename_of (heap r)); [| exact Hb2].
    intros p Hp. apply Hw2 in Hp as [_ Hne]. unfold filename_of.
    now rewrite lookup_delete_ne.
  - intros q. rewrite Hw1, (ok_wd_live r Hok), lookup_delete_is_Some.
    split; intros [H1 H2]; split; auto.
  - intros q. rewrite Hw2, (ok_fn_live r Hok), lookup_delete_is_Some.
    split; intros [H1 H2]; split; auto.
  - intros p e Ee. apply lookup_delete_Some in Ee as [_ Ee].
    exact (ok_wd_range r Hok p e Ee).
  - intros p Hp. apply lookup_delete_None. right. now apply (ok_brk r Hok).
Qed.

(** C6: [inotifytools_remove_watch_by_wd] on a registry that satisfies
    its invariant.  A descriptor of no live watch: 1, nothing changes.
    The kernel refuses: 0, the status is left in [error] (what
    [inotifytools_error] returns) and the registry is as before.  The
    kernel accepts: 1, the watch is gone from both indices and from the
    heap, and is found neither by its descriptor nor by its path. *)
Theorem remove_watch_by_wd_spec (st : state) (wd0 : Z) :
  registry_ok (reg st) -> int_range wd0 ->
  ((forall p d, heap (reg st) !! p = Some d -> wd d <> wd0) ->
   inotifytools_remove_watch_by_wd inotify_rm_watch st wd0 = Some (st, 1))
  /\ (forall w d, heap (reg st) !! w = Some d -> wd d = wd0 ->
      (inotify_rm_watch wd0 < 0 ->
       exists st', inotifytools_remove_watch_by_wd inotify_rm_watch st wd0 = Some (st', 0)
         /\ error st' = inotify_rm_watch wd0
         /\ reg st' = reg st)
      /\ (0 <= inotify_rm_watch wd0 ->
          exists st', inotifytools_remove_watch_by_wd inotify_rm_watch st wd0 = Some (st', 1)
            /\ heap (reg st') = delete w (heap (reg st))
            /\ (forall q, q ∈ elements (tree_wd (reg st'))
                          <-> q ∈ elements (tree_wd (reg st)) /\ q <> w)
            /\ (forall q, q ∈ elements (tree_filename (reg st'))
                          <-> q ∈ elements (tree_filename (reg st)) /\ q <> w)
            /\ watch_from_wd (reg st') wd0 = Some None
            /\ watch_from_filename (reg st') (filename d) = Some None
            /\ registry_ok (reg st'))).
Proof.
  intros Hok Hwd. split.
  - intros Hno. unfold inotifytools_remove_watch_by_wd.
    now rewrite watch_from_wd_none.
  - intros w d Ed <-. unfold inotifytools_remove_watch_by_wd.
    rewrite (watch_from_wd_live _ w d Hok Ed). simpl. split.
    + intros Hneg. unfold remove_watch, remove_inotify_watch. rewrite Ed. simpl.
      destruct (Z.ltb_spec (inotify_rm_watch (wd d)) 0) as [_|?]; [| lia].
      simpl. eexists. split; [reflexivity |]. split; reflexivity.
    + intros Hpos.
      destruct (remove_watch_ok st w d Hok Ed Hpos)
        as (st' & E & Hok' & Hheap & Hw1 & Hw2 & _).
      exists st'. split; [exact E |].
      split; [exact Hheap |]. split; [exact Hw1 |]. split; [exact Hw2 |].
      split; [| split; [| exact Hok']].
      * apply watch_from_wd_none; [assumption .. |].
        intros p e Ee Ewd. rewrite Hheap in Ee.
        apply lookup_delete_Some in Ee as [Hne Ee].
        apply Hne. symmetry. exact (registry_ok_wd_inj _ p w e d Hok Ee Ed Ewd).
      * apply watch_from_filename_none; [assumption |].
        intros p e Ee Efn. rewrite Hheap in Ee.
        apply lookup_delete_Some in Ee as [Hne Ee].
        apply Hne. symmetry. exact (registry_ok_filename_inj _ p w e d Hok Ee Ed Efn).
Qed.
End Removal.

(** *** Creation, and the removal scenario *)

Lemma one_watch_registry_ok : registry_ok one_watch_registry.
Proof.
  destruct (create_watch_ok empty_registry 1 "/tmp/" registry_ok_empty)
    as (r' & E & Hok & _).
  - lia.
  - intros p d. simpl. now rewrite lookup_empty.
  - assert (E' : create_watch empty_registry 1 (Some "/tmp/") = Some one_watch_registry)
      by reflexivity.
    rewrite E' in E. now injection E as <-.
Qed.

(** C5, as the code has it: [create_watch] does nothing (no watch is
    allocated, neither index is modified) whenever [wd <= 0] or the path
    pointer is [NULL]. *)
Theorem create_watch_guard (r : registry) (wd0 : Z) (f : option string) :
  wd0 <= 0 \/ f = None -> create_watch r wd0 f = Some r.
Proof.
  intros [Hwd| ->]; [| reflexivity]. unfold create_watch.
  destruct f; [| reflexivity].
  destruct (Z.leb_spec wd0 0); [reflexivity | lia].
Qed.

Lemma create_watch_guard_witness :
  create_watch one_watch_registry 0 (Some "/tmp/x") = Some one_watch_registry.
Proof. apply create_watch_guard. left. lia. Defined.

(** C5 as stated fails for the empty path: with a positive descriptor the
    empty string is stored and indexed like any other path. *)
Lemma create_watch_empty_path_counterexample :
  exists r', create_watch empty_registry 1 (Some "") = Some r'
    /\ heap r' !! 1%nat = Some (mkWatch "" 1 zero_counters)
    /\ tree_wd r' = RBNODE RBNULL 1%nat RBNULL
    /\ tree_filename r' = RBNODE RBNULL 1%nat RBNULL
    /\ r' <> empty_registry.
Proof.
  eexists. split; [reflexivity |]. repeat split. discriminate.
Qed.

Lemma remove_watch_by_wd_spec_witness :
  exists st', inotifytools_remove_watch_by_wd rm_accept one_watch_state 1 = Some (st', 1)
    /\ heap (reg st') = delete 1%nat (heap (reg one_watch_state))
    /\ watch_from_wd (reg st') 1 = Some None
    /\ watch_from_filename (reg st') "/tmp/" = Some None.
Proof.
  assert (Hr : int_range 1) by (unfold int_range; lia).
  destruct (remove_watch_by_wd_spec rm_accept one_watch_state 1
              one_watch_registry_ok Hr) as [_ H].
  destruct (H 1%nat one_watch eq_refl eq_refl) as [_ H2].
  destruct H2 as (st' & E & Hh & _ & _ & Hwd & Hfn & _); [unfold rm_accept; lia |].
  exists st'. repeat split; assumption.
Defined.

(** *** Renaming in place *)

Lemma three_watch_registry_created :
  exists st,
    inotifytools_watch_files three_files_add_watch plain_files
      (fst (inotifytools_initialize 3 start_state)) ["b"; "a"; "c"] IN_ALL_EVENTS
    = Some (st, 1)
    /\ reg st = three_watch_registry.
Proof. eexists. split; reflexivity. Qed.

Ltac fresh_in_heap :=
  let p := fresh "p" in let d := fresh "d" in let H := fresh "H" in
  intros p d H; simpl in H;
  repeat (apply lookup_insert_Some in H as [[_ <-]|[_ H]];
          [split; discriminate |]);
  now rewrite lookup_empty in H.

Lemma three_watch_registry_ok : registry_ok three_watch_registry.
Proof.
  destruct (create_watch_ok empty_registry 1 "b" registry_ok_empty)
    as (r1 & E1 & Hok1 & _); [lia | fresh_in_heap |].
  assert (E1' : create_watch empty_registry 1 (Some "b")
                = Some (mkRegistry (<[1%nat := mkWatch "b" 1 zero_counters]> ∅) 2%nat
                          (RBNODE RBNULL 1%nat RBNULL) (RBNODE RBNULL 1%nat RBNULL)))
    by reflexivity.
  rewrite E1' in E1. injection E1 as <-.
  destruct (create_watch_ok _ 2 "a" Hok1)
    as (r2 & E2 & Hok2 & _); [lia | fresh_in_heap |].
  assert (E2' : create_watch
                  (mkRegistry (<[1%nat := mkWatch "b" 1 zero_counters]> ∅) 2%nat
                     (RBNODE RBNULL 1%nat RBNULL) (RBNODE RBNULL 1%nat RBNULL))
                  2 (Some "a")
                = Some (mkRegistry
                          (<[2%nat := mkWatch "a" 2 zero_counters]>
                             (<[1%nat := mkWatch "b" 1 zero_counters]> ∅)) 3%nat
                          (RBNODE RBNULL 1%nat (RBNODE RBNULL 2%nat RBNULL))
                          (RBNODE (RBNODE RBNULL 2%nat RBNULL) 1%nat RBNULL)))
    by reflexivity.
  rewrite E2' in E2. injection E2 as <-.
  destruct (create_watch_ok _ 3 "c" Hok2)
    as (r3 & E3 & Hok3 & _); [lia | fresh_in_heap |].
  assert (E3' : create_watch
                  (mkRegistry
                     (<[2%nat := mkWatch "a" 2 zero_counters]>
                        (<[1%nat := mkWatch "b" 1 zero_counters]> ∅)) 3%nat
                     (RBNODE RBNULL 1%nat (RBNODE RBNULL 2%nat RBNULL))
                     (RBNODE (RBNODE RBNULL 2%nat RBNULL) 1%nat RBNULL))
                  3 (Some "c")
                = Some three_watch_registry)
    by reflexivity.
  rewrite E3' in E3. now injection E3 as <-.
Qed.

(** C1 fails on the code: after [inotifytools_set_filename_by_wd] the
    watch with descriptor 2 carries the path ["z"], but the path index
    still holds it where ["a"] belonged, and a lookup of ["z"] (or of
    ["a"]) does not reach it.  The registry satisfied the invariant
    before the call and does not satisfy it afterwards. *)
Theorem set_filename_by_wd_breaks_path_index :
  registry_ok three_watch_registry
  /\ watch_from_filename three_watch_registry "a" = Some (Some 2%nat)
  /\ exists r',
       inotifytools_set_filename_by_wd three_watch_registry 2 "z" = Some r'
       /\ inotifytools_filename_from_wd r' 2 = Some (Some "z")
       /\ watch_from_filename r' "z" = Some None
       /\ watch_from_filename r' "a" = Some None
       /\ tree_filename r' = tree_filename three_watch_registry
       /\ ~ registry_ok r'.
Proof.
  split; [exact three_watch_registry_ok |]. split; [reflexivity |].
  eexists. split; [reflexivity |].
  split; [reflexivity |]. split; [reflexivity |]. split; [reflexivity |].
  split; [reflexivity |].
  intros Hok.
  pose proof (watch_from_filename_live _ 2%nat (mkWatch "z" 2 zero_counters) Hok
                eq_refl) as H.
  discriminate H.
Qed.

(** C6 fails on the code in a registry that
    [inotifytools_set_filename_by_wd] has left behind (C1): the watch
    with descriptor 2 carries the path ["z"] but sits in the path index
    where ["a"] belonged.  [inotifytools_remove_watch_by_wd] returns 1,
    erases the watch from the descriptor index and frees it, but
    [rbdelete] on the path index looks for ["z"], finds nothing, and the
    freed watch stays in that index.  From then on a lookup of ["a"], and
    a new watch on ["a"], compare through the freed watch. *)
Theorem remove_watch_by_wd_leaves_freed_watch :
  exists r1 st2,
    inotifytools_set_filename_by_wd three_watch_registry 2 "z" = Some r1
    /\ inotifytools_remove_watch_by_wd rm_accept (set_reg r1 three_watch_state) 2
       = Some (st2, 1)
    /\ heap (reg st2) !! 2%nat = None
    /\ elements (tree_wd (reg st2)) = [1%nat; 3%nat]
    /\ elements (tree_filename (reg st2)) = [2%nat; 1%nat; 3%nat]
    /\ watch_from_filename (reg st2) "a" = None
    /\ inotifytools_watch_file three_files_add_watch plain_files st2 "a" IN_ALL_EVENTS
       = None.
Proof.
  eexists _, _. split; [reflexivity |]. split; [reflexivity |].
  repeat split.
Qed.

(** *** Renaming by prefix *)

Lemma set_filename_eq (h : gmap ptr watch) (w : ptr) (d : watch) (n : string) :
  h !! w = Some d -> set_filename h w n !! w = Some (mkWatch n (wd d) (hit d)).
Proof. intros E. unfold set_filename. now rewrite lookup_alter_eq, E. Qed.

Lemma set_filename_ne (h : gmap ptr watch) (w q : ptr) (n : string) :
  q <> w -> set_filename h w n !! q = h !! q.
Proof. intros E. unfold set_filename. now rewrite lookup_alter_ne. Qed.

Lemma set_filename_is_Some (h : gmap ptr watch) (w q : ptr) (n : string) :
  is_Some (set_filename h w n !! q) <-> is_Some (h !! q).
Proof. unfold set_filename. apply lookup_alter_is_Some. Qed.

Lemma set_filename_wd (h : gmap ptr watch) (w q : ptr) (n : string) :
  wd_of (set_filename h w n) q = wd_of h q.
Proof.
  unfold wd_of. destruct (decide (q = w)) as [->|Hne].
  - unfold set_filename. rewrite lookup_alter_eq. now destruct (h !! w).
  - now rewrite set_filename_ne.
Qed.

Lemma strcmp_neq (a b : string) : a <> b -> (strcmp a b =? 0) = false.
Proof.
  intros Hne. apply Z.eqb_neq. intros E.
  apply (proj1 (strcmp_sign a b)) in E. congruence.
Qed.

Lemma strcmp_refl (a : string) : strcmp a a = 0.
Proof. unfold strcmp. now rewrite str_compare_refl. Qed.

(** The first half of the renaming branch of [replace_filename]: the
    watch leaves the path index and its path is replaced. *)
Lemma replace_filename_unlink (r : registry) (w : ptr) (d : watch) (name : string) :
  registry_ok r -> heap r !! w = Some d ->
  let h := set_filename (heap r) w name in
  exists t, rbdelete (cmp_filename_at (heap r) w) (tree_filename r) = Some t
    /\ bst (filename_of h) str_lt t
    /\ (forall q, q ∈ elements t <-> q ∈ elements (tree_filename r) /\ q <> w)
    /\ cmp_ok (filename_of h) str_lt name (cmp_filename_at h w) t.
Proof.
  intros Hok Ed h.
  destruct (rbdelete_spec (filename_of (heap r)) str_lt str_lt_irrefl str_lt_trans
              (filename d) (cmp_filename_at (heap r) w) (tree_filename r))
    as (t & E & Hb & He).
  { exact (ok_fn_bst r Hok). }
  { apply cmp_filename_at_ok; [exact Ed | now apply registry_ok_fn_nodes]. }
  assert (Hw : forall q, q ∈ elements t <-> q ∈ elements (tree_filename r) /\ q <> w).
  { intros q. rewrite He. split; intros [Hq Hne]; (split; [assumption |]).
    - intros ->. apply Hne. unfold filename_of. now rewrite Ed.
    - intros E'. apply Hne. apply (ok_fn_live r Hok) in Hq as [e Ee].
      apply (registry_ok_filename_inj r q w e d Hok Ee Ed).
      unfold filename_of in E'. now rewrite Ee in E'. }
  exists t. split; [exact E |]. split; [| split; [exact Hw |]].
  - apply bst_ext with (key := filename_of (heap r)); [| exact Hb].
    intros p Hp. apply Hw in Hp as [_ Hne]. unfold filename_of, h.
    now rewrite set_filename_ne.
  - replace name with (filename (mkWatch name (wd d) (hit d))) by reflexivity.
    apply cmp_filename_at_ok; [now apply set_filename_eq |].
    intros p Hp. apply Hw in Hp as [Hp _].
    apply set_filename_is_Some. now apply (ok_fn_live r Hok).
Qed.

(** On its effective visit of a live watch [w] ([endorder] or [leaf]) in
    a registry that satisfies the invariant, the callback of
    [inotifytools_replace_filename]
    - leaves everything as it is when the path does not start with the
      old prefix, and when the path equals the new prefix;
    - otherwise replaces the path by the new prefix followed by the rest
      of the old path; the watch is put back into the path index under
      the new path, and is found by it, when no other watch has that path;
    - when another watch has that path, the path of [w] is replaced all
      the same, [w] is left out of the path index, which keeps its order
      and holds no key twice, and the path finds the other watch. *)
Lemma replace_filename_visit (old_name new_name : string) (w : ptr) (d : watch)
    (which : VISIT) (r : registry) :
  registry_ok r -> heap r !! w = Some d -> which = endorder \/ which = leaf ->
  let name := new_name +:+ drop (String.length old_name) (filename d) in
  (is_prefix old_name (filename d) = false ->
   replace_filename old_name new_name w which r = Some r)
  /\ (is_prefix old_name (filename d) = true -> filename d = new_name ->
      replace_filename old_name new_name w which r = Some r)
  /\ (is_prefix old_name (filename d) = true -> filename d <> new_name ->
      (forall p e, p <> w -> heap r !! p = Some e -> filename e <> name) ->
      exists r', replace_filename old_name new_name w which r = Some r'
        /\ heap r' = set_filename (heap r) w name
        /\ tree_wd r' = tree_wd r
        /\ registry_ok r'
        /\ watch_from_filename r' name = Some (Some w))
  /\ (is_prefix old_name (filename d) = true -> filename d <> new_name ->
      forall p e, p <> w -> heap r !! p = Some e -> filename e = name ->
      exists r', replace_filename old_name new_name w which r = Some r'
        /\ heap r' = set_filename (heap r) w name
        /\ tree_wd r' = tree_wd r
        /\ bst (filename_of (heap r')) str_lt (tree_filename r')
        /\ (forall q, q ∈ elements (tree_filename r')
                      <-> q ∈ elements (tree_filename r) /\ q <> w)
        /\ watch_from_filename r' name = Some (Some p)).
Proof.
  intros Hok Ed Hwhich name.
  assert (Hrun : forall x,
            (match which with
             | endorder | leaf => x
             | _ => Some r
             end : option registry) = x)
    by (intros x; destruct Hwhich as [-> | ->]; reflexivity).
  unfold replace_filename. rewrite Hrun, Ed. simpl.
  split; [intros ->; reflexivity |].
  split; [intros -> ->; now rewrite strcmp_refl |].
  destruct (replace_filename_unlink r w d name Hok Ed) as (t & Et & Hbt & Hwt & Hct).
  fold name. set (h := set_filename (heap r) w name) in *.
  assert (Ew : h !! w = Some (mkWatch name (wd d) (hit d))) by now apply set_filename_eq.
  split.
  - intros -> Hne Hfresh. rewrite strcmp_neq by assumption. rewrite Et. simpl.
    destruct (rbsearch_absent (filename_of h) str_lt (cmp_filename_at h w) w t)
      as (t' & Et' & Hbt' & Het'); [exact Hbt | | |].
    { replace (filename_of h w) with name by (unfold filename_of; now rewrite Ew).
      exact Hct. }
    { intros p Hp. apply Hwt in Hp as [Hp Hpw].
      apply (ok_fn_live r Hok) in Hp as [e Ee].
      unfold filename_of. rewrite Ew. unfold h. rewrite set_filename_ne, Ee by assumption.
      simpl. now apply (Hfresh p e). }
    rewrite Et'. simpl. eexists. split; [reflexivity |].
    split; [reflexivity |]. split; [reflexivity |].
    assert (Hok' : registry_ok (mkRegistry h (brk r) (tree_wd r) t')).
    { split; simpl.
      - apply bst_ext with (key := wd_of (heap r)); [| exact (ok_wd_bst r Hok)].
        intros p _. unfold h. now rewrite set_filename_wd.
      - exact Hbt'.
      - intros q. unfold h. rewrite set_filename_is_Some. apply (ok_wd_live r Hok).
      - intros q. unfold h. rewrite Het', Hwt, set_filename_is_Some, (ok_fn_live r Hok).
        destruct (decide (q = w)) as [->|Hqw]; [| tauto].
        split; [intros _; now exists d | tauto].
      - intros p e Ee. destruct (decide (p = w)) as [->|Hpw].
        + rewrite Ew in Ee. injection Ee as <-. simpl.
          exact (ok_wd_range r Hok w d Ed).
        + unfold h in Ee. rewrite set_filename_ne in Ee by assumption.
          exact (ok_wd_range r Hok p e Ee).
      - intros p Hp. destruct (decide (p = w)) as [->|Hpw].
        + pose proof (ok_brk r Hok w Hp). congruence.
        + unfold h. rewrite set_filename_ne by assumption. now apply (ok_brk r Hok). }
    split; [exact Hok' |].
    exact (watch_from_filename_live _ w _ Hok' Ew).
  - intros -> Hne p e Hpw Ee Efn. rewrite strcmp_neq by assumption. rewrite Et. simpl.
    assert (Hp : p ∈ elements t).
    { apply Hwt. split; [| assumption]. apply (ok_fn_live r Hok). now exists e. }
    assert (Ep : h !! p = Some e) by (unfold h; now rewrite set_filename_ne).
    assert (Hkp : filename_of h p = name) by (unfold filename_of; now rewrite Ep).
    rewrite (rbsearch_present (filename_of h) str_lt str_lt_irrefl str_lt_trans
               name (cmp_filename_at h w) w t p Hbt Hct Hp Hkp).
    simpl. eexists. split; [reflexivity |].
    split; [reflexivity |]. split; [reflexivity |].
    split; [exact Hbt |]. split; [exact Hwt |].
    unfold watch_from_filename. simpl.
    apply rbfind_present with (key := filename_of h) (lt := str_lt) (s := name);
      try assumption.
    + exact str_lt_irrefl.
    + exact str_lt_trans.
    + apply (cmp_filename_ok h (key_filename name)).
      intros q Hq. apply Hwt in Hq as [Hq _]. unfold h.
      apply set_filename_is_Some. now apply (ok_fn_live r Hok).
Qed.

(** *** Whole walks *)

Lemma walk_order_app (a b : list (ptr * VISIT)) :
  walk_order (a ++ b) = (walk_order a ++ walk_order b)%list.
Proof. unfold walk_order. now rewrite List.filter_app, map_app. Qed.

Lemma walk_order_cons (p : ptr) (which : VISIT) (vs : list (ptr * VISIT)) :
  walk_order ((p, which) :: vs)
  = if effective which then (p :: walk_order vs)%list else walk_order vs.
Proof. unfold walk_order. simpl. now destruct (effective which). Qed.

Lemma walk_order_visits (t : rbtree) : walk_order (rbwalk_visits t) ≡ₚ elements t.
Proof.
  induction t as [|l IHl k r IHr]; [reflexivity |].
  assert (Hgen : walk_order ((k, preorder) :: rbwalk_visits l
                             ++ (k, postorder) :: rbwalk_visits r ++ [(k, endorder)])
                 ≡ₚ elements (RBNODE l k r)).
  { change ((k, preorder) :: rbwalk_visits l
            ++ (k, postorder) :: rbwalk_visits r ++ [(k, endorder)])%list
      with ([(k, preorder)] ++ rbwalk_visits l
            ++ [(k, postorder)] ++ rbwalk_visits r ++ [(k, endorder)])%list.
    rewrite !walk_order_app, IHl, IHr. simpl.
    rewrite (Permutation_app_comm (elements r) [k]). reflexivity. }
  destruct l as [|ll lk lr]; [| exact Hgen].
  destruct r as [|rl rk rr]; [reflexivity | exact Hgen].
Qed.

Lemma bst_NoDup {K : Type} (key : ptr -> K) (lt : K -> K -> Prop) (t : rbtree) :
  (forall a, ~ lt a a) -> (forall a b c, lt a b -> lt b c -> lt a c) ->
  bst key lt t -> NoDup (elements t).
Proof.
  intros Hirr Htr. induction t as [|l IHl k r IHr]; simpl; [constructor |].
  intros (Hbl & Hbr & Hlt & Hgt).
  apply NoDup_app. split; [now apply IHl |]. split.
  - intros x Hx Hx'. apply elem_of_cons in Hx' as [->|Hx'].
    + apply (Hirr (key k)). now apply Hlt.
    + apply (Hirr (key x)). apply Htr with (key k); [now apply Hlt | now apply Hgt].
  - apply NoDup_cons. split; [| now apply IHr].
    intros Hk. apply (Hirr (key k)). now apply Hgt.
Qed.

Lemma renamed_same (old_name new_name : string) (d : watch) :
  new_path old_name new_name (filename d) = filename d ->
  renamed old_name new_name d = d.
Proof. unfold renamed. intros ->. now destruct d. Qed.

(** The effect of one effective visit when the new path is free. *)
Lemma replace_filename_effect (old_name new_name : string) (w : ptr) (d : watch)
    (which : VISIT) (r : registry) :
  registry_ok r -> heap r !! w = Some d -> effective which = true ->
  (forall q e, q <> w -> heap r !! q = Some e ->
     filename e <> new_path old_name new_name (filename d)) ->
  exists r', replace_filename old_name new_name w which r = Some r'
    /\ registry_ok r'
    /\ tree_wd r' = tree_wd r
    /\ heap r' !! w = Some (renamed old_name new_name d)
    /\ forall q, q <> w -> heap r' !! q = heap r !! q.
Proof.
  intros Hok Ed Heff Hfree.
  assert (Hwhich : which = endorder \/ which = leaf)
    by (destruct which; try discriminate; auto).
  destruct (replace_filename_visit old_name new_name w d which r Hok Ed Hwhich)
    as (Hnp & Hsame & Hren & _).
  unfold new_path in Hfree.
  destruct (is_prefix old_name (filename d)) eqn:Ep.
  - destruct (String.eqb_spec (filename d) new_name) as [En|En].
    + exists r. rewrite (Hsame eq_refl En).
      assert (Hn : new_path old_name new_name (filename d) = filename d).
      { unfold new_path. now rewrite Ep, En, strcmp_refl. }
      rewrite (renamed_same _ _ _ Hn). auto.
    + rewrite (strcmp_neq _ _ En) in Hfree. simpl in Hfree.
      destruct (Hren eq_refl En Hfree) as (r' & E & Hh & Ht & Hok' & _).
      exists r'. split; [exact E |]. split; [exact Hok' |]. split; [exact Ht |].
      rewrite Hh. split.
      * rewrite (set_filename_eq _ _ d) by assumption.
        unfold renamed, new_path. now rewrite Ep, (strcmp_neq _ _ En).
      * intros q Hq. now apply set_filename_ne.
  - exists r. rewrite (Hnp eq_refl).
    assert (Hn : new_path old_name new_name (filename d) = filename d).
    { unfold new_path. now rewrite Ep. }
    rewrite (renamed_same _ _ _ Hn). auto.
Qed.

Lemma rbwalk_replace (old_name new_name : string) (h0 : gmap ptr watch) :
  no_collision old_name new_name h0 ->
  forall vs r,
  registry_ok r ->
  NoDup (walk_order vs) ->
  (forall p, p ∈ walk_order vs -> is_Some (h0 !! p) /\ heap r !! p = h0 !! p) ->
  (forall p, heap r !! p = h0 !! p
             \/ heap r !! p = renamed old_name new_name <$> h0 !! p) ->
  exists r', rbwalk (replace_filename old_name new_name) vs r = Some r'
    /\ registry_ok r'
    /\ tree_wd r' = tree_wd r
    /\ (forall p, p ∈ walk_order vs ->
          heap r' !! p = renamed old_name new_name <$> h0 !! p)
    /\ (forall p, p ∉ walk_order vs -> heap r' !! p = heap r !! p).
Proof.
  intros Hnc. induction vs as [|[p which] vs IH]; intros r Hok Hnd Htodo Hall.
  - exists r. simpl. split; [reflexivity |]. split; [exact Hok |].
    split; [reflexivity |]. split; [| reflexivity].
    intros p Hp. now apply elem_of_nil in Hp.
  - cbn [rbwalk]. destruct (effective which) eqn:Heff.
    + rewrite walk_order_cons, Heff in *.
      apply NoDup_cons in Hnd as [Hp Hnd].
      destruct (Htodo p) as [[d Ed0] Ep]; [now apply elem_of_cons; left |].
      rewrite Ed0 in Ep.
      destruct (replace_filename_effect old_name new_name p d which r Hok Ep Heff)
        as (r1 & E1 & Hok1 & Ht1 & Hp1 & Hq1).
      { intros q e Hq Ee. destruct (Hall q) as [Hq0|Hq0]; rewrite Ee in Hq0.
        - symmetry in Hq0.
          destruct (Hnc p q d e Ed0 Hq0 (not_eq_sym Hq)) as [H1 _]. congruence.
        - destruct (h0 !! q) as [e0|] eqn:Ee0; [| discriminate].
          injection Hq0 as ->.
          destruct (Hnc p q d e0 Ed0 Ee0 (not_eq_sym Hq)) as [_ H2].
          simpl. congruence. }
      rewrite E1. simpl.
      destruct (IH r1 Hok1 Hnd) as (r' & E' & Hok' & Ht' & Hin' & Hout').
      { intros q Hq. destruct (Htodo q) as [Hs Hq0]; [now apply elem_of_cons; right |].
        split; [exact Hs |]. rewrite Hq1; [exact Hq0 |]. intros ->. contradiction. }
      { intros q. destruct (decide (q = p)) as [->|Hne].
        - right. now rewrite Hp1, Ed0.
        - rewrite (Hq1 q Hne). apply Hall. }
      exists r'. split; [exact E' |]. split; [exact Hok' |].
      split; [congruence |]. split.
      * intros q Hq. apply elem_of_cons in Hq as [->|Hq]; [| now apply Hin'].
        rewrite (Hout' p Hp), Hp1, Ed0. reflexivity.
      * intros q Hq. rewrite not_elem_of_cons in Hq. destruct Hq as [Hne Hq].
        rewrite (Hout' q Hq). now apply Hq1.
    + rewrite walk_order_cons, Heff in *.
      assert (E1 : replace_filename old_name new_name p which r = Some r)
        by (destruct which; try discriminate; reflexivity).
      rewrite E1. simpl. now apply IH.
Qed.

(** Where [names] has room for the length (a pointer as wide as an
    [int]), a walk in which no new path collides with a path of another
    watch renames every watch, keeps the invariant and leaves the
    descriptor index alone. *)
Lemma replace_filename_walk (old_name new_name : string) (r : registry) :
  registry_ok r -> no_collision old_name new_name (heap r) ->
  exists r',
    inotifytools_replace_filename 4 r (Some old_name) (Some new_name)
    = Some (Replace_return r')
    /\ registry_ok r'
    /\ tree_wd r' = tree_wd r
    /\ forall p, heap r' !! p = renamed old_name new_name <$> heap r !! p.
Proof.
  intros Hok Hnc. unfold inotifytools_replace_filename.
  change (names_slots 4 <=? 2) with false. cbv iota.
  pose proof (walk_order_visits (tree_filename r)) as Hperm.
  destruct (rbwalk_replace old_name new_name (heap r) Hnc
              (rbwalk_visits (tree_filename r)) r Hok)
    as (r' & E & Hok' & Ht & Hin & Hout).
  - rewrite Hperm.
    exact (bst_NoDup _ _ _ str_lt_irrefl str_lt_trans (ok_fn_bst r Hok)).
  - intros p Hp. rewrite Hperm in Hp. split; [| reflexivity].
    now apply (ok_fn_live r Hok).
  - intros p. now left.
  - exists r'. split; [now rewrite E |]. split; [exact Hok' |]. split; [exact Ht |].
    intros p. destruct (decide (p ∈ walk_order (rbwalk_visits (tree_filename r))))
      as [Hp|Hp]; [now apply Hin |].
    rewrite (Hout p Hp). rewrite Hperm in Hp.
    destruct (heap r !! p) as [d|] eqn:Ed; [| reflexivity].
    exfalso. apply Hp. apply (ok_fn_live r Hok). now exists d.
Qed.

Lemma create_watch_ok_eq (r r' : registry) (wd0 : Z) (f : string) :
  registry_ok r -> 0 < wd0 < 2 ^ 31 ->
  (forall p d, heap r !! p = Some d -> wd d <> wd0 /\ filename d <> f) ->
  create_watch r wd0 (Some f) = Some r' -> registry_ok r'.
Proof.
  intros Hok Hwd Hfresh E.
  destruct (create_watch_ok r wd0 f Hok Hwd Hfresh) as (r'' & E' & Hok' & _).
  congruence.
Qed.

Lemma axy_registry_ok : registry_ok axy_registry.
Proof.
  apply (create_watch_ok_eq empty_registry _ 1 "/a/x/y" registry_ok_empty);
    [lia | fresh_in_heap | reflexivity].
Qed.

Example replace_filename_axy :
  exists r',
    inotifytools_replace_filename 4 axy_registry (Some "/a/") (Some "/b/")
    = Some (Replace_return r')
    /\ inotifytools_filename_from_wd r' 1 = Some (Some "/b/x/y")
    /\ inotifytools_wd_from_filename r' "/b/x/y" = Some 1
    /\ inotifytools_wd_from_filename r' "/a/x/y" = Some (-1).
Proof. eexists. repeat split. Qed.

Lemma collide_registry_ok : registry_ok collide_registry.
Proof.
  apply (create_watch_ok_eq
           (mkRegistry (<[1%nat := mkWatch "/a/x" 1 zero_counters]> ∅) 2%nat
              (RBNODE RBNULL 1%nat RBNULL) (RBNODE RBNULL 1%nat RBNULL))
           _ 2 "/b/x");
    [| lia | fresh_in_heap | reflexivity].
  apply (create_watch_ok_eq empty_registry _ 1 "/a/x" registry_ok_empty);
    [lia | fresh_in_heap | reflexivity].
Qed.

(** C3 fails on the code.  [names] is declared with
    [2 + sizeof (int) / sizeof (char * )] slots, which is 2 where a
    pointer is wider than an [int]: there every call with two names
    stores the length of [oldname] outside the array, whatever the
    watches.  Where the array has room, a replacement that collides with
    the path of another watch is not dropped: the callback has erased
    the watch from the path index and replaced its path when [rbsearch]
    finds the other watch and inserts nothing.  The watch on ["/a/x"]
    ends with the path ["/b/x"], is in the descriptor index only, and
    neither path finds it. *)
Theorem replace_filename_overruns_and_drops :
  (forall r oldname newname,
     inotifytools_replace_filename 8 r (Some oldname) (Some newname)
     = Some (Replace_overrun 2))
  /\ registry_ok collide_registry
  /\ exists r',
       inotifytools_replace_filename 4 collide_registry (Some "/a/") (Some "/b/")
       = Some (Replace_return r')
       /\ inotifytools_filename_from_wd r' 1 = Some (Some "/b/x")
       /\ inotifytools_wd_from_filename r' "/a/x" = Some (-1)
       /\ inotifytools_wd_from_filename r' "/b/x" = Some 2
       /\ elements (tree_filename r') = [2%nat]
       /\ elements (tree_wd r') = [1%nat; 2%nat]
       /\ ~ registry_ok r'.
Proof.
  split; [reflexivity |].
  split; [exact collide_registry_ok |].
  eexists. split; [reflexivity |].
  do 5 (split; [reflexivity |]).
  intros Hok.
  pose proof (proj2 (ok_fn_live _ Hok 1%nat)) as H.
  cbn in H. specialize (H (ex_intro _ _ eq_refl)).
  apply list_elem_of_In in H. cbn in H. destruct H as [H|[]]. discriminate H.
Qed.

(** ** EventFormatter: theorems *)

Example snprintf_example :
  option_map
    (fun r => match snd r with
              | Snprintf_return ret out _ => Some (ret, c_string out)
              | Snprintf_overrun _ => None
              end)
    (inotifytools_snprintf one_watch_tab_state "" (repeat NUL 64) 64
       (mkEvent 1 (Z.lor IN_CREATE IN_ISDIR) 0 0 "") (Some "in %w: %e"))
  = Some (Some (21, "in /tmp/: CREATE,ISDIR")).
Proof. reflexivity. Qed.

(** The call does not return while [hcreate_r] has not made the table,
    and for an event whose descriptor is that of no watch. *)
Example snprintf_dies :
  inotifytools_snprintf one_watch_state "" (repeat NUL 64) 64
    (mkEvent 1 IN_CREATE 0 0 "") (Some "%w") = None
  /\ inotifytools_snprintf one_watch_tab_state "" (repeat NUL 64) 64
       (mkEvent 7 IN_CREATE 0 0 "") (Some "%w") = None.
Proof. split; reflexivity. Qed.

(** The two up-front rejections: an empty template, and a template or a
    [size] above [MAX_STRLEN]. *)
Lemma snprintf_rejects (st : state) (timestr : string) (out : list ascii)
    (size : Z) (event : inotify_event) (fmt : string) (f : option string)
    (found : Z * list string) :
  inotifytools_filename_from_wd (reg st) (ev_wd event) = Some f ->
  hfind (tab (dbg st)) f = Some found ->
  (strlen fmt = 0 ->
   inotifytools_snprintf st timestr out size event (Some fmt)
   = Some (printf_filename f :: snd found, Snprintf_return (-1) out EINVAL))
  /\ (MAX_STRLEN < strlen fmt ->
      inotifytools_snprintf st timestr out size event (Some fmt)
      = Some (printf_filename f :: snd found, Snprintf_return (-1) out EMSGSIZE)).
Proof.
  intros Ef Eh. unfold inotifytools_snprintf. rewrite Ef. simpl. rewrite Eh. simpl.
  split; intros H.
  - now rewrite H.
  - destruct (Z.eqb_spec (strlen fmt) 0) as [E|_]; [unfold MAX_STRLEN in H; lia |].
    apply Z.ltb_lt in H. now rewrite H.
Qed.

(** C4 fails on the code: with a 5-byte array and [size = 5], the
    template ["%w"] and the 5-character watch path ["/tmp/"], [strncpy]
    fills the array, [ind] becomes 5 and the closing [out[ind] = 0] is a
    store at [out[5]], one past the array.  The pass-through of an
    unknown token does the same: ["ab%q"] with a 4-byte array ends with a
    store at [out[4]].  The state is one in which the call gets as far
    as the template: the table exists and the descriptor is that of a
    watch. *)
Theorem snprintf_overruns_out :
  inotifytools_snprintf one_watch_tab_state "" (repeat NUL 5) 5
    (mkEvent 1 IN_CREATE 0 0 "") (Some "%w")
  = Some (snprintf_lines "/tmp/", Snprintf_overrun 5)
  /\ inotifytools_snprintf one_watch_tab_state "" (repeat NUL 4) 4
       (mkEvent 1 IN_CREATE 0 0 "") (Some "ab%q")
     = Some (snprintf_lines "/tmp/", Snprintf_overrun 4).
Proof. split; reflexivity. Qed.

(** ** EventStreamReader: theorems *)

Lemma set_error_idem (e e' : Z) (st : state) :
  set_error e (set_error e' st) = set_error e st.
Proof. reflexivity. Qed.

(** What [record_stats] does when the descriptor resolves: the tallies
    of the kinds in the mask and the total go up by one, in the watch and
    in the library; nothing else changes. *)
Lemma record_stats_counts (st : state) (event : inotify_event) (w : ptr) (d : watch) :
  watch_from_wd (reg st) (ev_wd event) = Some (Some w) ->
  heap (reg st) !! w = Some d ->
  exists st', record_stats st event = Some st'
    /\ num st' = count_event (ev_mask event) (num st)
    /\ heap (reg st') !! w
       = Some (mkWatch (filename d) (wd d) (count_event (ev_mask event) (hit d)))
    /\ (forall q, q <> w -> heap (reg st') !! q = heap (reg st) !! q)
    /\ c_total (num st') = incr (c_total (num st)).
Proof.
  intros Ew Ed. unfold record_stats. rewrite Ew. simpl. rewrite Ed. simpl.
  eexists. split; [reflexivity |]. simpl. repeat split.
  - apply lookup_insert_eq.
  - intros q Hq. now apply lookup_insert_ne.
Qed.

(** ... and when it does not: nothing is counted. *)
Lemma record_stats_unknown (st : state) (event : inotify_event) :
  watch_from_wd (reg st) (ev_wd event) = Some None ->
  record_stats st event = Some st.
Proof. intros Ew. unfold record_stats. now rewrite Ew. Qed.

(** With no record carried over and a source on which nothing happens,
    the call waits for ever when [timeout <= 0] and returns [NULL] with
    [error] at 0 when [timeout > 0]. *)
Lemma next_events_silent (fuel : nat) (st : state) (rd : reader)
    (env : list kernel_round) (timeout num_events : Z) :
  1 <= num_events ->
  negb (first_byte rd =? 0)
  && (first_byte rd <=? to_int32 (bytes rd - EVENT_SIZE)) = false ->
  hd silent_round env = silent_round ->
  inotifytools_next_events (S fuel) st rd env timeout num_events
  = if timeout <=? 0 then Blocked
    else NoEvent (set_error 0 st)
                 (mkReader (event_buf rd) (first_byte rd)
                           (if first_byte rd =? 0 then 0 else bytes rd))
                 (List.tl env).
Proof.
  intros Hn Hcarry Hk. unfold inotifytools_next_events. cbn [next_events_loop].
  destruct (Z.ltb_spec num_events 1) as [?|_]; [lia |].
  rewrite Hcarry.
  destruct env as [|k env']; cbn [hd List.tl] in *; [| subst k];
    unfold select; cbn [k_select_errno k_ready_after silent_round];
    destruct (timeout <=? 0); reflexivity.
Qed.

(** C2 fails on the code for [timeout = 0]: the test is [timeout <= 0],
    so [select] gets a [NULL] timeout for 0 as for a negative value, and
    on a source with nothing pending the call does not return.  Negative
    and positive timeouts behave as the claim says. *)
Theorem next_event_zero_timeout_blocks (fuel : nat) (st : state) :
  inotifytools_next_event (S fuel) st idle_reader [] 0 = Blocked
  /\ inotifytools_next_event (S fuel) st idle_reader [] (-1) = Blocked
  /\ inotifytools_next_event (S fuel) st idle_reader [] 5
     = NoEvent (set_error 0 st) idle_reader [].
Proof. repeat split. Qed.

(** C7 fails on the code.  [RETURN] renders the path with
    [inotifytools_snprintf], which calls [hfind] on the debugging table
    before anything else, and only [inotifytools_watch_recursively] on a
    directory ever makes that table.  With the watch on ["/tmp"] set up
    by [inotifytools_watch_file] and a filter installed, the call that
    receives an event the filter does not match does not return it: it
    does not return.  With the same watch set up by
    [inotifytools_watch_recursively] the claim's scenario goes through:
    of the two records of one read only the second reaches the caller
    and the tallies.  Even then an event whose descriptor is that of no
    watch, such as the queue overflow, ends the call in [hfind], the
    path being [NULL]. *)
Theorem next_events_filter_dies :
  (exists st,
     filtered_after
       (fun st => inotifytools_watch_file tmp_add_watch all_directories st "/tmp"
                    IN_ALL_EVENTS) = Some st
     /\ regex st = Some skip_filter
     /\ inotifytools_filename_from_wd (reg st) 1 = Some (Some "/tmp/")
     /\ inotifytools_next_events 3 st idle_reader
          [ready_round (event_bytes keep_event)] 0 1 = Undefined)
  /\ (exists st st' rd',
        filtered_after
          (fun st => inotifytools_watch_recursively tmp_add_watch all_directories
                       IN_ALL_EVENTS (OpenDir NoMore) "/tmp" st) = Some st
        /\ inotifytools_next_events 3 st idle_reader
             [ready_round (event_bytes skip_event ++ event_bytes keep_event)] 0 1
           = Event st' rd' [] 32 keep_event
        /\ inotifytools_get_stat_total st' 0 = 1
        /\ inotifytools_get_stat_total st' IN_MODIFY = 1
        /\ inotifytools_get_stat_total st' IN_CREATE = 0
        /\ inotifytools_get_stat_by_wd st' 1 0 = Some 1
        /\ inotifytools_next_events 3 st idle_reader
             [ready_round (event_bytes (mkEvent (-1) IN_Q_OVERFLOW 0 0 ""))] 0 1
           = Undefined).
Proof.
  split.
  - eexists. split; [vm_compute; reflexivity |].
    split; [reflexivity |]. split; [reflexivity |]. vm_compute. reflexivity.
  - eexists _, _, _. split; [vm_compute; reflexivity |].
    split; [vm_compute; reflexivity |].
    repeat split.
Qed.


(** ** RecursiveWatcher: theorems *)

Lemma registry_grows_refl (r : registry) : registry_grows r r.
Proof. repeat split; auto. Qed.

Lemma registry_grows_trans (r1 r2 r3 : registry) :
  registry_grows r1 r2 -> registry_grows r2 r3 -> registry_grows r1 r3.
Proof. intros (A1 & B1 & C1) (A2 & B2 & C2). repeat split; auto. Qed.

Lemma rbsearch_grows (cmp : ptr -> option Z) (w : ptr) (t t' : rbtree) :
  rbsearch cmp w t = Some t' -> forall q, q ∈ elements t -> q ∈ elements t'.
Proof.
  revert t'. induction t as [|l IHl k r IHr]; intros t' E q Hq.
  - now apply elem_of_nil in Hq.
  - simpl in E. destruct (cmp k) as [z|]; [| discriminate]. simpl in E.
    destruct (z =? 0); [now injection E as <- |].
    destruct (z <? 0).
    + destruct (rbsearch cmp w l) as [l'|]; [| discriminate]. injection E as <-.
      simpl in *. rewrite elem_of_app in *. destruct Hq as [Hq|Hq]; [| tauto].
      left. now apply IHl.
    + destruct (rbsearch cmp w r) as [r'|]; [| discriminate]. injection E as <-.
      simpl in *. rewrite !elem_of_app, !elem_of_cons in *.
      destruct Hq as [Hq|[Hq|Hq]]; [tauto | tauto |].
      right. right. now apply IHr.
Qed.

Lemma create_watch_grows (r r' : registry) (wd0 : Z) (f : option string) :
  brk_fresh r -> create_watch r wd0 f = Some r' ->
  registry_grows r r' /\ brk_fresh r'.
Proof.
  intros Hfresh E. unfold create_watch in E.
  destruct f as [f|]; [| injection E as <-; split; [apply registry_grows_refl | assumption]].
  destruct (wd0 <=? 0);
    [injection E as <-; split; [apply registry_grows_refl | assumption] |].
  destruct (rbsearch _ (brk r) (tree_wd r)) as [t1|] eqn:E1; [| discriminate].
  simpl in E.
  destruct (rbsearch _ (brk r) (tree_filename r)) as [t2|] eqn:E2; [| discriminate].
  injection E as <-. split; [repeat split; simpl |].
  - intros p d Ed. rewrite lookup_insert_ne; [assumption |].
    intros <-. rewrite Hfresh in Ed by lia. discriminate.
  - exact (rbsearch_grows _ _ _ _ E1).
  - exact (rbsearch_grows _ _ _ _ E2).
  - intros p Hp. simpl in *. rewrite lookup_insert_ne by lia. apply Hfresh. lia.
Qed.

Section RecursiveFacts.
Variable inotify_add_watch : string -> Z -> Z * Z.
Variable lstat64 : string -> stat_result.
Variable events : Z.
Variable exclude_list : option (list string).

Lemma watch_files_loop_grows (filenames : list string) :
  forall st st' ret,
  brk_fresh (reg st) ->
  watch_files_loop inotify_add_watch lstat64 st filenames events = Some (st', ret) ->
  registry_grows (reg st) (reg st') /\ brk_fresh (reg st').
Proof.
  induction filenames as [|f rest IH]; intros st st' ret Hfresh E;
    cbn [watch_files_loop] in E.
  - injection E as <- _. split; [apply registry_grows_refl | assumption].
  - destruct (inotify_add_watch f events) as [wd0 errno].
    destruct (wd0 <? 0).
    + destruct (wd0 =? -1); injection E as <- _;
        (split; [apply registry_grows_refl | assumption]).
    + destruct (create_watch (reg st) wd0 _) as [r|] eqn:Ec; [| discriminate].
      cbn [mbind option_bind] in E.
      destruct (create_watch_grows _ _ _ _ Hfresh Ec) as [Hg Hf].
      destruct (IH (set_reg r st) _ _ Hf E) as [Hg' Hf'].
      split; [| assumption]. exact (registry_grows_trans _ _ _ Hg Hg').
Qed.

Lemma watch_file_grows (st st' : state) (path : string) (ret : Z) :
  brk_fresh (reg st) ->
  inotifytools_watch_file inotify_add_watch lstat64 st path events = Some (st', ret) ->
  registry_grows (reg st) (reg st') /\ brk_fresh (reg st').
Proof.
  intros Hfresh E. unfold inotifytools_watch_file, inotifytools_watch_files in E.
  exact (watch_files_loop_grows [path] (set_error 0 st) _ _ Hfresh E).
Qed.

End RecursiveFacts.




Section VerdictFacts.
Variable inotify_add_watch : string -> Z -> Z * Z.
Variable lstat64 : string -> stat_result.
Variable events : Z.
Variable exclude_list : option (list string).



Lemma hprobe_absent (hv : Z) (key : string) (t : list hentry) (i : nat) :
  Forall (fun e => h_used e <> hv) t -> hprobe hv key t i = Some None.
Proof.
  revert i. induction t as [|e t IH]; intros i Hf; [reflexivity |].
  apply Forall_cons in Hf as [He Hf]. cbn [hprobe].
  destruct (Z.eqb_spec (h_used e) hv) as [?|_]; [contradiction |]. now apply IH.
Qed.










End VerdictFacts.





(** The scenario of the spec: with ["root/b"] excluded, [root/a/] and
    [root/] are watched, [root/b/] is not, and the call succeeds. *)
Example watch_recursively_exclude :
  exists st',
    inotifytools_watch_recursively_with_exclude root_add_watch all_directories
      IN_ALL_EVENTS (Some ["root/b"]) root_tree "root" one_watch_state
    = Some (st', 1)
    /\ inotifytools_wd_from_filename (reg st') "root/a/" = Some 2
    /\ inotifytools_wd_from_filename (reg st') "root/" = Some 4
    /\ inotifytools_wd_from_filename (reg st') "root/b/" = Some (-1)
    /\ inotifytools_wd_from_filename (reg st') "/tmp/" = Some 1.
Proof. eexists. split; [vm_compute; reflexivity |]. repeat split. Qed.

(** Without the exclusion the walk enters [root/b/]; the subdirectory
    that cannot be opened is passed over and the call still succeeds. *)
Example watch_recursively_denied :
  exists st',
    inotifytools_watch_recursively_with_exclude root_add_watch all_directories
      IN_ALL_EVENTS None root_tree "root" one_watch_state
    = Some (st', 1)
    /\ inotifytools_wd_from_filename (reg st') "root/a/" = Some 2
    /\ inotifytools_wd_from_filename (reg st') "root/b/" = Some 3
    /\ inotifytools_wd_from_filename (reg st') "root/" = Some 4
    /\ inotifytools_wd_from_filename (reg st') "root/b/secret/" = Some (-1).
Proof. eexists. split; [vm_compute; reflexivity |]. repeat split. Qed.


(** ** WatchRegistry: further properties *)

(** *** Lookups *)

(** Lookups through [inotifytools_filename_from_wd] and
    [inotifytools_wd_from_filename] on a registry that satisfies the
    invariant. *)
Lemma filename_from_wd_live (r : registry) (p : ptr) (d : watch) :
  registry_ok r -> heap r !! p = Some d ->
  inotifytools_filename_from_wd r (wd d) = Some (Some (filename d)).
Proof.
  intros Hok Ed. unfold inotifytools_filename_from_wd.
  rewrite (watch_from_wd_live r p d Hok Ed). simpl. now rewrite Ed.
Qed.

Lemma filename_from_wd_none (r : registry) (wd0 : Z) :
  registry_ok r -> int_range wd0 ->
  (forall p d, heap r !! p = Some d -> wd d <> wd0) ->
  inotifytools_filename_from_wd r wd0 = Some None.
Proof.
  intros Hok Hwd Hno. unfold inotifytools_filename_from_wd.
  now rewrite watch_from_wd_none.
Qed.

Lemma wd_from_filename_live (r : registry) (p : ptr) (d : watch) :
  registry_ok r -> heap r !! p = Some d ->
  inotifytools_wd_from_filename r (filename d) = Some (wd d).
Proof.
  intros Hok Ed. unfold inotifytools_wd_from_filename.
  rewrite (watch_from_filename_live r p d Hok Ed). simpl. now rewrite Ed.
Qed.

Lemma wd_from_filename_none (r : registry) (f : string) :
  registry_ok r ->
  (forall p d, heap r !! p = Some d -> filename d <> f) ->
  inotifytools_wd_from_filename r f = Some (-1).
Proof.
  intros Hok Hno. unfold inotifytools_wd_from_filename.
  now rewrite watch_from_filename_none.
Qed.

(** X1: on a registry that satisfies the invariant,
    [inotifytools_filename_from_wd] returns the path of the live watch
    with that descriptor, and [NULL] when no live watch has it; it is
    never undefined. *)
Theorem filename_from_wd_spec (r : registry) (wd0 : Z) :
  registry_ok r -> int_range wd0 ->
  (forall p d, heap r !! p = Some d -> wd d = wd0 ->
     inotifytools_filename_from_wd r wd0 = Some (Some (filename d)))
  /\ ((forall p d, heap r !! p = Some d -> wd d <> wd0) ->
      inotifytools_filename_from_wd r wd0 = Some None).
Proof.
  intros Hok Hwd. split.
  - intros p d Ed <-. now apply filename_from_wd_live with (p := p).
  - now apply filename_from_wd_none.
Qed.

Lemma one_watch_only (p : ptr) (d : watch) :
  heap one_watch_registry !! p = Some d -> p = 1%nat /\ d = one_watch.
Proof.
  simpl. intros H. apply lookup_insert_Some in H as [[<- <-]|[_ H]]; [now split |].
  now rewrite lookup_empty in H.
Qed.

Lemma filename_from_wd_spec_witness :
  inotifytools_filename_from_wd one_watch_registry 1 = Some (Some "/tmp/")
  /\ inotifytools_filename_from_wd one_watch_registry 7 = Some None.
Proof.
  assert (H1 : int_range 1) by (unfold int_range; lia).
  assert (H7 : int_range 7) by (unfold int_range; lia).
  destruct (filename_from_wd_spec one_watch_registry 1 one_watch_registry_ok H1)
    as [Ha _].
  destruct (filename_from_wd_spec one_watch_registry 7 one_watch_registry_ok H7)
    as [_ Hb].
  split.
  - exact (Ha 1%nat one_watch eq_refl eq_refl).
  - apply Hb. intros p d Ed. apply one_watch_only in Ed as [_ ->]. discriminate.
Defined.

(** X2: on a registry that satisfies the invariant,
    [inotifytools_wd_from_filename] returns the descriptor of the live
    watch with that path, and -1 when no live watch has it. *)
Theorem wd_from_filename_spec (r : registry) (f : string) :
  registry_ok r ->
  (forall p d, heap r !! p = Some d -> filename d = f ->
     inotifytools_wd_from_filename r f = Some (wd d))
  /\ ((forall p d, heap r !! p = Some d -> filename d <> f) ->
      inotifytools_wd_from_filename r f = Some (-1)).
Proof.
  intros Hok. split.
  - intros p d Ed <-. now apply wd_from_filename_live with (p := p).
  - now apply wd_from_filename_none.
Qed.

Lemma wd_from_filename_spec_witness :
  inotifytools_wd_from_filename one_watch_registry "/tmp/" = Some 1
  /\ inotifytools_wd_from_filename one_watch_registry "/tmp" = Some (-1).
Proof.
  destruct (wd_from_filename_spec one_watch_registry "/tmp/" one_watch_registry_ok)
    as [Ha _].
  destruct (wd_from_filename_spec one_watch_registry "/tmp" one_watch_registry_ok)
    as [_ Hb].
  split.
  - exact (Ha 1%nat one_watch eq_refl eq_refl).
  - apply Hb. intros p d Ed. apply one_watch_only in Ed as [_ ->]. discriminate.
Defined.

(** X3: the two lookups are inverse to each other: a descriptor resolves
    to a path exactly when the path resolves to the descriptor. *)
Theorem wd_filename_round_trip (r : registry) (wd0 : Z) (f : string) :
  registry_ok r -> int_range wd0 ->
  (inotifytools_filename_from_wd r wd0 = Some (Some f)
   <-> inotifytools_wd_from_filename r f = Some wd0 /\ wd0 <> -1).
Proof.
  intros Hok Hwd. split.
  - unfold inotifytools_filename_from_wd.
    destruct (watch_from_wd r wd0) as [[p|]|] eqn:E; simpl; try discriminate.
    destruct (heap r !! p) as [d|] eqn:Ed; simpl; [| discriminate].
    intros [= <-].
    apply rbfind_elem in E as [_ Ec].
    unfold cmp_wd in Ec. rewrite Ed in Ec. simpl in Ec. injection Ec as Ec.
    unfold wd_compare in Ec. simpl in Ec.
    pose proof (ok_wd_range r Hok p d Ed) as Hd.
    apply to_int32_zero in Ec; [| assumption | unfold int_range; lia]. subst wd0.
    split; [| lia].
    now apply wd_from_filename_live with (p := p).
  - intros [E Hne]. unfold inotifytools_wd_from_filename in E.
    destruct (watch_from_filename r f) as [[p|]|] eqn:Ef; simpl in E;
      [| congruence | discriminate].
    destruct (heap r !! p) as [d|] eqn:Ed; simpl in E; [| discriminate].
    injection E as <-.
    apply rbfind_elem in Ef as [_ Ec].
    unfold cmp_filename in Ec. rewrite Ed in Ec. simpl in Ec. injection Ec as Ec.
    unfold filename_compare in Ec. simpl in Ec.
    apply strcmp_sign in Ec. subst f.
    now apply filename_from_wd_live with (p := p).
Qed.

Lemma wd_filename_round_trip_witness :
  inotifytools_filename_from_wd one_watch_registry 1 = Some (Some "/tmp/")
  <-> inotifytools_wd_from_filename one_watch_registry "/tmp/" = Some 1 /\ 1 <> -1.
Proof.
  apply (wd_filename_round_trip one_watch_registry 1 "/tmp/" one_watch_registry_ok).
  unfold int_range. lia.
Defined.

(** *** Setting up watches *)

(** X4: on a registry that satisfies the invariant,
    [inotifytools_watch_file] on a path for which the kernel hands out a
    positive descriptor that no live watch has, and whose stored form no
    live watch has as its path: the call returns 1, [error] is 0, the
    invariant is kept, the watches there were are untouched, and the new
    watch is found both ways under the stored path, which is the path
    given, with a ["/"] appended when it is a directory and does not end
    in one. *)
Theorem watch_file_lookup (inotify_add_watch : string -> Z -> Z * Z)
    (lstat64 : string -> stat_result) (st : state) (f : string)
    (events wd0 errno : Z) :
  let name :=
    if negb (isdir lstat64 f) || Ascii.eqb (last_char f) "/" then f
    else f +:+ "/" in
  registry_ok (reg st) ->
  inotify_add_watch f events = (wd0, errno) -> 0 < wd0 < 2 ^ 31 ->
  (forall p d, heap (reg st) !! p = Some d -> wd d <> wd0 /\ filename d <> name) ->
  exists st',
    inotifytools_watch_file inotify_add_watch lstat64 st f events = Some (st', 1)
    /\ registry_ok (reg st')
    /\ inotifytools_error st' = 0
    /\ inotifytools_filename_from_wd (reg st') wd0 = Some (Some name)
    /\ inotifytools_wd_from_filename (reg st') name = Some wd0
    /\ (forall p d, heap (reg st) !! p = Some d -> heap (reg st') !! p = Some d).
Proof.
  intros name Hok Eadd Hwd Hfresh.
  destruct (create_watch_ok (reg st) wd0 name Hok Hwd Hfresh)
    as (r' & E & Hok' & Hheap & Hbrk).
  unfold inotifytools_watch_file, inotifytools_watch_files.
  cbn [watch_files_loop]. rewrite Eadd.
  destruct (Z.ltb_spec wd0 0) as [?|_]; [lia |].
  fold name. cbn [reg set_error]. rewrite E. cbn [mbind option_bind].
  eexists. split; [reflexivity |]. cbn [reg set_reg set_error error inotifytools_error].
  assert (Enew : heap r' !! brk (reg st) = Some (mkWatch name wd0 zero_counters)).
  { rewrite Hheap. apply lookup_insert_eq. }
  split; [exact Hok' |]. split; [reflexivity |].
  split; [| split].
  - exact (filename_from_wd_live r' _ _ Hok' Enew).
  - exact (wd_from_filename_live r' _ _ Hok' Enew).
  - intros p d Ed. rewrite Hheap. rewrite lookup_insert_ne; [exact Ed |].
    intros <-. rewrite (ok_brk (reg st) Hok (brk (reg st))) in Ed by lia. discriminate.
Qed.

Lemma watch_file_lookup_witness :
  exists st',
    inotifytools_watch_file var_add_watch all_directories one_watch_state "/var"
      IN_ALL_EVENTS = Some (st', 1)
    /\ inotifytools_filename_from_wd (reg st') 2 = Some (Some "/var/")
    /\ inotifytools_wd_from_filename (reg st') "/var/" = Some 2
    /\ inotifytools_wd_from_filename (reg st') "/tmp/" = Some 1.
Proof.
  destruct (watch_file_lookup var_add_watch all_directories one_watch_state "/var"
              IN_ALL_EVENTS 2 0 one_watch_registry_ok eq_refl)
    as (st' & E & Hok & _ & H1 & H2 & H3).
  - lia.
  - intros p d Ed. apply one_watch_only in Ed as [_ ->]. split; discriminate.
  - exists st'. split; [exact E |]. split; [exact H1 |]. split; [exact H2 |].
    apply (wd_from_filename_live (reg st') 1%nat one_watch Hok).
    apply H3. reflexivity.
Defined.

(** X5: [inotifytools_watch_files] stops at the first path for which
    [inotify_add_watch] returns a negative value: it returns 0, with
    [errno] in [error] when the value is -1 and with [error] left at 0
    for any other negative value; the paths after it are not tried, and
    the watches set up for the paths before it are kept. *)
Theorem watch_files_first_failure (inotify_add_watch : string -> Z -> Z * Z)
    (lstat64 : string -> stat_result) (events wd0 errno : Z)
    (before after : list string) (f : string) (st st1 : state) :
  inotifytools_watch_files inotify_add_watch lstat64 st before events = Some (st1, 1) ->
  inotify_add_watch f events = (wd0, errno) -> wd0 < 0 ->
  error st1 = 0
  /\ inotifytools_watch_files inotify_add_watch lstat64 st (before ++ f :: after) events
     = Some (if wd0 =? -1 then set_error errno st1 else st1, 0).
Proof.
  unfold inotifytools_watch_files.
  assert (H0 : error (set_error 0 st) = 0) by reflexivity.
  revert H0. generalize (set_error 0 st). clear st.
  induction before as [|g before IH]; intros st H0 E Hf Hneg.
  - simpl in E. injection E as <-. split; [exact H0 |].
    cbn [app watch_files_loop]. rewrite Hf.
    destruct (Z.ltb_spec wd0 0) as [_|?]; [| lia].
    now destruct (wd0 =? -1).
  - cbn [app watch_files_loop] in *.
    destruct (inotify_add_watch g events) as [wd1 e1].
    destruct (wd1 <? 0).
    + destruct (wd1 =? -1); discriminate.
    + destruct (create_watch _ _ _) as [r|]; [| discriminate].
      cbn [mbind option_bind] in *. now apply IH.
Qed.

(** A kernel that knows ["/var"] only. *)
Lemma watch_files_first_failure_witness :
  exists st1,
    inotifytools_watch_files var_add_watch all_directories one_watch_state
      ["/var"; "/gone"; "/var"] IN_ALL_EVENTS
    = Some (set_error ENOENT st1, 0)
    /\ inotifytools_watch_files var_add_watch all_directories one_watch_state
         ["/var"] IN_ALL_EVENTS = Some (st1, 1).
Proof.
  eexists. split.
  - apply (watch_files_first_failure var_add_watch all_directories IN_ALL_EVENTS
             (-1) ENOENT ["/var"] ["/var"] "/gone" one_watch_state);
      [vm_compute; reflexivity | reflexivity | lia].
  - vm_compute; reflexivity.
Defined.

Lemma rbfind_ext (cmp cmp' : ptr -> option Z) (t : rbtree) :
  (forall p, p ∈ elements t -> cmp p = cmp' p) -> rbfind cmp t = rbfind cmp' t.
Proof.
  induction t as [|l IHl k r IHr]; simpl; [reflexivity |].
  intros H. rewrite <- (H k) by (apply elem_of_app; right; now apply elem_of_cons; left).
  destruct (cmp k) as [c|]; simpl; [| reflexivity].
  destruct (c =? 0); [reflexivity |].
  destruct (c <? 0).
  - apply IHl. intros p Hp. apply H. apply elem_of_app. now left.
  - apply IHr. intros p Hp. apply H. apply elem_of_app. right.
    now apply elem_of_cons; right.
Qed.

(** X6: on a registry that satisfies the invariant, watching again a
    path that is already watched under the same descriptor changes
    neither index: [create_watch] allocates a record for it, but both
    insertions find the watch that is there, and the lookups go on
    answering with that one. *)
Theorem create_watch_duplicate (r : registry) (p : ptr) (d : watch) :
  registry_ok r -> heap r !! p = Some d ->
  exists r',
    create_watch r (wd d) (Some (filename d)) = Some r'
    /\ tree_wd r' = tree_wd r
    /\ tree_filename r' = tree_filename r
    /\ heap r' = <[brk r := mkWatch (filename d) (wd d) zero_counters]> (heap r)
    /\ watch_from_wd r' (wd d) = Some (Some p)
    /\ watch_from_filename r' (filename d) = Some (Some p)
    /\ inotifytools_get_num_watches r' = inotifytools_get_num_watches r.
Proof.
  intros Hok Ed. unfold create_watch.
  pose proof (ok_wd_range r Hok p d Ed) as Hwd.
  destruct (Z.leb_spec (wd d) 0) as [?|_]; [lia |].
  set (w := brk r). set (nw := mkWatch (filename d) (wd d) zero_counters).
  set (h := <[w := nw]> (heap r)).
  assert (Hw : heap r !! w = None) by (apply (ok_brk r Hok); unfold w; lia).
  assert (Ew : h !! w = Some nw) by apply lookup_insert_eq.
  assert (Hold : forall q, is_Some (heap r !! q) -> h !! q = heap r !! q).
  { intros q [e Ee]. unfold h. apply lookup_insert_ne. intros ->. congruence. }
  assert (Hbw : bst (wd_of h) Z.lt (tree_wd r)).
  { apply bst_ext with (key := wd_of (heap r)); [| exact (ok_wd_bst r Hok)].
    intros q Hq. apply (ok_wd_live r Hok) in Hq. unfold wd_of. now rewrite Hold. }
  assert (Hbf : bst (filename_of h) str_lt (tree_filename r)).
  { apply bst_ext with (key := filename_of (heap r)); [| exact (ok_fn_bst r Hok)].
    intros q Hq. apply (ok_fn_live r Hok) in Hq. unfold filename_of. now rewrite Hold. }
  assert (Hnw : forall q, q ∈ elements (tree_wd r) ->
                exists e, h !! q = Some e /\ 0 < wd e < 2 ^ 31).
  { intros q Hq. destruct (registry_ok_wd_nodes r Hok q Hq) as (e & Ee & He).
    exists e. split; [| assumption]. rewrite Hold; [assumption | now exists e]. }
  assert (Hnf : forall q, q ∈ elements (tree_filename r) -> is_Some (h !! q)).
  { intros q Hq. apply (ok_fn_live r Hok) in Hq. now rewrite Hold. }
  assert (Hp : h !! p = Some d) by (rewrite Hold; [assumption | now exists d]).
  assert (E1 : rbsearch (cmp_wd_at h w) w (tree_wd r) = Some (tree_wd r)).
  { apply (rbsearch_present (wd_of h) Z.lt Z.lt_irrefl Z.lt_trans (wd nw)) with (p := p).
    - exact Hbw.
    - apply cmp_wd_at_ok; [exact Ew | exact Hnw | simpl; lia].
    - apply (ok_wd_live r Hok). now exists d.
    - unfold wd_of. now rewrite Hp. }
  assert (E2 : rbsearch (cmp_filename_at h w) w (tree_filename r)
               = Some (tree_filename r)).
  { apply (rbsearch_present (filename_of h) str_lt str_lt_irrefl str_lt_trans
             (filename nw)) with (p := p).
    - exact Hbf.
    - apply cmp_filename_at_ok; [exact Ew | exact Hnf].
    - apply (ok_fn_live r Hok). now exists d.
    - unfold filename_of. now rewrite Hp. }
  rewrite E1. cbn [mbind option_bind]. rewrite E2. cbn [mbind option_bind].
  eexists. split; [reflexivity |]. cbn [tree_wd tree_filename heap].
  split; [reflexivity |]. split; [reflexivity |]. split; [reflexivity |].
  split; [| split; [| reflexivity]].
  - unfold watch_from_wd. cbn [tree_wd heap]. fold h.
    rewrite <- (watch_from_wd_live r p d Hok Ed). unfold watch_from_wd.
    apply rbfind_ext. intros q Hq. apply (ok_wd_live r Hok) in Hq.
    unfold cmp_wd. now rewrite Hold.
  - unfold watch_from_filename. cbn [tree_filename heap]. fold h.
    rewrite <- (watch_from_filename_live r p d Hok Ed). unfold watch_from_filename.
    apply rbfind_ext. intros q Hq. apply (ok_fn_live r Hok) in Hq.
    unfold cmp_filename. now rewrite Hold.
Qed.

Lemma create_watch_duplicate_witness :
  exists r',
    create_watch one_watch_registry 1 (Some "/tmp/") = Some r'
    /\ tree_wd r' = tree_wd one_watch_registry
    /\ tree_filename r' = tree_filename one_watch_registry
    /\ watch_from_wd r' 1 = Some (Some 1%nat).
Proof.
  destruct (create_watch_duplicate one_watch_registry 1%nat one_watch
              one_watch_registry_ok eq_refl) as (r' & E & H1 & H2 & _ & H3 & _).
  exists r'. repeat split; assumption.
Defined.

(** *** Walks *)

Lemma rbwalk_visit_all {S : Type} (action : ptr -> VISIT -> S -> option S)
    (f : ptr -> S -> option S) :
  (forall p which s, action p which s = if effective which then f p s else Some s) ->
  forall vs s, rbwalk action vs s = visit_all f (walk_order vs) s.
Proof.
  intros Hact. induction vs as [|[p which] vs IH]; intros s; [reflexivity |].
  cbn [rbwalk]. rewrite walk_order_cons, Hact.
  destruct (effective which); cbn [visit_all mbind option_bind].
  - destruct (f p s); [apply IH | reflexivity].
  - apply IH.
Qed.

Lemma visit_all_get_num (ps : list ptr) (n : Z) :
  0 <= n -> n + Z.of_nat (List.length ps) < 2 ^ 31 ->
  visit_all (fun _ n => Some (to_int32 (n + 1))) ps n
  = Some (n + Z.of_nat (List.length ps)).
Proof.
  revert n. induction ps as [|p ps IH]; intros n Hn Hb; cbn [visit_all List.length] in *.
  - f_equal. lia.
  - cbn [mbind option_bind]. rewrite to_int32_id by (unfold int_range; lia).
    rewrite IH by lia. f_equal. lia.
Qed.

(** The two indices list the live watches, each once. *)
Lemma registry_ok_elements (r : registry) :
  registry_ok r ->
  elements (tree_wd r) ≡ₚ (map_to_list (heap r)).*1
  /\ elements (tree_filename r) ≡ₚ (map_to_list (heap r)).*1.
Proof.
  intros Hok.
  assert (Hnd : NoDup (map_to_list (heap r)).*1) by apply NoDup_fst_map_to_list.
  assert (Hin : forall p, p ∈ (map_to_list (heap r)).*1 <-> is_Some (heap r !! p)).
  { intros p. rewrite list_elem_of_fmap. split.
    - intros ([q d] & -> & H). apply elem_of_map_to_list in H. now exists d.
    - intros [d Ed]. exists (p, d). split; [reflexivity |].
      now apply elem_of_map_to_list. }
  split; apply NoDup_Permutation; try assumption.
  - exact (bst_NoDup _ _ _ Z.lt_irrefl Z.lt_trans (ok_wd_bst r Hok)).
  - intros p. now rewrite Hin, (ok_wd_live r Hok).
  - exact (bst_NoDup _ _ _ str_lt_irrefl str_lt_trans (ok_fn_bst r Hok)).
  - intros p. now rewrite Hin, (ok_fn_live r Hok).
Qed.

(** There are fewer than 2^31 live watches: their descriptors are
    distinct positive [int]s. *)
Lemma registry_ok_size (r : registry) :
  registry_ok r -> Z.of_nat (size (heap r)) < 2 ^ 31.
Proof.
  intros Hok. destruct (registry_ok_elements r Hok) as [Hp _].
  assert (Hlen : size (heap r) = List.length (elements (tree_wd r))).
  { rewrite Hp, length_fmap. symmetry. apply length_map_to_list. }
  set (l := wd_of (heap r) <$> elements (tree_wd r)).
  assert (Hnd : NoDup l).
  { apply NoDup_fmap_2_strong.
    - intros x y Hx Hy. now apply (bst_key_inj (wd_of (heap r)) Z.lt Z.lt_irrefl
                                     Z.lt_trans (tree_wd r) x y (ok_wd_bst r Hok)).
    - exact (bst_NoDup _ _ _ Z.lt_irrefl Z.lt_trans (ok_wd_bst r Hok)). }
  assert (Hsub : l ⊆+ seqZ 1 (2 ^ 31 - 1)).
  { apply NoDup_submseteq; [exact Hnd |]. intros z Hz.
    apply list_elem_of_fmap in Hz as (q & -> & Hq).
    destruct (registry_ok_wd_nodes r Hok q Hq) as (d & Ed & Hd).
    unfold wd_of. rewrite Ed. apply elem_of_seqZ. lia. }
  apply submseteq_length in Hsub. rewrite length_seqZ in Hsub.
  unfold l in Hsub. rewrite length_fmap in Hsub. rewrite Hlen. lia.
Qed.

(** X7: on a registry that satisfies the invariant,
    [inotifytools_get_num_watches] is the number of live watches; the
    [int] it counts in does not overflow. *)
Theorem get_num_watches_spec (r : registry) :
  registry_ok r ->
  inotifytools_get_num_watches r = Some (Z.of_nat (size (heap r))).
Proof.
  intros Hok. unfold inotifytools_get_num_watches.
  rewrite (rbwalk_visit_all get_num (fun _ n => Some (to_int32 (n + 1))))
    by (intros p [] s; reflexivity).
  destruct (registry_ok_elements r Hok) as [_ Hp].
  assert (Hlen : List.length (walk_order (rbwalk_visits (tree_filename r)))
                 = size (heap r)).
  { rewrite walk_order_visits, Hp, length_fmap. apply length_map_to_list. }
  pose proof (registry_ok_size r Hok).
  rewrite visit_all_get_num by lia. f_equal. lia.
Qed.

Lemma get_num_watches_spec_witness :
  inotifytools_get_num_watches three_watch_registry = Some 3.
Proof. exact (get_num_watches_spec three_watch_registry three_watch_registry_ok). Defined.

(** *** Removal by path *)

(** X8: [inotifytools_remove_watch_by_filename] on a registry that
    satisfies the invariant.  A path of no live watch: 1, nothing
    changes.  The kernel refuses: 0, the status is left in [error] and
    the registry is as before.  The kernel accepts: 1, the watch is freed
    and is found neither by its path nor by its descriptor, and the
    invariant is kept. *)
Theorem remove_watch_by_filename_spec (inotify_rm_watch : Z -> Z) (st : state)
    (f : string) :
  registry_ok (reg st) ->
  ((forall p d, heap (reg st) !! p = Some d -> filename d <> f) ->
   inotifytools_remove_watch_by_filename inotify_rm_watch st f = Some (st, 1))
  /\ (forall w d, heap (reg st) !! w = Some d -> filename d = f ->
      (inotify_rm_watch (wd d) < 0 ->
       exists st',
         inotifytools_remove_watch_by_filename inotify_rm_watch st f = Some (st', 0)
         /\ inotifytools_error st' = inotify_rm_watch (wd d)
         /\ reg st' = reg st)
      /\ (0 <= inotify_rm_watch (wd d) ->
          exists st',
            inotifytools_remove_watch_by_filename inotify_rm_watch st f = Some (st', 1)
            /\ heap (reg st') = delete w (heap (reg st))
            /\ inotifytools_wd_from_filename (reg st') f = Some (-1)
            /\ inotifytools_filename_from_wd (reg st') (wd d) = Some None
            /\ registry_ok (reg st'))).
Proof.
  intros Hok. split.
  - intros Hno. unfold inotifytools_remove_watch_by_filename.
    now rewrite watch_from_filename_none.
  - intros w d Ed <-. unfold inotifytools_remove_watch_by_filename.
    rewrite (watch_from_filename_live _ w d Hok Ed). simpl. split.
    + intros Hneg. unfold remove_watch, remove_inotify_watch. rewrite Ed. simpl.
      destruct (Z.ltb_spec (inotify_rm_watch (wd d)) 0) as [_|?]; [| lia].
      simpl. eexists. split; [reflexivity |]. split; reflexivity.
    + intros Hpos.
      destruct (remove_watch_ok inotify_rm_watch st w d Hok Ed Hpos)
        as (st' & E & Hok' & Hheap & _).
      exists st'. split; [exact E |]. split; [exact Hheap |].
      pose proof (ok_wd_range _ Hok w d Ed) as Hd.
      split; [| split; [| exact Hok']].
      * apply (wd_from_filename_none (reg st') (filename d) Hok').
        intros p e Ee Efn. rewrite Hheap in Ee.
        apply lookup_delete_Some in Ee as [Hne Ee].
        apply Hne. symmetry. exact (registry_ok_filename_inj _ p w e d Hok Ee Ed Efn).
      * apply (filename_from_wd_none (reg st') (wd d) Hok');
          [unfold int_range; lia |].
        intros p e Ee Ewd. rewrite Hheap in Ee.
        apply lookup_delete_Some in Ee as [Hne Ee].
        apply Hne. symmetry. exact (registry_ok_wd_inj _ p w e d Hok Ee Ed Ewd).
Qed.

Lemma remove_watch_by_filename_spec_witness :
  exists st',
    inotifytools_remove_watch_by_filename rm_accept one_watch_state "/tmp/"
    = Some (st', 1)
    /\ inotifytools_wd_from_filename (reg st') "/tmp/" = Some (-1)
    /\ inotifytools_filename_from_wd (reg st') 1 = Some None.
Proof.
  destruct (remove_watch_by_filename_spec rm_accept one_watch_state "/tmp/"
              one_watch_registry_ok) as [_ H].
  destruct (H 1%nat one_watch eq_refl eq_refl) as [_ H2].
  destruct H2 as (st' & E & _ & Hf & Hw & _); [unfold rm_accept; lia |].
  exists st'. repeat split; assumption.
Defined.

(** *** Renaming in place *)

(** X9: on a registry that satisfies the invariant,
    [inotifytools_set_filename_by_wd] and
    [inotifytools_set_filename_by_filename] replace the path stored in
    the watch they find and leave the descriptor index working: every
    descriptor resolves to the same watch as before, and the descriptor
    of the renamed watch resolves to the new path.  A key of no live
    watch changes nothing. *)
Theorem set_filename_keeps_wd_index (r : registry) (name : string) :
  registry_ok r ->
  (forall p d, heap r !! p = Some d ->
     exists r',
       inotifytools_set_filename_by_wd r (wd d) name = Some r'
       /\ inotifytools_set_filename_by_filename r (filename d) name = Some r'
       /\ inotifytools_filename_from_wd r' (wd d) = Some (Some name)
       /\ (forall wd0, watch_from_wd r' wd0 = watch_from_wd r wd0)
       /\ (forall q, q <> p -> heap r' !! q = heap r !! q))
  /\ (forall wd0, int_range wd0 ->
        (forall p d, heap r !! p = Some d -> wd d <> wd0) ->
        inotifytools_set_filename_by_wd r wd0 name = Some r)
  /\ (forall f, (forall p d, heap r !! p = Some d -> filename d <> f) ->
        inotifytools_set_filename_by_filename r f name = Some r).
Proof.
  intros Hok. split; [| split].
  - intros p d Ed.
    unfold inotifytools_set_filename_by_wd, inotifytools_set_filename_by_filename.
    rewrite (watch_from_wd_live r p d Hok Ed), (watch_from_filename_live r p d Hok Ed).
    cbn [mbind option_bind]. eexists. split; [reflexivity |]. split; [reflexivity |].
    assert (Hwd : forall wd0,
              watch_from_wd (mkRegistry (set_filename (heap r) p name) (brk r)
                                        (tree_wd r) (tree_filename r)) wd0
              = watch_from_wd r wd0).
    { intros wd0. unfold watch_from_wd. cbn [heap tree_wd]. apply rbfind_ext.
      intros q _. unfold cmp_wd.
      destruct (decide (q = p)) as [->|Hne].
      - rewrite (set_filename_eq _ _ d) by assumption. now rewrite Ed.
      - now rewrite set_filename_ne. }
    split; [| split; [exact Hwd |]].
    + unfold inotifytools_filename_from_wd. rewrite Hwd.
      rewrite (watch_from_wd_live r p d Hok Ed). cbn [mbind option_bind heap].
      now rewrite (set_filename_eq _ _ d).
    + intros q Hne. cbn [heap]. now apply set_filename_ne.
  - intros wd0 Hwd Hno. unfold inotifytools_set_filename_by_wd.
    now rewrite watch_from_wd_none.
  - intros f Hno. unfold inotifytools_set_filename_by_filename.
    now rewrite watch_from_filename_none.
Qed.

Lemma set_filename_keeps_wd_index_witness :
  exists r',
    inotifytools_set_filename_by_wd three_watch_registry 2 "z" = Some r'
    /\ inotifytools_set_filename_by_filename three_watch_registry "a" "z" = Some r'
    /\ inotifytools_filename_from_wd r' 2 = Some (Some "z")
    /\ watch_from_wd r' 3 = watch_from_wd three_watch_registry 3.
Proof.
  destruct (set_filename_keeps_wd_index three_watch_registry "z"
              three_watch_registry_ok) as [H _].
  destruct (H 2%nat (mkWatch "a" 2 zero_counters) eq_refl)
    as (r' & E1 & E2 & E3 & E4 & _).
  exists r'. split; [exact E1 |]. split; [exact E2 |]. split; [exact E3 |].
  apply E4.
Defined.

(** *** Shutting down *)

Lemma visit_all_destroy (ps : list ptr) :
  NoDup ps ->
  forall r, (forall p, p ∈ ps -> is_Some (heap r !! p)) ->
  exists r',
    visit_all (fun p r => _ ← heap r !! p; Some (destroy_watch r p)) ps r = Some r'
    /\ brk r' = brk r
    /\ (forall q, q ∈ ps -> heap r' !! q = None)
    /\ (forall q, q ∉ ps -> heap r' !! q = heap r !! q).
Proof.
  induction 1 as [|p ps Hp Hnd IH]; intros r Hlive.
  - exists r. split; [reflexivity |]. split; [reflexivity |].
    split; [intros q Hq; now apply elem_of_nil in Hq | reflexivity].
  - cbn [visit_all]. destruct (Hlive p) as [d Ed]; [now apply elem_of_cons; left |].
    rewrite Ed. cbn [mbind option_bind].
    destruct (IH (destroy_watch r p)) as (r' & E & Hb & Hin & Hout).
    { intros q Hq. cbn [destroy_watch heap]. rewrite lookup_delete_ne.
      - apply Hlive. now apply elem_of_cons; right.
      - intros <-. contradiction. }
    exists r'. split; [exact E |]. split; [exact Hb |]. split.
    + intros q Hq. apply elem_of_cons in Hq as [->|Hq]; [| now apply Hin].
      rewrite Hout by assumption. cbn [destroy_watch heap]. apply lookup_delete_eq.
    + intros q Hq. apply not_elem_of_cons in Hq as [Hne Hq].
      rewrite Hout by assumption. cbn [destroy_watch heap].
      now apply lookup_delete_ne.
Qed.

(** X10: [inotifytools_cleanup] frees every watch: on an initialised
    library whose registry satisfies the invariant it leaves no live
    watch and empty indices, switches statistics and the filter off and
    clears [error]; a following [inotifytools_initialize] starts from a
    registry that satisfies the invariant.  On a library that is not
    initialised it does nothing. *)
Theorem cleanup_frees_all (st : state) :
  (init st = false -> inotifytools_cleanup st = Some st)
  /\ (registry_ok (reg st) -> init st = true ->
      exists st',
        inotifytools_cleanup st = Some st'
        /\ heap (reg st') = ∅
        /\ tree_wd (reg st') = RBNULL /\ tree_filename (reg st') = RBNULL
        /\ init st' = false /\ collect_stats st' = false
        /\ inotifytools_error st' = 0 /\ regex st' = None /\ timefmt st' = None
        /\ forall fd, 0 <= fd ->
           exists st'', inotifytools_initialize fd st' = (st'', 1)
                        /\ init st'' = true /\ registry_ok (reg st'')
                        /\ inotifytools_get_num_watches (reg st'') = Some 0).
Proof.
  split.
  - intros E. unfold inotifytools_cleanup. now rewrite E.
  - intros Hok E. unfold inotifytools_cleanup. rewrite E. cbn [negb].
    rewrite (rbwalk_visit_all cleanup_tree
               (fun p r => _ ← heap r !! p; Some (destroy_watch r p)))
      by (intros p [] s; reflexivity).
    destruct (visit_all_destroy (walk_order (rbwalk_visits (tree_wd (reg st)))))
      with (r := reg st) as (r' & Ew & Hb & Hin & _).
    { rewrite walk_order_visits.
      exact (bst_NoDup _ _ _ Z.lt_irrefl Z.lt_trans (ok_wd_bst _ Hok)). }
    { intros p Hp. rewrite walk_order_visits in Hp. now apply (ok_wd_live _ Hok). }
    rewrite Ew. cbn [mbind option_bind].
    assert (Hempty : heap r' = ∅).
    { apply map_eq. intros q. rewrite lookup_empty.
      destruct (heap (reg st) !! q) as [d|] eqn:Ed.
      - apply Hin. rewrite walk_order_visits. apply (ok_wd_live _ Hok). now exists d.
      - destruct (heap r' !! q) as [e|] eqn:Ee; [| reflexivity].
        exfalso.
        assert (Hq : q ∉ walk_order (rbwalk_visits (tree_wd (reg st)))).
        { rewrite walk_order_visits. intros Hq. apply (ok_wd_live _ Hok) in Hq as [? ?].
          congruence. }
        destruct (visit_all_destroy (walk_order (rbwalk_visits (tree_wd (reg st)))))
          with (r := reg st) as (r2 & Ew2 & _ & _ & Hout).
        { rewrite walk_order_visits.
          exact (bst_NoDup _ _ _ Z.lt_irrefl Z.lt_trans (ok_wd_bst _ Hok)). }
        { intros p Hp. rewrite walk_order_visits in Hp. now apply (ok_wd_live _ Hok). }
        rewrite Ew in Ew2. injection Ew2 as <-. rewrite Hout in Ee by assumption.
        congruence. }
    eexists. split; [reflexivity |].
    cbn [reg heap tree_wd tree_filename init collect_stats error regex timefmt
         inotifytools_error].
    repeat (split; [first [exact Hempty | reflexivity] |]).
    intros fd Hfd. unfold inotifytools_initialize. cbn [init set_error].
    destruct (Z.ltb_spec fd 0) as [?|_]; [lia |].
    eexists. split; [reflexivity |]. cbn [reg init heap brk]. split; [reflexivity |].
    rewrite Hempty. split; [| reflexivity].
    split; cbn [heap brk tree_wd tree_filename bst elements reg set_error]; try exact I.
    + intros p. rewrite elem_of_nil, lookup_empty. split; [tauto | now intros [? ?]].
    + intros p. rewrite elem_of_nil, lookup_empty. split; [tauto | now intros [? ?]].
    + intros p d. now rewrite lookup_empty.
    + intros p _. apply lookup_empty.
Qed.

Lemma cleanup_frees_all_witness :
  exists st',
    inotifytools_cleanup three_watch_state = Some st'
    /\ heap (reg st') = ∅ /\ init st' = false.
Proof.
  destruct (cleanup_frees_all three_watch_state) as [_ H].
  destruct (H three_watch_registry_ok eq_refl) as (st' & E & Hh & _ & _ & Hi & _).
  exists st'. repeat split; assumption.
Defined.

(** ** StatsCollector: further properties *)

Lemma stat_of_count_event (mask event : Z) (c : counters) :
  stat_of (count_event mask c) event
  = if (event =? 0) || negb (Z.land event mask =? 0)
    then incr <$> stat_of c event
    else stat_of c event.
Proof.
  unfold stat_of.
  repeat match goal with
         | |- context [event =? ?k] =>
           destruct (Z.eqb_spec event k) as [->|?];
           [cbn [orb negb count_event c_access c_modify c_attrib c_close_nowrite
                 c_close_write c_open c_move_self c_moved_from c_moved_to c_create
                 c_delete c_delete_self c_unmount c_total];
            match goal with
            | |- context [Z.land ?f mask =? 0] =>
              change (f =? 0) with false; cbn [orb];
              destruct (Z.land f mask =? 0); reflexivity
            | _ => reflexivity
            end |]
         end.
  cbn [orb]. destruct (negb (Z.land event mask =? 0)); reflexivity.
Qed.

(** The invariant only reads the paths and the descriptors. *)
Lemma registry_ok_same_keys (r : registry) (h' : gmap ptr watch) :
  registry_ok r ->
  (forall p, match heap r !! p, h' !! p with
             | Some d, Some d' => filename d' = filename d /\ wd d' = wd d
             | None, None => True
             | _, _ => False
             end) ->
  registry_ok (mkRegistry h' (brk r) (tree_wd r) (tree_filename r)).
Proof.
  intros Hok Hsame.
  assert (Hlive : forall p, is_Some (h' !! p) <-> is_Some (heap r !! p)).
  { intros p. specialize (Hsame p).
    destruct (heap r !! p), (h' !! p); try contradiction;
      split; intros [? ?]; (discriminate || eauto). }
  split; cbn [heap brk tree_wd tree_filename].
  - apply bst_ext with (key := wd_of (heap r)); [| exact (ok_wd_bst r Hok)].
    intros p _. unfold wd_of. specialize (Hsame p).
    destruct (heap r !! p), (h' !! p); try contradiction; [| reflexivity].
    symmetry. apply Hsame.
  - apply bst_ext with (key := filename_of (heap r)); [| exact (ok_fn_bst r Hok)].
    intros p _. unfold filename_of. specialize (Hsame p).
    destruct (heap r !! p), (h' !! p); try contradiction; [| reflexivity].
    symmetry. apply Hsame.
  - intros p. rewrite Hlive. apply (ok_wd_live r Hok).
  - intros p. rewrite Hlive. apply (ok_fn_live r Hok).
  - intros p d' Ed'. specialize (Hsame p). rewrite Ed' in Hsame.
    destruct (heap r !! p) as [d|] eqn:Ed; [| contradiction].
    destruct Hsame as [_ ->]. exact (ok_wd_range r Hok p d Ed).
  - intros p Hp. specialize (Hsame p). rewrite (ok_brk r Hok p Hp) in Hsame.
    destruct (h' !! p); [contradiction | reflexivity].
Qed.

(** X11: [record_stats] on an event whose descriptor is that of a live
    watch: the total is bumped once, each of the thirteen kinds is bumped
    when the event's mask has its bit, the tallies of the watch and those
    of the library move together, and nothing else changes: no path, no
    descriptor, no other watch.  [kind] ranges over what [stat_ptr]
    accepts, 0 standing for the total. *)
Theorem record_stats_tallies (st : state) (event : inotify_event)
    (w : ptr) (d : watch) :
  registry_ok (reg st) -> heap (reg st) !! w = Some d -> ev_wd event = wd d ->
  exists st' d',
    record_stats st event = Some st'
    /\ registry_ok (reg st')
    /\ heap (reg st') !! w = Some d'
    /\ filename d' = filename d /\ wd d' = wd d
    /\ (forall q, q <> w -> heap (reg st') !! q = heap (reg st) !! q)
    /\ forall kind,
         let counted (x : option Z) :=
           if (kind =? 0) || negb (Z.land kind (ev_mask event) =? 0)
           then incr <$> x else x in
         stat_of (hit d') kind = counted (stat_of (hit d) kind)
         /\ stat_of (num st') kind = counted (stat_of (num st) kind).
Proof.
  intros Hok Ed Ewd. unfold record_stats.
  rewrite Ewd, (watch_from_wd_live _ w d Hok Ed). cbn [mbind option_bind].
  rewrite Ed. cbn [mbind option_bind].
  eexists _, _. split; [reflexivity |].
  cbn [reg set_num set_reg heap num].
  split; [| split; [apply lookup_insert_eq | split; [reflexivity | split;
    [reflexivity | split]]]].
  - apply registry_ok_same_keys; [exact Hok |]. intros p.
    destruct (decide (p = w)) as [->|Hne].
    + rewrite Ed, lookup_insert_eq. now split.
    + rewrite lookup_insert_ne by congruence.
      destruct (heap (reg st) !! p); [now split | exact I].
  - intros q Hne. now rewrite lookup_insert_ne by congruence.
  - intros kind. cbn [hit]. split; apply stat_of_count_event.
Qed.

Lemma record_stats_tallies_witness :
  exists st',
    record_stats skip_state keep_event = Some st'
    /\ inotifytools_get_stat_by_wd st' 1 IN_MODIFY = Some 1
    /\ inotifytools_get_stat_by_wd st' 1 IN_CREATE = Some 0
    /\ inotifytools_get_stat_total st' 0 = 1.
Proof.
  destruct (record_stats_tallies skip_state keep_event 1%nat one_watch
              one_watch_registry_ok eq_refl eq_refl)
    as (st' & d' & E & _ & _ & _ & _ & _ & _).
  exists st'. split; [exact E |].
  vm_compute in E. injection E as <-. vm_compute. repeat split.
Defined.

Lemma visit_all_empty_stats (ps : list ptr) :
  NoDup ps ->
  forall h : gmap ptr watch, (forall p, p ∈ ps -> is_Some (h !! p)) ->
  exists h',
    visit_all (fun p (h : gmap ptr watch) => d ← h !! p;
                          Some (<[p := mkWatch (filename d) (wd d) zero_counters]> h))
              ps h = Some h'
    /\ (forall q d, q ∈ ps -> h !! q = Some d ->
          h' !! q = Some (mkWatch (filename d) (wd d) zero_counters))
    /\ (forall q, q ∉ ps -> h' !! q = h !! q).
Proof.
  induction 1 as [|p ps Hp Hnd IH]; intros h Hlive.
  - exists h. split; [reflexivity |].
    split; [intros q d Hq; now apply elem_of_nil in Hq | reflexivity].
  - cbn [visit_all]. destruct (Hlive p) as [d Ed]; [now apply elem_of_cons; left |].
    rewrite Ed. cbn [mbind option_bind].
    set (h1 := <[p := mkWatch (filename d) (wd d) zero_counters]> h).
    destruct (IH h1) as (h' & E & Hin & Hout).
    { intros q Hq. unfold h1. rewrite lookup_insert_ne by (intros <-; contradiction).
      apply Hlive. now apply elem_of_cons; right. }
    exists h'. split; [exact E |]. split.
    + intros q e Hq Ee. apply elem_of_cons in Hq as [->|Hq].
      * rewrite Hout by assumption. unfold h1. rewrite lookup_insert_eq. congruence.
      * apply Hin; [assumption |]. unfold h1.
        now rewrite lookup_insert_ne by (intros <-; contradiction).
    + intros q Hq. apply not_elem_of_cons in Hq as [Hne Hq].
      rewrite Hout by assumption. unfold h1. now rewrite lookup_insert_ne by congruence.
Qed.

(** X12: [inotifytools_initialize_stats] switches collection on and
    zeroes the library's tallies; when collection was already on it also
    zeroes the tallies of every watch, and otherwise leaves them as they
    are.  Paths, descriptors and both indices are untouched. *)
Theorem initialize_stats_resets (st : state) :
  registry_ok (reg st) ->
  exists st',
    inotifytools_initialize_stats st = Some st'
    /\ collect_stats st' = true
    /\ num st' = zero_counters
    /\ registry_ok (reg st')
    /\ tree_wd (reg st') = tree_wd (reg st)
    /\ tree_filename (reg st') = tree_filename (reg st)
    /\ (forall p, heap (reg st') !! p
                  = (fun d => mkWatch (filename d) (wd d)
                                (if collect_stats st then zero_counters else hit d))
                    <$> heap (reg st) !! p)
    /\ (collect_stats st = true ->
        forall p d kind x,
          heap (reg st) !! p = Some d -> stat_of zero_counters kind = Some x ->
          inotifytools_get_stat_by_wd st' (wd d) kind = Some 0
          /\ inotifytools_get_stat_total st' kind = 0).
Proof.
  intros Hok. unfold inotifytools_initialize_stats.
  assert (Hwalk : exists h',
    (if collect_stats st
     then rbwalk empty_stats (rbwalk_visits (tree_wd (reg st))) (heap (reg st))
     else Some (heap (reg st))) = Some h'
    /\ forall p, h' !! p
                 = (fun d => mkWatch (filename d) (wd d)
                               (if collect_stats st then zero_counters else hit d))
                   <$> heap (reg st) !! p).
  { destruct (collect_stats st).
    - rewrite (rbwalk_visit_all empty_stats
                 (fun p h => d ← h !! p;
                    Some (<[p := mkWatch (filename d) (wd d) zero_counters]> h)))
        by (intros p [] s; reflexivity).
      destruct (visit_all_empty_stats (walk_order (rbwalk_visits (tree_wd (reg st)))))
        with (h := heap (reg st)) as (h' & E & Hin & Hout).
      { rewrite walk_order_visits.
        exact (bst_NoDup _ _ _ Z.lt_irrefl Z.lt_trans (ok_wd_bst _ Hok)). }
      { intros p Hp. rewrite walk_order_visits in Hp. now apply (ok_wd_live _ Hok). }
      exists h'. split; [exact E |]. intros p.
      destruct (heap (reg st) !! p) as [d|] eqn:Ed; cbn [fmap option_fmap option_map].
      + apply Hin; [| exact Ed]. rewrite walk_order_visits.
        apply (ok_wd_live _ Hok). now exists d.
      + rewrite Hout; [exact Ed |]. rewrite walk_order_visits. intros Hp.
        apply (ok_wd_live _ Hok) in Hp as [? ?]. congruence.
    - exists (heap (reg st)). split; [reflexivity |]. intros p.
      destruct (heap (reg st) !! p) as [[f w c]|]; reflexivity. }
  destruct Hwalk as (h' & -> & Hh'). cbn [mbind option_bind].
  eexists. split; [reflexivity |].
  cbn [collect_stats num reg tree_wd tree_filename heap].
  assert (Hok' : registry_ok (mkRegistry h' (brk (reg st)) (tree_wd (reg st))
                                         (tree_filename (reg st)))).
  { apply registry_ok_same_keys; [exact Hok |]. intros p. rewrite Hh'.
    destruct (heap (reg st) !! p); cbn [fmap option_fmap option_map]; [now split | exact I]. }
  repeat (split; [first [reflexivity | exact Hok' | exact Hh'] |]).
  intros Hon p d kind x Ed Ekind. split.
  - unfold inotifytools_get_stat_by_wd. cbn [collect_stats negb reg].
    assert (Ed' : h' !! p = Some (mkWatch (filename d) (wd d) zero_counters)).
    { rewrite Hh', Ed, Hon. reflexivity. }
    pose proof (watch_from_wd_live _ p _ Hok' Ed') as Hw. cbn [wd] in Hw.
    rewrite Hw. cbn [mbind option_bind heap].
    rewrite Ed'. cbn [mbind option_bind hit]. rewrite Ekind.
    unfold stat_of in Ekind.
    repeat match type of Ekind with
           | (if ?b then _ else _) = _ => destruct b; [now injection Ekind as <- |]
           end.
    discriminate.
  - unfold inotifytools_get_stat_total. cbn [collect_stats negb num]. rewrite Ekind.
    unfold stat_of in Ekind.
    repeat match type of Ekind with
           | (if ?b then _ else _) = _ => destruct b; [now injection Ekind as <- |]
           end.
    discriminate.
Qed.

Lemma initialize_stats_resets_witness :
  exists st',
    inotifytools_initialize_stats skip_state = Some st'
    /\ collect_stats st' = true
    /\ num st' = zero_counters
    /\ registry_ok (reg st').
Proof.
  destruct (initialize_stats_resets skip_state one_watch_registry_ok)
    as (st' & E & H1 & H2 & H3 & _).
  exists st'. split; [exact E |]. split; [exact H1 |]. split; [exact H2 | exact H3].
Defined.

Lemma rbfind_defined (cmp : ptr -> option Z) (t : rbtree) :
  (forall p, p ∈ elements t -> is_Some (cmp p)) -> is_Some (rbfind cmp t).
Proof.
  induction t as [|l IHl k r IHr]; simpl; intros H; [now eexists |].
  destruct (H k) as [c ->]; [apply elem_of_app; right; now apply elem_of_cons; left |].
  simpl. destruct (c =? 0); [now eexists |].
  destruct (c <? 0).
  - apply IHl. intros p Hp. apply H. apply elem_of_app. now left.
  - apply IHr. intros p Hp. apply H. apply elem_of_app. right.
    now apply elem_of_cons; right.
Qed.

(** X13: on a registry that satisfies the invariant,
    [inotifytools_get_stat_by_filename] answers like
    [inotifytools_get_stat_by_wd] for the descriptor of the watch with
    that path: the tally of [event] for a kind [stat_ptr] accepts, -1 for
    any other [event]; for a path of no live watch, and whenever
    statistics are not collected, it answers -1. *)
Theorem get_stat_by_filename_spec (st : state) (f : string) (event : Z) :
  registry_ok (reg st) ->
  (collect_stats st = false ->
   inotifytools_get_stat_by_filename st f event = Some (-1))
  /\ ((forall p d, heap (reg st) !! p = Some d -> filename d <> f) ->
      inotifytools_get_stat_by_filename st f event = Some (-1))
  /\ (forall p d, heap (reg st) !! p = Some d -> filename d = f ->
      collect_stats st = true ->
      inotifytools_get_stat_by_filename st f event
      = inotifytools_get_stat_by_wd st (wd d) event
      /\ inotifytools_get_stat_by_filename st f event
         = Some (match stat_of (hit d) event with
                 | Some i => to_int32 i
                 | None => -1
                 end)).
Proof.
  intros Hok.
  assert (Hdef : exists wd0, inotifytools_wd_from_filename (reg st) f = Some wd0).
  { unfold inotifytools_wd_from_filename.
    destruct (rbfind_defined (cmp_filename (heap (reg st)) (key_filename f))
                (tree_filename (reg st))) as [[p|] E].
    { intros p Hp. apply (ok_fn_live _ Hok) in Hp as [d Ed].
      unfold cmp_filename. rewrite Ed. now eexists. }
    - unfold watch_from_filename. rewrite E. cbn [mbind option_bind].
      apply rbfind_elem in E as [Hp _]. apply (ok_fn_live _ Hok) in Hp as [d Ed].
      rewrite Ed. now eexists.
    - unfold watch_from_filename. rewrite E. now eexists. }
  split; [| split].
  - intros Eoff. unfold inotifytools_get_stat_by_filename.
    destruct Hdef as [wd0 ->]. cbn [mbind option_bind].
    unfold inotifytools_get_stat_by_wd. now rewrite Eoff.
  - intros Hno. unfold inotifytools_get_stat_by_filename.
    rewrite (wd_from_filename_none (reg st) f Hok Hno).
    cbn [mbind option_bind]. unfold inotifytools_get_stat_by_wd.
    destruct (collect_stats st); cbn [negb]; [| reflexivity].
    rewrite watch_from_wd_none; [reflexivity | exact Hok | unfold int_range; lia |].
    intros p d Ed. pose proof (ok_wd_range _ Hok p d Ed). lia.
  - intros p d Ed <- Eon. unfold inotifytools_get_stat_by_filename.
    rewrite (wd_from_filename_live (reg st) p d Hok Ed). cbn [mbind option_bind]. split; [reflexivity |].
    unfold inotifytools_get_stat_by_wd. rewrite Eon. cbn [negb].
    rewrite (watch_from_wd_live _ p d Hok Ed). cbn [mbind option_bind].
    rewrite Ed. cbn [mbind option_bind]. now destruct (stat_of (hit d) event).
Qed.

Lemma get_stat_by_filename_spec_witness :
  inotifytools_get_stat_by_filename skip_state "/tmp/" IN_MODIFY = Some 0
  /\ inotifytools_get_stat_by_filename skip_state "/tmp/" IN_CLOSE = Some (-1)
  /\ inotifytools_get_stat_by_filename skip_state "/nowhere" IN_MODIFY = Some (-1).
Proof.
  destruct (get_stat_by_filename_spec skip_state "/tmp/" IN_MODIFY
              one_watch_registry_ok) as (_ & _ & H1).
  destruct (get_stat_by_filename_spec skip_state "/tmp/" IN_CLOSE
              one_watch_registry_ok) as (_ & _ & H2).
  destruct (get_stat_by_filename_spec skip_state "/nowhere" IN_MODIFY
              one_watch_registry_ok) as (_ & H3 & _).
  split; [| split].
  - exact (proj2 (H1 1%nat one_watch eq_refl eq_refl eq_refl)).
  - exact (proj2 (H2 1%nat one_watch eq_refl eq_refl eq_refl)).
  - apply H3. intros p d Ed. apply one_watch_only in Ed as [_ ->]. discriminate.
Defined.

(** ** EventCodec: further properties *)

Lemma head_char_take (n : nat) (t : string) :
  (0 < n)%nat -> head_char (take n t) = head_char t.
Proof. destruct n, t; simpl; (lia || reflexivity). Qed.

Lemma strlen_take (n : nat) (t : string) :
  String.length (take n t) = Nat.min n (String.length t).
Proof.
  revert t. induction n as [|n IH]; intros [|c t]; simpl; try reflexivity.
  now rewrite IH.
Qed.

(** A string longer than every name of the vocabulary is no event name. *)
Lemma onestr_long (t : string) :
  (13 < String.length t)%nat ->
  onestr_to_event (Some t) = if Ascii.eqb (head_char t) NUL then 0 else -1.
Proof.
  intros Hlen. unfold onestr_to_event.
  destruct (Ascii.eqb (head_char t) NUL); [reflexivity |].
  repeat match goal with
  | |- context [if strcaseeq ?a ?b then _ else _] =>
      let E := fresh "E" in
      destruct (strcaseeq a b) eqn:E;
      [ apply strcaseeq_length in E; rewrite E in Hlen; simpl in Hlen; lia |]
  end.
  reflexivity.
Qed.

(** The [len > 4095] clamp never changes what a token comes to. *)
Lemma onestr_clamp (t : string) :
  onestr_to_event
    (Some (take (Z.to_nat (if 4095 <? strlen t then 4095 else strlen t)) t))
  = onestr_to_event (Some t).
Proof.
  unfold strlen. destruct (Z.ltb_spec 4095 (Z.of_nat (String.length t))) as [H|H].
  - rewrite !onestr_long.
    + rewrite head_char_take by lia. reflexivity.
    + lia.
    + rewrite strlen_take. lia.
  - rewrite Nat2Z.id, take_all. reflexivity.
Qed.

(** The first token and the rest of the string. *)
Lemma tokens_cons (sep : ascii) (s : string) :
  sep <> NUL ->
  (strchr s sep = None /\ tokens sep s = [s])
  \/ exists t s', s = t +:+ String sep s' /\ sep_free sep t
                  /\ tokens sep s = t :: tokens sep s'.
Proof.
  intros Hsep. apply Ascii.eqb_neq in Hsep.
  induction s as [|c s IH].
  - left. simpl. now rewrite Hsep.
  - simpl. destruct (Ascii.eqb c sep) eqn:E.
    + right. apply Ascii.eqb_eq in E. subst c.
      exists EmptyString, s. split; [reflexivity |]. split; [| reflexivity].
      unfold sep_free. simpl. now rewrite Hsep.
    + destruct IH as [[Hnone Htok]|(t & s' & -> & Hfree & Htok)].
      * left. rewrite Htok. split; [exact Hnone | reflexivity].
      * right. exists (String c t), s'. split; [reflexivity |].
        split; [unfold sep_free in *; simpl; now rewrite E |].
        now rewrite Htok.
Qed.

Lemma tokens_head_NUL (sep : ascii) (s : string) (acc : Z) :
  sep <> NUL -> Ascii.eqb (head_char s) NUL = true ->
  parse_tokens (tokens sep s) acc = 0.
Proof.
  intros Hsep Hhd.
  assert (H : exists t ts, tokens sep s = t :: ts
                           /\ Ascii.eqb (head_char t) NUL = true).
  { destruct s as [|c s]; [now exists EmptyString, [] |].
    cbn [head_char] in Hhd. apply Ascii.eqb_eq in Hhd. subst c. cbn [tokens].
    assert (E : Ascii.eqb NUL sep = false) by (apply Ascii.eqb_neq; congruence).
    rewrite E. destruct (tokens sep s) as [|t ts]; eexists _, _; split; reflexivity. }
  destruct H as (t & ts & -> & Ht). cbn [parse_tokens].
  unfold onestr_to_event. rewrite Ht. reflexivity.
Qed.

(** The loop of [inotifytools_str_to_event_sep] computes [parse_tokens];
    a fuel above the length of the string is enough. *)
Lemma loop_parse_tokens (sep : ascii) :
  sep <> NUL ->
  forall (fuel : nat) (s : string) (acc : Z),
  (String.length s < fuel)%nat -> Ascii.eqb (head_char s) NUL = false ->
  str_to_event_loop fuel sep (Some s) (strchr s sep) acc
  = Some (parse_tokens (tokens sep s) acc).
Proof.
  intros Hsep. induction fuel as [|fuel IH]; intros s acc Hfuel Hhd; [lia |].
  assert (Hsep' : Ascii.eqb sep NUL = false) by now apply Ascii.eqb_neq.
  destruct (tokens_cons sep s Hsep) as [[Hnone Htok]|(t & s' & -> & Hfree & Htok)].
  - rewrite Hnone, Htok. cbn [str_to_event_loop parse_tokens]. rewrite Hhd.
    rewrite onestr_clamp.
    destruct ((onestr_to_event (Some s) =? 0) || (onestr_to_event (Some s) =? -1));
      [reflexivity |].
    destruct fuel as [|fuel]; [| reflexivity].
    destruct s; [discriminate | simpl in Hfuel; lia].
  - rewrite Htok. rewrite strchr_append_free by (exact Hfree || discriminate).
    rewrite strchr_head. cbn [str_to_event_loop parse_tokens]. rewrite Hhd.
    assert (Elen : strlen (t +:+ String sep s') - strlen (String sep s') = strlen t).
    { unfold strlen. rewrite length_append. lia. }
    rewrite Elen.
    assert (Etake : forall n, (n <= String.length t)%nat ->
                              take n (t +:+ String sep s') = take n t).
    { clear. intros n. revert t. induction n as [|n IHn]; intros [|c t] H; simpl in *;
        try reflexivity; try lia. rewrite IHn by lia. reflexivity. }
    rewrite Etake
      by (unfold strlen; destruct (Z.ltb_spec 4095 (Z.of_nat (String.length t))); lia).
    rewrite onestr_clamp.
    destruct ((onestr_to_event (Some t) =? 0) || (onestr_to_event (Some t) =? -1));
      [reflexivity |].
    cbn [head_char tail]. rewrite Hsep'.
    destruct (Ascii.eqb (head_char s') NUL) eqn:Es'.
    + now rewrite tokens_head_NUL.
    + apply IH; [| exact Es'].
      rewrite length_append in Hfuel. simpl in Hfuel. lia.
Qed.

Lemma str_to_event_sep_parse_tokens (sep : ascii) (event : string) :
  inotifytools_str_to_event_sep (Some event) sep
  = Some (match strchr sep_letters sep with
          | Some _ => -1
          | None => parse_tokens (tokens sep event) 0
          end).
Proof.
  unfold inotifytools_str_to_event_sep.
  destruct (strchr sep_letters sep) eqn:Hsep; [reflexivity |].
  assert (Hnul : sep <> NUL) by exact (strchr_None_not_NUL _ _ Hsep).
  destruct (Ascii.eqb (head_char event) NUL) eqn:Ehd.
  - now rewrite tokens_head_NUL.
  - apply loop_parse_tokens; [assumption | lia | assumption].
Qed.

(** X14: [inotifytools_str_to_event_sep] with a separator it accepts
    computes, and always returns, what the tokens between the separators
    come to: 0 at the first empty token, -1 at the first token that is no
    event name, whichever comes first, and the union of the values of all
    tokens when there is neither.  With a letter, an underscore or the
    terminator as the separator it returns -1. *)
Theorem str_to_event_sep_tokens (sep : ascii) (event : string) :
  inotifytools_str_to_event_sep (Some event) sep
  = Some (match strchr sep_letters sep with
          | Some _ => -1
          | None => parse_tokens (tokens sep event) 0
          end).
Proof. apply str_to_event_sep_parse_tokens. Qed.

(** *** Letter case *)

Lemma tolower_idem (c : ascii) : tolower (tolower c) = tolower c.
Proof. destruct c as [[] [] [] [] [] [] [] []]; reflexivity. Qed.

Lemma tolower_NUL (c : ascii) : Ascii.eqb (tolower c) NUL = Ascii.eqb c NUL.
Proof. destruct c as [[] [] [] [] [] [] [] []]; reflexivity. Qed.

Lemma strlower_idem (s : string) : strlower (strlower s) = strlower s.
Proof. induction s as [|c s IH]; simpl; [reflexivity |]. now rewrite tolower_idem, IH. Qed.

Lemma head_char_strlower (s : string) :
  Ascii.eqb (head_char (strlower s)) NUL = Ascii.eqb (head_char s) NUL.
Proof. destruct s as [|c s]; [reflexivity |]. apply tolower_NUL. Qed.

Lemma onestr_strlower (t : string) :
  onestr_to_event (Some (strlower t)) = onestr_to_event (Some t).
Proof.
  unfold onestr_to_event, strcaseeq.
  now rewrite head_char_strlower, strlower_idem.
Qed.

Lemma strchr_None_all (s : string) (c a : ascii) :
  strchr s c = None ->
  existsb (Ascii.eqb a) (list_ascii_of_string s) = true -> Ascii.eqb a c = false.
Proof.
  induction s as [|x s IH]; simpl; [discriminate |].
  destruct (Ascii.eqb x c) eqn:E; [discriminate |].
  intros Hs Ha. apply orb_true_iff in Ha as [Ha|Ha]; [| now apply IH].
  apply Ascii.eqb_eq in Ha. now subst x.
Qed.

(** A separator the parser accepts is no letter, so folding the case of
    a character does not make it one. *)
Lemma tolower_sep (sep c : ascii) :
  valid_sep sep -> Ascii.eqb (tolower c) sep = Ascii.eqb c sep.
Proof.
  intros Hsep. pose proof (fun a => strchr_None_all sep_letters sep a Hsep) as H.
  destruct c as [[] [] [] [] [] [] [] []]; try reflexivity;
    rewrite !H by reflexivity; reflexivity.
Qed.

Lemma tokens_strlower (sep : ascii) (s : string) :
  valid_sep sep -> tokens sep (strlower s) = map strlower (tokens sep s).
Proof.
  intros Hsep. induction s as [|c s IH]; [reflexivity |].
  cbn [strlower tokens]. rewrite tolower_sep by assumption.
  destruct (Ascii.eqb c sep); [cbn [map]; now rewrite IH |].
  rewrite IH. destruct (tokens sep s); reflexivity.
Qed.

Lemma parse_tokens_strlower (ts : list string) (acc : Z) :
  parse_tokens (map strlower ts) acc = parse_tokens ts acc.
Proof.
  revert acc. induction ts as [|t ts IH]; intros acc; [reflexivity |].
  cbn [map parse_tokens]. rewrite onestr_strlower.
  destruct (_ || _); [reflexivity | apply IH].
Qed.

(** X15: [inotifytools_str_to_event_sep] does not tell upper case from
    lower case: two event strings that differ in the case of letters only
    come to the same result, with any separator. *)
Theorem str_to_event_sep_ignores_case (sep : ascii) (a b : string) :
  strlower a = strlower b ->
  inotifytools_str_to_event_sep (Some a) sep
  = inotifytools_str_to_event_sep (Some b) sep.
Proof.
  intros E. rewrite !str_to_event_sep_parse_tokens.
  destruct (strchr sep_letters sep) eqn:Hsep; [reflexivity |].
  rewrite <- (parse_tokens_strlower (tokens sep a)),
          <- (parse_tokens_strlower (tokens sep b)).
  rewrite <- !tokens_strlower by exact Hsep. now rewrite E.
Qed.

Lemma str_to_event_sep_ignores_case_witness :
  inotifytools_str_to_event_sep (Some "Modify:close_WRITE") ":"
  = inotifytools_str_to_event_sep (Some "MODIFY:CLOSE_write") ":".
Proof.
  apply (str_to_event_sep_ignores_case ":" "Modify:close_WRITE" "MODIFY:CLOSE_write").
  reflexivity.
Defined.

(** *** The size of a rendering *)

Lemma render_fold_length (events : Z) (sep : ascii) (table : list (Z * string)) :
  forall ret,
  (String.length
     (fold_left (fun ret '(flag, name) => cat_event events sep ret flag name) table ret)
   <= String.length ret
      + fold_right (fun e n => S (String.length (snd e)) + n) 0 table)%nat.
Proof.
  induction table as [|[f n] table IH]; intros ret; cbn [fold_left fold_right snd].
  - lia.
  - etransitivity; [apply IH |]. unfold cat_event, chrtostr.
    destruct (Z.land f events =? 0); [lia |].
    rewrite !length_append. destruct (Ascii.eqb sep NUL); cbn [String.length]; lia.
Qed.

Lemma hex_digits_length (n : nat) (z : Z) (acc : string) :
  String.length (hex_digits n z acc) = (n + String.length acc)%nat.
Proof.
  revert z acc. induction n as [|n IH]; intros z acc; cbn [hex_digits]; [reflexivity |].
  rewrite IH. cbn [String.length]. lia.
Qed.

Lemma length_tail (s : string) : String.length (tail s) = Nat.pred (String.length s).
Proof. now destruct s. Qed.

(** X16: whatever the mask and the separator,
    the text [inotifytools_event_to_str_sep] returns has at most 154
    characters, well inside the 1024 bytes of the buffer it is built in;
    with a separator other than the terminator the text is never
    empty. *)
Theorem event_to_str_sep_bounded (events : Z) (sep : ascii) :
  (String.length (inotifytools_event_to_str_sep events sep) <= 154)%nat
  /\ (sep <> NUL -> inotifytools_event_to_str_sep events sep <> EmptyString).
Proof.
  split.
  - unfold inotifytools_event_to_str_sep.
    pose proof (render_fold_length events sep event_names EmptyString) as H.
    set (ret := fold_left _ event_names EmptyString) in *.
    change (fold_right _ 0%nat event_names) with 155%nat in H.
    cbn [String.length] in H. rewrite length_tail.
    destruct (Ascii.eqb (head_char ret) NUL).
    + cbn [String.length]. rewrite length_append. unfold hex8.
      rewrite hex_digits_length. cbn [String.length]. lia.
    + lia.
  - intros Hsep.
    destruct (selected events event_names) as [|[f n] l] eqn:E.
    + unfold inotifytools_event_to_str_sep. rewrite render_fold, E by assumption.
      cbn [map sep_words String.append head_char].
      rewrite Ascii.eqb_refl. discriminate.
    + rewrite event_to_str_sep_selected by (assumption || (rewrite E; discriminate)).
      rewrite E.
      assert (Hn : n <> EmptyString).
      { assert (H : Forall (fun e => snd e <> EmptyString) (selected events event_names)).
        { apply selected_incl. unfold event_names.
          repeat (apply List.Forall_cons; [discriminate |]). apply List.Forall_nil. }
        rewrite E in H. inversion H; subst. assumption. }
      cbn [map snd unwords]. destruct (map snd l); destruct n; try congruence;
        discriminate.
Qed.

(** ** EventFormatter: further properties *)

Lemma length_list_ascii (s : string) :
  List.length (list_ascii_of_string s) = String.length s.
Proof. induction s as [|c s IH]; simpl; [reflexivity | now rewrite IH]. Qed.

Lemma list_ascii_append (a b : string) :
  list_ascii_of_string (a +:+ b) = (list_ascii_of_string a ++ list_ascii_of_string b)%list.
Proof. induction a as [|c a IH]; simpl; [reflexivity | now rewrite IH]. Qed.

Lemma store_ok (out : list ascii) (i : Z) (c : ascii) :
  0 <= i < Z.of_nat (List.length out) ->
  store out i c = Some (<[Z.to_nat i := c]> out).
Proof.
  intros H. unfold store.
  destruct (Z.leb_spec 0 i); [| lia].
  destruct (Z.ltb_spec i (Z.of_nat (List.length out))); [reflexivity | lia].
Qed.

Lemma store_bytes_ok (bytes : list ascii) :
  forall (out : list ascii) (i : Z),
  0 <= i -> i + Z.of_nat (List.length bytes) <= Z.of_nat (List.length out) ->
  exists out',
    store_bytes out i bytes = inr out'
    /\ List.length out' = List.length out
    /\ forall k : nat,
         ((Z.to_nat i <= k < Z.to_nat i + List.length bytes)%nat ->
          out' !! k = bytes !! (k - Z.to_nat i)%nat)
         /\ (~ (Z.to_nat i <= k < Z.to_nat i + List.length bytes)%nat ->
             out' !! k = out !! k).
Proof.
  induction bytes as [|b bytes IH]; intros out i Hi Hlen; cbn [store_bytes].
  - exists out. split; [reflexivity |]. split; [reflexivity |].
    intros k. cbn [List.length]. split; [lia | reflexivity].
  - cbn [List.length] in Hlen. rewrite store_ok by lia.
    destruct (IH (<[Z.to_nat i := b]> out) (i + 1)) as (out' & E & Hl & Hk).
    { lia. } { rewrite length_insert. lia. }
    exists out'. split; [exact E |]. rewrite length_insert in Hl.
    split; [exact Hl |]. intros k. cbn [List.length].
    replace (Z.to_nat (i + 1)) with (S (Z.to_nat i)) in Hk by lia.
    destruct (Hk k) as [Hin Hout]. split.
    + intros Hr. destruct (decide (k = Z.to_nat i)) as [->|Hne].
      * rewrite Hout by lia. rewrite Nat.sub_diag. cbn.
        apply list_lookup_insert_eq. lia.
      * rewrite Hin by lia.
        replace (k - Z.to_nat i)%nat with (S (k - S (Z.to_nat i))) by lia.
        reflexivity.
    + intros Hr. rewrite Hout by lia. apply list_lookup_insert_ne. lia.
Qed.

Lemma strncpy_bytes_length (n : nat) (s : string) :
  List.length (strncpy_bytes n s) = n.
Proof.
  revert s. induction n as [|n IH]; intros s; [reflexivity |].
  destruct s; cbn [strncpy_bytes List.length]; now rewrite IH.
Qed.

Lemma strncpy_bytes_lookup (n : nat) (s : string) (k : nat) :
  (k < n)%nat ->
  strncpy_bytes n s !! k = Some (default NUL (list_ascii_of_string s !! k)).
Proof.
  revert s k. induction n as [|n IH]; intros s k Hk; [lia |].
  destruct s as [|c s]; cbn [strncpy_bytes list_ascii_of_string].
  - destruct k as [|k]; [reflexivity |]. cbn. rewrite IH by lia. reflexivity.
  - destruct k as [|k]; [reflexivity |]. cbn. apply IH. lia.
Qed.

Lemma agrees_refl (out : list ascii) (ind size : nat) :
  agrees out out ind EmptyString size.
Proof.
  split; [reflexivity |]. intros k. cbn [String.length].
  split; [reflexivity |]. split; [lia | reflexivity].
Qed.

Lemma agrees_append (out out1 out' : list ascii) (ind size : nat) (p t : string) :
  agrees out out1 ind p size ->
  agrees out1 out' (ind + String.length p) t size ->
  (ind + String.length p + String.length t <= size)%nat ->
  agrees out out' ind (p +:+ t) size.
Proof.
  intros [Hl1 H1] [Hl2 H2] Hfit. split; [congruence |].
  intros k. rewrite length_append, list_ascii_append.
  destruct (H1 k) as (Ha1 & Hb1 & Hc1). destruct (H2 k) as (Ha2 & Hb2 & Hc2).
  split; [| split].
  - intros Hk. rewrite Ha2 by lia. now apply Ha1.
  - intros Hk. destruct (decide (k < ind + String.length p)%nat) as [Hlt|Hge].
    + rewrite Ha2 by lia. rewrite Hb1 by lia.
      rewrite lookup_app_l by (rewrite length_list_ascii; lia). reflexivity.
    + rewrite Hb2 by lia.
      rewrite lookup_app_r by (rewrite length_list_ascii; lia).
      rewrite length_list_ascii. f_equal. lia.
  - intros Hk. rewrite Hc2 by lia. now apply Hc1.
Qed.

(** One character stored at [out[ind]]. *)
Lemma store_agrees (out : list ascii) (ind size : Z) (c : ascii) :
  0 <= ind < size -> size <= Z.of_nat (List.length out) ->
  store out ind c = Some (<[Z.to_nat ind := c]> out)
  /\ agrees out (<[Z.to_nat ind := c]> out) (Z.to_nat ind) (String c EmptyString)
            (Z.to_nat size).
Proof.
  intros Hi Hs. split; [apply store_ok; lia |].
  split; [apply length_insert |]. intros k. cbn [String.length list_ascii_of_string].
  split; [| split].
  - intros Hk. apply list_lookup_insert_ne. lia.
  - intros Hk. replace k with (Z.to_nat ind) by lia. rewrite Nat.sub_diag.
    apply list_lookup_insert_eq. lia.
  - intros Hk. apply list_lookup_insert_ne. lia.
Qed.

(** A substitution that leaves room for the terminator: [strncpy] writes
    the text and pads the rest of the [size] bytes with terminators. *)
Lemma copy_text_agrees (size : Z) (out : list ascii) (ind : Z) (s : string) :
  0 <= ind -> ind + strlen s <= size - 1 -> size <= Z.of_nat (List.length out) ->
  size <= MAX_STRLEN ->
  exists out',
    copy_text size out ind s = inr (out', ind + strlen s)
    /\ agrees out out' (Z.to_nat ind) s (Z.to_nat size)
    /\ forall k : nat, (Z.to_nat (ind + strlen s) <= k < Z.to_nat size)%nat ->
                       out' !! k = Some NUL.
Proof.
  intros Hi Hfit Hs Hmax. unfold copy_text, strncpy, strlen in *.
  unfold MAX_STRLEN in Hmax.
  assert (E32 : to_uint32 (size - ind) = size - ind)
    by (unfold to_uint32; apply Z.mod_small; lia).
  assert (E32' : to_uint32 (ind + Z.of_nat (String.length s))
                 = ind + Z.of_nat (String.length s))
    by (unfold to_uint32; apply Z.mod_small; lia).
  rewrite E32, E32'.
  destruct (store_bytes_ok (strncpy_bytes (Z.to_nat (size - ind)) s) out ind)
    as (out' & E & Hl & Hk).
  { lia. } { rewrite strncpy_bytes_length. lia. }
  rewrite strncpy_bytes_length in Hk.
  rewrite E. exists out'. split; [reflexivity |]. split; [split; [exact Hl |] |].
  - intros k. destruct (Hk k) as [Hin Hout]. split; [| split].
    + intros Hlt. apply Hout. lia.
    + intros Hr. rewrite Hin by lia. rewrite strncpy_bytes_lookup by lia.
      destruct (list_ascii_of_string s !! (k - Z.to_nat ind)%nat) as [c|] eqn:Ec;
        [reflexivity |].
      apply lookup_ge_None in Ec. rewrite length_list_ascii in Ec. lia.
    + intros Hge. apply Hout. lia.
  - intros k Hr. destruct (Hk k) as [Hin _]. rewrite Hin by lia.
    rewrite strncpy_bytes_lookup by lia.
    rewrite (proj2 (lookup_ge_None _ _)); [reflexivity |].
    rewrite length_list_ascii. lia.
Qed.

Lemma strlen_append (a b : string) : strlen (a +:+ b) = strlen a + strlen b.
Proof. unfold strlen. rewrite length_append. lia. Qed.

Lemma loop_post_step (size : Z) (out : list ascii) (ind error : Z) (p : string)
    (e : expansion) (r : snprintf_result) (k : list ascii -> snprintf_result) :
  0 <= ind ->
  (ind + strlen p <= size - 1 ->
   exists out1,
     r = k out1
     /\ agrees out out1 (Z.to_nat ind) p (Z.to_nat size)
     /\ loop_post size out1 (ind + strlen p) error e (k out1)) ->
  loop_post size out ind error (prepend p e) r.
Proof.
  intros Hi H. pose proof (Zle_0_nat (String.length p)) as Hp.
  destruct e as [t|t]; cbn [prepend loop_post]; rewrite strlen_append;
    pose proof (Zle_0_nat (String.length t)) as Ht; unfold strlen in *; intros Hfit;
    (destruct H as (out1 & -> & Hag & Hpost); [lia |]); cbn [loop_post] in Hpost;
    unfold strlen in Hpost.
  - destruct Hpost as (out' & -> & Hag' & Hnul); [lia |].
    exists out'. split; [f_equal; lia |]. split.
    + apply (agrees_append out out1 out'); [exact Hag | | lia].
      replace (Z.to_nat ind + String.length p)%nat
        with (Z.to_nat (ind + Z.of_nat (String.length p))) by lia.
      exact Hag'.
    + rewrite <- Hnul. f_equal. lia.
  - destruct Hpost as (out' & -> & Hag'); [lia |].
    exists out'. split; [f_equal; lia |].
    apply (agrees_append out out1 out'); [exact Hag | | lia].
    replace (Z.to_nat ind + String.length p)%nat
      with (Z.to_nat (ind + Z.of_nat (String.length p))) by lia.
    exact Hag'.
Qed.

Lemma loop_post_finish (size : Z) (out : list ascii) (ind error : Z) (e : expansion) :
  0 <= ind -> size <= Z.of_nat (List.length out) -> size <= MAX_STRLEN ->
  (size - 1 <= ind \/ e = Expanded EmptyString) ->
  match e with Expanded _ => True | Rejected _ => size - 1 <= ind end ->
  loop_post size out ind error e
    (match store out ind NUL with
     | None => Snprintf_overrun ind
     | Some out' => Snprintf_return (to_int32 (ind - 1)) out' error
     end).
Proof.
  intros Hi Hs Hmax Hcase Hrej. unfold MAX_STRLEN in Hmax.
  destruct e as [t|t]; cbn [loop_post]; unfold strlen; intros Hfit; [| lia].
  assert (Ht : t = EmptyString).
  { destruct Hcase as [H|H]; [| congruence].
    destruct t; [reflexivity | cbn [String.length] in Hfit; lia]. }
  subst t. cbn [String.length] in *.
  rewrite store_ok by lia. eexists. split; [| split].
  - f_equal. rewrite to_int32_id by (unfold int_range; lia). lia.
  - split; [apply length_insert |]. intros k. cbn [String.length].
    split; [| split]; intros Hk; try lia; apply list_lookup_insert_ne; lia.
  - replace (ind + Z.of_nat 0) with ind by lia. apply list_lookup_insert_eq. lia.
Qed.

(** The loop of [inotifytools_snprintf] writes what [expand] says. *)
Lemma snprintf_loop_expand (size : Z) (event : inotify_event)
    (filename eventname : option string) (timefmt_set : bool) (timestr : string) :
  0 < size <= MAX_STRLEN ->
  forall (n : nat) (fmt : string) (out : list ascii) (ind error : Z),
  (String.length fmt <= n)%nat -> 0 <= ind -> size <= Z.of_nat (List.length out) ->
  loop_post size out ind error
    (expand event filename eventname timefmt_set timestr fmt)
    (snprintf_loop size event filename eventname timefmt_set timestr fmt out ind error).
Proof.
  intros Hsize. pose proof Hsize as [Hs0 Hmax]. unfold MAX_STRLEN in Hmax.
  induction n as [|n IH]; intros fmt out ind error Hn Hi Hs.
  { destruct fmt; [| cbn in Hn; lia]. cbn [expand snprintf_loop].
    apply loop_post_finish; try assumption; [now right | exact I]. }
  destruct fmt as [|c fmt1].
  { cbn [expand snprintf_loop].
    apply loop_post_finish; try assumption; [now right | exact I]. }
  cbn [String.length] in Hn.
  destruct (Z.le_gt_cases ind (size - 1)) as [Hle|Hgt].
  2:{ (* no text fits from [ind] on *)
      destruct (expand _ _ _ _ _ _) as [t|t]; cbn [loop_post]; unfold strlen;
        pose proof (Zle_0_nat (String.length t)); lia. }
  cbn [snprintf_loop]. rewrite to_int32_id by (unfold int_range; lia).
  destruct (Z.ltb_spec ind (size - 1)) as [Hind|Hge]; cbn [negb].
  2:{ (* the loop guard fails *)
      apply loop_post_finish; try assumption; [now left |].
      destruct (expand _ _ _ _ _ _); [exact I | exact Hge]. }
  assert (E32 : forall d, 0 <= d <= 2 -> to_uint32 (ind + d) = ind + d)
    by (intros d Hd; unfold to_uint32; apply Z.mod_small; lia).
  cbn [expand].
  destruct (Ascii.eqb c "%") eqn:Ec; cbn [negb].
  2:{ (* an ordinary character *)
      apply loop_post_step with
        (k := fun out1 => snprintf_loop size event filename eventname timefmt_set
                            timestr fmt1 out1 (ind + strlen (String c EmptyString)) error);
        [exact Hi |].
      intros _. destruct (store_agrees out ind size c) as [Est Hag]; [lia | lia |].
      rewrite Est. eexists. split; [rewrite E32 by lia; reflexivity |].
      split; [exact Hag |]. apply IH; [lia | unfold strlen; cbn; lia |].
      rewrite length_insert. exact Hs. }
  destruct fmt1 as [|ch1 fmt2].
  { (* last character is % *)
    cbn [loop_post]. unfold strlen. cbn [String.length]. intros _.
    exists out. split; [f_equal; lia |].
    apply agrees_refl. }
  cbn [String.length] in Hn.
  destruct (Ascii.eqb ch1 "%") eqn:E1.
  { apply loop_post_step with
      (k := fun out1 => snprintf_loop size event filename eventname timefmt_set
                          timestr fmt2 out1 (ind + strlen "%") error);
      [exact Hi |].
    intros _. destruct (store_agrees out ind size "%"%char) as [Est Hag]; [lia | lia |].
    rewrite Est. eexists. split; [rewrite E32 by lia; reflexivity |].
    split; [exact Hag |]. apply IH; [lia | unfold strlen; cbn; lia |].
    rewrite length_insert. exact Hs. }
  (* the substitutions *)
  assert (Hsub : forall (s : string) (fmt' : string),
            (String.length fmt' <= n)%nat ->
            loop_post size out ind error
              (prepend s (expand event filename eventname timefmt_set timestr fmt'))
              (match copy_text size out ind s with
               | inl bad => Snprintf_overrun bad
               | inr (out', ind') =>
                 snprintf_loop size event filename eventname timefmt_set timestr
                               fmt' out' ind' error
               end)).
  { intros s fmt' Hlen.
    apply loop_post_step with
      (k := fun out1 => snprintf_loop size event filename eventname timefmt_set
                          timestr fmt' out1 (ind + strlen s) error);
      [exact Hi |].
    intros Hfit.
    destruct (copy_text_agrees size out ind s) as (out1 & E & Hag & _);
      [lia | lia | lia | unfold MAX_STRLEN; lia |].
    rewrite E. exists out1. split; [reflexivity |]. split; [exact Hag |].
    apply IH; [lia | unfold strlen; lia |].
    destruct Hag as [Hl _]. rewrite Hl. exact Hs. }
  assert (Hskip : forall fmt', (String.length fmt' <= n)%nat ->
            loop_post size out ind error
              (prepend EmptyString
                 (expand event filename eventname timefmt_set timestr fmt'))
              (snprintf_loop size event filename eventname timefmt_set timestr
                             fmt' out ind error)).
  { intros fmt' Hlen.
    apply loop_post_step with
      (k := fun out1 => snprintf_loop size event filename eventname timefmt_set
                          timestr fmt' out1 (ind + strlen EmptyString) error);
      [exact Hi |].
    intros _. exists out. unfold strlen. cbn [String.length].
    replace (ind + Z.of_nat 0) with ind by lia.
    split; [reflexivity |]. split; [apply agrees_refl |]. apply IH; [lia | lia | exact Hs]. }
  destruct (Ascii.eqb ch1 "w") eqn:E2.
  { destruct filename as [f|]; cbn [default]; [apply Hsub | apply Hskip]; lia. }
  destruct (Ascii.eqb ch1 "f") eqn:E3.
  { destruct eventname as [f|]; cbn [default]; [apply Hsub | apply Hskip]; lia. }
  destruct (Ascii.eqb ch1 "e") eqn:E4.
  { apply Hsub. lia. }
  destruct (Ascii.eqb ch1 "T") eqn:E5.
  { destruct (timefmt_set && (strlen timestr <=? 0)).
    - cbn [loop_post]. unfold strlen. cbn [String.length]. intros _.
      exists out. split; [f_equal; lia |].
      apply agrees_refl.
    - apply Hsub. lia. }
  (* % before any other character *)
  assert (Hplain : forall fmt', (String.length fmt' <= n)%nat ->
            loop_post size out ind error
              (prepend (String "%" (String ch1 EmptyString))
                 (expand event filename eventname timefmt_set timestr fmt'))
              (let '(r, ind1) :=
                 if ind <? MAX_STRLEN
                 then (store out ind "%"%char, to_uint32 (ind + 1))
                 else (Some out, ind) in
               match r with
               | None => Snprintf_overrun ind
               | Some out1 =>
                 let '(r, ind2) :=
                   if ind1 <? MAX_STRLEN
                   then (store out1 ind1 ch1, to_uint32 (ind1 + 1))
                   else (Some out1, ind1) in
                 match r with
                 | None => Snprintf_overrun ind1
                 | Some out2 =>
                   snprintf_loop size event filename eventname timefmt_set timestr
                                 fmt' out2 ind2 error
                 end
               end)).
  { intros fmt' Hlen.
    apply loop_post_step with
      (k := fun out1 => snprintf_loop size event filename eventname timefmt_set
                          timestr fmt' out1
                          (ind + strlen (String "%" (String ch1 EmptyString))) error);
      [exact Hi |].
    unfold strlen. cbn [String.length]. intros Hfit. unfold MAX_STRLEN.
    destruct (Z.ltb_spec ind 4096) as [_|?]; [| lia].
    destruct (store_agrees out ind size "%"%char) as [Est Hag]; [lia | lia |].
    rewrite Est, (E32 1) by lia.
    destruct (Z.ltb_spec (ind + 1) 4096) as [_|?]; [| lia].
    destruct (store_agrees (<[Z.to_nat ind := "%"%char]> out) (ind + 1) size ch1)
      as [Est2 Hag2]; [lia | rewrite length_insert; lia |].
    rewrite Est2. eexists. split.
    { replace (to_uint32 (ind + 1 + 1)) with (ind + Z.of_nat 2);
        [reflexivity |]. replace (ind + 1 + 1) with (ind + 2) by lia.
      rewrite (E32 2) by lia. lia. }
    split.
    - change (String "%" (String ch1 EmptyString))
        with (String "%" EmptyString +:+ String ch1 EmptyString).
      apply (agrees_append out (<[Z.to_nat ind := "%"%char]> out)); [exact Hag | | ].
      + cbn [String.length]. replace (Z.to_nat ind + 1)%nat with (Z.to_nat (ind + 1)) by lia.
        exact Hag2.
      + cbn [String.length]. lia.
    - apply IH; [lia | lia |]. rewrite !length_insert. exact Hs. }
  destruct fmt2 as [|c2 fmt3]; [apply Hplain; cbn; lia |].
  cbn [String.length] in Hn.
  destruct (Ascii.eqb c2 "e") eqn:E6.
  - apply Ascii.eqb_eq in E6. subst c2. apply Hsub. lia.
  - assert (Hc2 : c2 <> "e"%char) by now apply Ascii.eqb_neq.
    destruct c2 as [[] [] [] [] [] [] [] []]; try congruence;
      apply Hplain; cbn [String.length]; lia.
Qed.

Lemma agrees_from_start (out out' : list ascii) (text : string) (size : nat) :
  agrees out out' 0 text size ->
  (String.length text <= List.length out)%nat ->
  firstn (String.length text) out' = list_ascii_of_string text
  /\ skipn size out' = skipn size out.
Proof.
  intros [Hl H] Hlen. split.
  - apply list_eq. intros i.
    destruct (decide (i < String.length text)%nat) as [Hi|Hi].
    + rewrite lookup_take_lt by assumption.
      destruct (H i) as (_ & Hin & _). rewrite Hin by lia. f_equal. lia.
    + rewrite lookup_take_ge by lia. symmetry. apply lookup_ge_None.
      rewrite length_list_ascii. lia.
  - apply list_eq. intros i. rewrite !lookup_drop.
    destruct (H (size + i)%nat) as (_ & _ & Hout). apply Hout. lia.
Qed.

(** The debugging lookup of a path under whose hash value the table
    holds nothing: it returns, with [NIL]. *)
Lemma hfind_absent (t : list hentry) (f : string) :
  Forall (fun e => h_used e <> hval f) t ->
  hfind (Some t) (Some f)
  = Some (NIL, ["==>searching for " +:+ f +:+ LF; "==>fail" +:+ LF]).
Proof.
  intros Hf. unfold hfind, hsearch_r. cbn [mbind option_bind].
  now rewrite (hprobe_absent _ _ _ _ Hf).
Qed.

Lemma snprintf_of_expanded (st : state) (timestr : string) (out : list ascii)
    (size : Z) (event : inotify_event) (fmt : string) (f : string)
    (t : list hentry) (text : string) :
  inotifytools_filename_from_wd (reg st) (ev_wd event) = Some (Some f) ->
  tab (dbg st) = Some t -> Forall (fun e => h_used e <> hval f) t ->
  fmt <> EmptyString -> strlen fmt <= MAX_STRLEN ->
  0 < size <= MAX_STRLEN -> size <= Z.of_nat (List.length out) ->
  expand event (Some f) (if 0 <? ev_len event then Some (ev_name event) else None)
         (match timefmt st with Some _ => true | None => false end) timestr fmt
  = Expanded text ->
  strlen text <= size - 1 ->
  exists out',
    inotifytools_snprintf st timestr out size event (Some fmt)
    = Some (snprintf_lines f, Snprintf_return (strlen text - 1) out' (error st))
    /\ firstn (String.length text) out' = list_ascii_of_string text
    /\ out' !! String.length text = Some NUL
    /\ List.length out' = List.length out
    /\ skipn (Z.to_nat size) out' = skipn (Z.to_nat size) out.
Proof.
  intros Ef Et Hf Hne Hfmt Hsize Hout Eexp Hfit.
  unfold inotifytools_snprintf. rewrite Ef. cbn [mbind option_bind].
  rewrite Et, (hfind_absent t f Hf). cbn [mbind option_bind snd].
  destruct (Z.eqb_spec (strlen fmt) 0) as [E0|_].
  { destruct fmt; [congruence | unfold strlen in E0; cbn in E0; lia]. }
  destruct (Z.ltb_spec MAX_STRLEN (strlen fmt)) as [?|_]; [lia |].
  destruct (Z.ltb_spec MAX_STRLEN size) as [?|_]; [lia |]. cbn [orb].
  pose proof (snprintf_loop_expand size event (Some f)
                (if 0 <? ev_len event then Some (ev_name event) else None)
                (match timefmt st with Some _ => true | None => false end) timestr
                Hsize (String.length fmt) fmt out 0 (error st)
                (Nat.le_refl _) (Z.le_refl 0) Hout) as H.
  rewrite Eexp in H. cbn [loop_post] in H.
  destruct H as (out' & -> & Hag & Hnul); [lia |].
  exists out'. split; [reflexivity |].
  change (Z.to_nat 0) with 0%nat in Hag.
  destruct (agrees_from_start out out' text (Z.to_nat size) Hag) as [H1 H2].
  { unfold strlen in Hfit. lia. }
  split; [exact H1 |]. split; [| split; [apply Hag | exact H2]].
  rewrite <- Hnul. f_equal. unfold strlen. lia.
Qed.

(** The statements that follow are about calls that get past the
    debugging lookup: the descriptor of the event is that of a watch,
    [hcreate_r] has made the table, and the table holds no entry under
    the hash value of the path of the watch.  Such a call writes the
    three lines of [snprintf_lines] to [stdout] first. *)

(** X17: in such a call, when the text a template stands for leaves
    room for the terminator ([strlen text <= size - 1]),
    [inotifytools_snprintf] writes exactly that text and a terminator at
    the start of [out], touches nothing from [out[size]] on, leaves
    [error] alone and returns the length of the text minus one. *)
Theorem snprintf_expands (st : state) (timestr : string) (out : list ascii)
    (size : Z) (event : inotify_event) (fmt : string) (f : string)
    (t : list hentry) (text : string) :
  inotifytools_filename_from_wd (reg st) (ev_wd event) = Some (Some f) ->
  tab (dbg st) = Some t -> Forall (fun e => h_used e <> hval f) t ->
  fmt <> EmptyString -> strlen fmt <= MAX_STRLEN ->
  0 < size <= MAX_STRLEN -> size <= Z.of_nat (List.length out) ->
  expand event (Some f) (if 0 <? ev_len event then Some (ev_name event) else None)
         (match timefmt st with Some _ => true | None => false end) timestr fmt
  = Expanded text ->
  strlen text <= size - 1 ->
  exists out',
    inotifytools_snprintf st timestr out size event (Some fmt)
    = Some (snprintf_lines f, Snprintf_return (strlen text - 1) out' (error st))
    /\ firstn (String.length text) out' = list_ascii_of_string text
    /\ out' !! String.length text = Some NUL
    /\ List.length out' = List.length out
    /\ skipn (Z.to_nat size) out' = skipn (Z.to_nat size) out.
Proof. apply snprintf_of_expanded. Qed.

Lemma snprintf_expands_witness :
  exists out',
    inotifytools_snprintf one_watch_tab_state "" (repeat "x"%char 32) 24
      (mkEvent 1 (Z.lor IN_CREATE IN_ISDIR) 0 16 "sub") (Some "%w%f: %:e!")
    = Some (snprintf_lines "/tmp/", Snprintf_return 22 out' 0)
    /\ firstn 23 out' = list_ascii_of_string "/tmp/sub: CREATE:ISDIR!"
    /\ out' !! 23%nat = Some NUL
    /\ skipn 24 out' = repeat "x"%char 8.
Proof.
  destruct (snprintf_expands one_watch_tab_state "" (repeat "x"%char 32) 24
              (mkEvent 1 (Z.lor IN_CREATE IN_ISDIR) 0 16 "sub") "%w%f: %:e!"
              "/tmp/" [] "/tmp/sub: CREATE:ISDIR!")
    as (out' & E & H1 & H2 & _ & H4);
    [reflexivity | reflexivity | apply List.Forall_nil | discriminate | vm_compute; discriminate
    | split; [reflexivity | vm_compute; discriminate]
    | vm_compute; discriminate | reflexivity | vm_compute; discriminate |].
  exists out'. split; [exact E |]. split; [exact H1 |]. split; [exact H2 | exact H4].
Defined.

(** X18: in a call that gets past the debugging lookup, a template
    that is given up, by a [%] as its last character or by a [%T] whose
    time format produces nothing: when the text before that point leaves
    room, [inotifytools_snprintf] has written it to the start of [out],
    sets [error] to [EINVAL] and returns the number of characters
    written, not -1. *)
Theorem snprintf_gives_up (st : state) (timestr : string) (out : list ascii)
    (size : Z) (event : inotify_event) (fmt : string) (f : string)
    (t : list hentry) (text : string) :
  inotifytools_filename_from_wd (reg st) (ev_wd event) = Some (Some f) ->
  tab (dbg st) = Some t -> Forall (fun e => h_used e <> hval f) t ->
  fmt <> EmptyString -> strlen fmt <= MAX_STRLEN ->
  0 < size <= MAX_STRLEN -> size <= Z.of_nat (List.length out) ->
  expand event (Some f) (if 0 <? ev_len event then Some (ev_name event) else None)
         (match timefmt st with Some _ => true | None => false end) timestr fmt
  = Rejected text ->
  strlen text < size - 1 ->
  exists out',
    inotifytools_snprintf st timestr out size event (Some fmt)
    = Some (snprintf_lines f, Snprintf_return (strlen text) out' EINVAL)
    /\ firstn (String.length text) out' = list_ascii_of_string text
    /\ List.length out' = List.length out
    /\ skipn (Z.to_nat size) out' = skipn (Z.to_nat size) out.
Proof.
  intros Ef Et Hf Hne Hfmt Hsize Hout Eexp Hfit.
  unfold inotifytools_snprintf. rewrite Ef. cbn [mbind option_bind].
  rewrite Et, (hfind_absent t f Hf). cbn [mbind option_bind snd].
  destruct (Z.eqb_spec (strlen fmt) 0) as [E0|_].
  { destruct fmt; [congruence | unfold strlen in E0; cbn in E0; lia]. }
  destruct (Z.ltb_spec MAX_STRLEN (strlen fmt)) as [?|_]; [lia |].
  destruct (Z.ltb_spec MAX_STRLEN size) as [?|_]; [lia |]. cbn [orb].
  pose proof (snprintf_loop_expand size event (Some f)
                (if 0 <? ev_len event then Some (ev_name event) else None)
                (match timefmt st with Some _ => true | None => false end) timestr
                Hsize (String.length fmt) fmt out 0 (error st)
                (Nat.le_refl _) (Z.le_refl 0) Hout) as H.
  rewrite Eexp in H. cbn [loop_post] in H.
  destruct H as (out' & -> & Hag); [lia |].
  exists out'. split; [reflexivity |].
  change (Z.to_nat 0) with 0%nat in Hag.
  destruct (agrees_from_start out out' text (Z.to_nat size) Hag) as [H1 H2].
  { unfold strlen in Hfit. lia. }
  split; [exact H1 |]. split; [apply Hag | exact H2].
Qed.

Lemma snprintf_gives_up_witness :
  exists out',
    inotifytools_snprintf one_watch_tab_state "" (repeat "x"%char 16) 16
      (mkEvent 1 IN_CREATE 0 0 "") (Some "at %w%")
    = Some (snprintf_lines "/tmp/", Snprintf_return 8 out' EINVAL)
    /\ firstn 8 out' = list_ascii_of_string "at /tmp/".
Proof.
  destruct (snprintf_gives_up one_watch_tab_state "" (repeat "x"%char 16) 16
              (mkEvent 1 IN_CREATE 0 0 "") "at %w%" "/tmp/" [] "at /tmp/")
    as (out' & E & H1 & _);
    [reflexivity | reflexivity | apply List.Forall_nil | discriminate | vm_compute; discriminate
    | split; [reflexivity | vm_compute; discriminate]
    | vm_compute; discriminate | reflexivity | reflexivity |].
  exists out'. split; [exact E | exact H1].
Defined.

(** *** Templates without substitutions *)

Lemma strchr_cons_None (c a : ascii) (s : string) :
  strchr (String a s) c = None -> Ascii.eqb a c = false /\ strchr s c = None.
Proof. simpl. destruct (Ascii.eqb a c); [discriminate | now split]. Qed.

Lemma snprintf_loop_literal (size : Z) (event : inotify_event)
    (filename eventname : option string) (timefmt_set : bool) (timestr : string) :
  0 < size <= MAX_STRLEN ->
  forall (fmt : string) (out : list ascii) (ind error : Z),
  strchr fmt "%" = None -> 0 <= ind <= size - 1 -> size <= Z.of_nat (List.length out) ->
  let m := Z.min (strlen fmt) (size - 1 - ind) in
  exists out',
    snprintf_loop size event filename eventname timefmt_set timestr fmt out ind error
    = Snprintf_return (ind + m - 1) out' error
    /\ agrees out out' (Z.to_nat ind) (take (Z.to_nat m) fmt) (Z.to_nat size)
    /\ out' !! Z.to_nat (ind + m) = Some NUL.
Proof.
  intros [Hs0 Hmax]. unfold MAX_STRLEN in Hmax.
  assert (Hfin : forall out ind error,
            0 <= ind <= size - 1 -> size <= Z.of_nat (List.length out) ->
            exists out',
              match store out ind NUL with
              | None => Snprintf_overrun ind
              | Some out' => Snprintf_return (to_int32 (ind - 1)) out' error
              end = Snprintf_return (ind - 1) out' error
              /\ agrees out out' (Z.to_nat ind) EmptyString (Z.to_nat size)
              /\ out' !! Z.to_nat ind = Some NUL).
  { intros out ind error Hi Hs. rewrite store_ok by lia. eexists.
    split; [rewrite to_int32_id by (unfold int_range; lia); reflexivity |].
    split; [| apply list_lookup_insert_eq; lia].
    split; [apply length_insert |]. intros k. cbn [String.length].
    split; [| split]; intros Hk; try lia; apply list_lookup_insert_ne; lia. }
  induction fmt as [|c fmt IH]; intros out ind error Hfree Hi Hs m.
  - cbn [snprintf_loop]. subst m. unfold strlen. cbn [String.length].
    replace (Z.min (Z.of_nat 0) (size - 1 - ind)) with 0 by lia.
    replace (ind + 0) with ind by lia. cbn [take]. change (Z.to_nat 0) with 0%nat.
    cbn [take]. now apply Hfin.
  - apply strchr_cons_None in Hfree as [Ec Hfree].
    cbn [snprintf_loop]. rewrite to_int32_id by (unfold int_range; lia).
    unfold strlen in m. cbn [String.length] in m.
    destruct (Z.ltb_spec ind (size - 1)) as [Hlt|Hge]; cbn [negb].
    + rewrite Ec. cbn [negb].
      destruct (store_agrees out ind size c) as [Est Hag]; [lia | lia |].
      rewrite Est.
      replace (to_uint32 (ind + 1)) with (ind + 1)
        by (unfold to_uint32; rewrite Z.mod_small; lia).
      destruct (IH (<[Z.to_nat ind := c]> out) (ind + 1) error Hfree)
        as (out' & E & Hag' & Hnul); [lia | rewrite length_insert; lia |].
      unfold strlen in *.
      set (m' := Z.min (Z.of_nat (String.length fmt)) (size - 1 - (ind + 1))) in *.
      assert (Em : m = 1 + m') by (subst m m'; lia).
      assert (Hm' : 0 <= m') by (subst m'; lia).
      exists out'. rewrite E, Em. split; [f_equal; lia |]. split.
      * replace (Z.to_nat (1 + m')) with (S (Z.to_nat m')) by lia. cbn [take].
        change (String c (take (Z.to_nat m') fmt))
          with (String c EmptyString +:+ take (Z.to_nat m') fmt).
        apply (agrees_append out (<[Z.to_nat ind := c]> out) out'); [exact Hag | |].
        -- cbn [String.length].
           replace (Z.to_nat ind + 1)%nat with (Z.to_nat (ind + 1)) by lia. exact Hag'.
        -- cbn [String.length]. rewrite strlen_take. subst m'. lia.
      * rewrite <- Hnul. f_equal. lia.
    + assert (Em : m = 0) by (subst m; lia). rewrite Em.
      replace (ind + 0) with ind by lia. change (Z.to_nat 0) with 0%nat. cbn [take].
      apply Hfin; lia.
Qed.

(** X19: in a call that gets past the debugging lookup, a template
    without [%] is copied as it is and cut to [size - 1] characters:
    [inotifytools_snprintf] writes the first
    [min (strlen fmt, size - 1)] characters and a terminator, nothing
    from [out[size]] on, and returns that number minus one. *)
Theorem snprintf_literal_truncates (st : state) (timestr : string)
    (out : list ascii) (size : Z) (event : inotify_event) (fmt : string)
    (f : string) (t : list hentry) :
  inotifytools_filename_from_wd (reg st) (ev_wd event) = Some (Some f) ->
  tab (dbg st) = Some t -> Forall (fun e => h_used e <> hval f) t ->
  fmt <> EmptyString -> strlen fmt <= MAX_STRLEN ->
  0 < size <= MAX_STRLEN -> size <= Z.of_nat (List.length out) ->
  strchr fmt "%" = None ->
  let m := Z.min (strlen fmt) (size - 1) in
  exists out',
    inotifytools_snprintf st timestr out size event (Some fmt)
    = Some (snprintf_lines f, Snprintf_return (m - 1) out' (error st))
    /\ firstn (Z.to_nat m) out' = list_ascii_of_string (take (Z.to_nat m) fmt)
    /\ out' !! Z.to_nat m = Some NUL
    /\ List.length out' = List.length out
    /\ skipn (Z.to_nat size) out' = skipn (Z.to_nat size) out.
Proof.
  intros Ef Et Hf Hne Hfmt Hsize Hout Hfree m.
  unfold inotifytools_snprintf. rewrite Ef. cbn [mbind option_bind].
  rewrite Et, (hfind_absent t f Hf). cbn [mbind option_bind snd].
  destruct (Z.eqb_spec (strlen fmt) 0) as [E0|_].
  { destruct fmt; [congruence | unfold strlen in E0; cbn in E0; lia]. }
  destruct (Z.ltb_spec MAX_STRLEN (strlen fmt)) as [?|_]; [lia |].
  destruct (Z.ltb_spec MAX_STRLEN size) as [?|_]; [lia |]. cbn [orb].
  destruct (snprintf_loop_literal size event (Some f)
              (if 0 <? ev_len event then Some (ev_name event) else None)
              (match timefmt st with Some _ => true | None => false end) timestr
              Hsize fmt out 0 (error st) Hfree) as (out' & E & Hag & Hnul);
    [lia | exact Hout |].
  replace (size - 1 - 0) with (size - 1) in * by lia. fold m in E, Hag, Hnul.
  rewrite E. exists out'. split; [f_equal; f_equal; lia |].
  change (Z.to_nat 0) with 0%nat in Hag.
  assert (Hlen : String.length (take (Z.to_nat m) fmt) = Z.to_nat m).
  { rewrite strlen_take. unfold strlen in m. lia. }
  destruct (agrees_from_start out out' _ (Z.to_nat size) Hag) as [H1 H2].
  { rewrite Hlen. lia. }
  rewrite Hlen in H1.
  split; [exact H1 |]. split; [| split; [apply Hag | exact H2]].
  rewrite <- Hnul. f_equal.
Qed.

Lemma snprintf_literal_truncates_witness :
  exists out',
    inotifytools_snprintf one_watch_tab_state "" (repeat "x"%char 8) 6
      (mkEvent 1 IN_CREATE 0 0 "") (Some "created")
    = Some (snprintf_lines "/tmp/", Snprintf_return 4 out' 0)
    /\ firstn 5 out' = list_ascii_of_string "creat"
    /\ out' !! 5%nat = Some NUL
    /\ skipn 6 out' = repeat "x"%char 2.
Proof.
  destruct (snprintf_literal_truncates one_watch_tab_state "" (repeat "x"%char 8) 6
              (mkEvent 1 IN_CREATE 0 0 "") "created" "/tmp/" [])
    as (out' & E & H1 & H2 & _ & H4);
    [reflexivity | reflexivity | apply List.Forall_nil | discriminate | vm_compute; discriminate
    | split; [reflexivity | vm_compute; discriminate]
    | vm_compute; discriminate | reflexivity |].
  exists out'. split; [exact E |]. split; [exact H1 |]. split; [exact H2 | exact H4].
Defined.

(** *** Printing *)

Lemma c_string_text (out : list ascii) (text : string) :
  firstn (String.length text) out = list_ascii_of_string text ->
  out !! String.length text = Some NUL ->
  Forall (fun c => c <> NUL) (list_ascii_of_string text) ->
  c_string out = text.
Proof.
  revert out. induction text as [|c text IH]; intros out Hpre Hnul Hfree.
  - destruct out as [|a out]; [discriminate |]. cbn in Hnul. injection Hnul as ->.
    reflexivity.
  - destruct out as [|a out]; [discriminate |].
    cbn [String.length firstn list_ascii_of_string] in Hpre. injection Hpre as -> Hpre.
    inversion Hfree as [|? ? Hc Hrest]; subst.
    cbn [c_string]. apply Ascii.eqb_neq in Hc. rewrite Hc. f_equal.
    apply IH; assumption.
Qed.

(** X20: in a call that gets past the debugging lookup,
    [inotifytools_fprintf] (and [inotifytools_printf], which is the same
    call on [stdout]) writes the three debugging lines to [stdout] and
    then hands exactly the text of the template to [fprintf] when that
    text fits its buffer, with one exception: a template whose text is
    empty prints nothing and returns -1, as a rejected template does,
    although [error] is not set. *)
Theorem fprintf_prints_expansion (st : state) (timestr : string) (out : list ascii)
    (event : inotify_event) (fmt : string) (f : string)
    (t : list hentry) (text : string) :
  inotifytools_filename_from_wd (reg st) (ev_wd event) = Some (Some f) ->
  tab (dbg st) = Some t -> Forall (fun e => h_used e <> hval f) t ->
  fmt <> EmptyString -> strlen fmt <= MAX_STRLEN ->
  List.length out = Z.to_nat (MAX_STRLEN + 1) ->
  expand event (Some f) (if 0 <? ev_len event then Some (ev_name event) else None)
         (match timefmt st with Some _ => true | None => false end) timestr fmt
  = Expanded text ->
  strlen text <= MAX_STRLEN - 1 ->
  Forall (fun c => c <> NUL) (list_ascii_of_string text) ->
  exists out',
    inotifytools_fprintf st timestr out event (Some fmt)
    = Some (strlen text - 1, out', error st, snprintf_lines f,
            if String.eqb text EmptyString then None else Some text)
    /\ inotifytools_printf st timestr out event (Some fmt)
       = inotifytools_fprintf st timestr out event (Some fmt).
Proof.
  intros Ef Et Hf Hne Hfmt Hout Eexp Hfit Hfree.
  destruct (snprintf_of_expanded st timestr out MAX_STRLEN event fmt f t text Ef Et Hf
              Hne Hfmt) as (out' & E & H1 & H2 & _);
    [unfold MAX_STRLEN; lia | rewrite Hout; unfold MAX_STRLEN; lia | exact Eexp
    | exact Hfit |].
  exists out'. split; [| reflexivity].
  unfold inotifytools_fprintf, inotifytools_sprintf. rewrite E.
  cbn [mbind option_bind fst snd]. rewrite (c_string_text out' text H1 H2 Hfree).
  destruct text as [|c text]; [reflexivity |].
  cbn [String.eqb]. unfold strlen. cbn [String.length].
  destruct (Z.eqb_spec (Z.of_nat (S (String.length text)) - 1) (-1)); [lia | reflexivity].
Qed.

Lemma fprintf_prints_expansion_witness :
  (exists out',
     inotifytools_printf one_watch_tab_state "" (repeat "x"%char 4097)
       (mkEvent 1 IN_CREATE 0 16 "sub") (Some "%w%f")
     = Some (7, out', 0, snprintf_lines "/tmp/", Some "/tmp/sub"))
  /\ (exists out',
        inotifytools_printf one_watch_tab_state "" (repeat "x"%char 4097)
          (mkEvent 1 IN_CREATE 0 0 "") (Some "%f")
        = Some (-1, out', 0, snprintf_lines "/tmp/", None)).
Proof.
  split.
  - destruct (fprintf_prints_expansion one_watch_tab_state "" (repeat "x"%char 4097)
                (mkEvent 1 IN_CREATE 0 16 "sub") "%w%f" "/tmp/" [] "/tmp/sub")
      as (out' & E & ->);
      [reflexivity | reflexivity | apply List.Forall_nil | discriminate | vm_compute; discriminate | reflexivity
      | reflexivity | vm_compute; discriminate
      | repeat (apply List.Forall_cons; [discriminate |]); apply List.Forall_nil |].
    exists out'. exact E.
  - destruct (fprintf_prints_expansion one_watch_tab_state "" (repeat "x"%char 4097)
                (mkEvent 1 IN_CREATE 0 0 "") "%f" "/tmp/" [] "")
      as (out' & E & ->);
      [reflexivity | reflexivity | apply List.Forall_nil | discriminate | vm_compute; discriminate | reflexivity
      | reflexivity | vm_compute; discriminate | apply List.Forall_nil |].
    exists out'. exact E.
Defined.

(** ** EventStreamReader: further properties *)

(** *** Decoding *)

Lemma le32_bytes_length (z : Z) : List.length (le32_bytes z) = 4%nat.
Proof. reflexivity. Qed.

Lemma name_bytes_length (n : nat) (s : string) : List.length (name_bytes n s) = n.
Proof.
  revert s. induction n as [|n IH]; intros s; [reflexivity |].
  destruct s; cbn [name_bytes List.length]; now rewrite IH.
Qed.

Lemma event_bytes_length (e : inotify_event) :
  0 <= ev_len e -> Z.of_nat (List.length (event_bytes e)) = EVENT_SIZE + ev_len e.
Proof.
  intros H. unfold event_bytes, EVENT_SIZE.
  rewrite !length_app, !le32_bytes_length, name_bytes_length. lia.
Qed.

Lemma holds_app (buf : gmap Z Z) (off : Z) (a b : list Z) :
  holds buf off (a ++ b) ->
  holds buf off a /\ holds buf (off + Z.of_nat (List.length a)) b.
Proof.
  intros H. split; intros k Hk.
  - rewrite (H k) by (rewrite length_app; lia). now rewrite app_nth1.
  - replace (off + Z.of_nat (List.length a) + Z.of_nat k)
      with (off + Z.of_nat (List.length a + k)) by lia.
    rewrite (H (List.length a + k)%nat) by (rewrite length_app; lia).
    rewrite app_nth2 by lia. f_equal. lia.
Qed.

Lemma le32_holds (buf : gmap Z Z) (off z : Z) :
  0 <= z < 2 ^ 32 -> holds buf off (le32_bytes z) -> le32 buf off = z.
Proof.
  intros Hz H. unfold le32.
  pose proof (H 0%nat ltac:(cbn; lia)) as H0.
  pose proof (H 1%nat ltac:(cbn; lia)) as H1.
  pose proof (H 2%nat ltac:(cbn; lia)) as H2.
  pose proof (H 3%nat ltac:(cbn; lia)) as H3.
  cbn [nth le32_bytes] in H0, H1, H2, H3.
  replace (off + Z.of_nat 0) with off in H0 by lia.
  change (Z.of_nat 1) with 1 in H1. change (Z.of_nat 2) with 2 in H2.
  change (Z.of_nat 3) with 3 in H3.
  rewrite H0, H1, H2, H3. clear H H0 H1 H2 H3.
  change (2 ^ 8) with 256. change (2 ^ 16) with 65536. change (2 ^ 24) with 16777216.
  change (2 ^ 32) with 4294967296 in Hz.
  pose proof (Z.div_mod z 256 ltac:(lia)).
  pose proof (Z.div_mod (z / 256) 256 ltac:(lia)).
  pose proof (Z.div_mod (z / 256 / 256) 256 ltac:(lia)).
  pose proof (Z.mod_pos_bound z 256 ltac:(lia)).
  pose proof (Z.mod_pos_bound (z / 256) 256 ltac:(lia)).
  pose proof (Z.mod_pos_bound (z / 256 / 256) 256 ltac:(lia)).
  replace (z / 65536) with (z / 256 / 256) by (rewrite Z.div_div by lia; reflexivity).
  replace (z / 16777216) with (z / 256 / 256 / 256)
    by (rewrite !Z.div_div by lia; reflexivity).
  assert (z / 256 / 256 / 256 < 256).
  { apply Z.div_lt_upper_bound; [lia |]. apply Z.div_lt_upper_bound; [lia |].
    apply Z.div_lt_upper_bound; lia. }
  assert (0 <= z / 256 / 256 / 256) by (repeat apply Z.div_pos; lia).
  rewrite (Z.mod_small (z / 256 / 256 / 256)) by lia. lia.
Qed.

Lemma holds_cons (buf : gmap Z Z) (off : Z) (b : Z) (data : list Z) :
  holds buf off (b :: data) -> byte_at buf off = b /\ holds buf (off + 1) data.
Proof.
  intros H. destruct (holds_app buf off [b] data H) as [H1 H2]. split.
  - specialize (H1 0%nat ltac:(cbn; lia)). cbn [nth] in H1.
    change (Z.of_nat 0) with 0 in H1. now rewrite Z.add_0_r in H1.
  - exact H2.
Qed.

Lemma cstring_at_holds (s : string) :
  forall (n fuel : nat) (buf : gmap Z Z) (off : Z),
  holds buf off (name_bytes n s) ->
  (String.length s < n)%nat -> (String.length s < fuel)%nat ->
  Forall (fun c => c <> NUL) (list_ascii_of_string s) ->
  cstring_at fuel buf off = s.
Proof.
  induction s as [|c s IH]; intros n fuel buf off H Hn Hfuel Hfree;
    (destruct n as [|n]; [cbn in Hn; lia |]);
    (destruct fuel as [|fuel]; [cbn in Hfuel; lia |]);
    cbn [name_bytes] in H; apply holds_cons in H as [H0 H]; cbn [cstring_at];
    rewrite H0.
  - reflexivity.
  - cbn [list_ascii_of_string] in Hfree. inversion Hfree as [|? ? Hc Hrest]; subst.
    assert (Hnz : nat_of_ascii c <> 0%nat).
    { intros E. apply Hc. rewrite <- (ascii_nat_embedding c), E. reflexivity. }
    destruct (Z.eqb_spec (Z.of_nat (nat_of_ascii c)) 0) as [?|_]; [lia |].
    rewrite Nat2Z.id, ascii_nat_embedding. f_equal.
    apply (IH n); [exact H | cbn in Hn; lia | cbn in Hfuel; lia | exact Hrest].
Qed.

Lemma to_int32_uint32 (z : Z) : int_range z -> to_int32 (to_uint32 z) = z.
Proof.
  unfold int_range, to_int32, to_uint32. intros H.
  change (2 ^ 31) with 2147483648 in *. change (2 ^ 32) with 4294967296 in *.
  destruct (Z.le_gt_cases 0 z).
  - rewrite (Z.mod_small z) by lia. rewrite Z.mod_small by lia. lia.
  - replace (z mod 4294967296) with (z + 4294967296).
    + replace (z + 4294967296 + 2147483648) with (z + 2147483648 + 1 * 4294967296)
        by lia.
      rewrite Z.mod_add by lia. rewrite Z.mod_small by lia. lia.
    + symmetry. replace z with (z + 4294967296 + (-1) * 4294967296) at 1 by lia.
      rewrite Z.mod_add by lia. apply Z.mod_small. lia.
Qed.

Lemma to_uint32_range (z : Z) : 0 <= to_uint32 z < 2 ^ 32.
Proof. unfold to_uint32. apply Z.mod_pos_bound. lia. Qed.

(** Reading back a record the kernel wrote. *)
Lemma event_at_holds (buf : gmap Z Z) (off : Z) (e : inotify_event) :
  kernel_record e -> holds buf off (event_bytes e) ->
  0 <= off -> off + EVENT_SIZE + ev_len e <= BUF_SIZE ->
  same_record e (event_at buf off)
  /\ le32 buf (off + 12) = ev_len e.
Proof.
  intros (Hwd & Hmask & Hcookie & Hlen & Hname) H Hoff Hfit.
  unfold event_bytes in H.
  apply holds_app in H as [Hw H]. rewrite le32_bytes_length in H.
  apply holds_app in H as [Hm H]. rewrite le32_bytes_length in H.
  apply holds_app in H as [Hc H]. rewrite le32_bytes_length in H.
  apply holds_app in H as [Hl Hn]. rewrite le32_bytes_length in Hn.
  replace (off + Z.of_nat 4 + Z.of_nat 4) with (off + 8) in * by lia.
  replace (off + 8 + Z.of_nat 4) with (off + 12) in * by lia.
  replace (off + 12 + Z.of_nat 4) with (off + 16) in * by lia.
  replace (off + Z.of_nat 4) with (off + 4) in * by lia.
  apply le32_holds in Hw; [| apply to_uint32_range].
  apply le32_holds in Hm; [| assumption].
  apply le32_holds in Hc; [| assumption].
  apply le32_holds in Hl; [| assumption].
  split; [| exact Hl].
  unfold same_record, event_at. cbn [ev_wd ev_mask ev_cookie ev_len ev_name].
  rewrite Hw, Hm, Hc, Hl, to_int32_uint32 by assumption.
  repeat (split; [reflexivity |]).
  intros Hpos. destruct (Hname Hpos) as [Hshort Hfree]. symmetry.
  apply (cstring_at_holds (ev_name e) (Z.to_nat (ev_len e))); try assumption.
  - unfold strlen in Hshort. lia.
  - unfold strlen in Hshort. unfold EVENT_SIZE in Hfit. lia.
Qed.

(** What [poke] leaves in the array. *)
Lemma byte_at_poke (data : list Z) :
  forall (buf : gmap Z Z) (off i : Z),
  byte_at (poke buf off data) i
  = if (off <=? i) && (i <? off + Z.of_nat (List.length data))
    then nth (Z.to_nat (i - off)) data 0
    else byte_at buf i.
Proof.
  induction data as [|b data IH]; intros buf off i; cbn [poke List.length].
  - destruct (Z.leb_spec off i), (Z.ltb_spec i (off + Z.of_nat 0)); cbn [andb];
      try reflexivity; lia.
  - rewrite IH. destruct (Z.eq_dec i off) as [->|Hne].
    + destruct (Z.leb_spec (off + 1) off); [lia |]. cbn [andb].
      destruct (Z.leb_spec off off); [| lia].
      destruct (Z.ltb_spec off (off + Z.of_nat (S (List.length data)))); [| lia].
      cbn [andb]. rewrite Z.sub_diag. cbn [Z.to_nat nth].
      unfold byte_at. now rewrite lookup_insert_eq.
    + assert (Eb : byte_at (<[off := b]> buf) i = byte_at buf i)
        by (unfold byte_at; now rewrite lookup_insert_ne by congruence).
      rewrite Eb.
      destruct (Z.leb_spec (off + 1) i),
               (Z.ltb_spec i (off + 1 + Z.of_nat (List.length data))),
               (Z.leb_spec off i),
               (Z.ltb_spec i (off + Z.of_nat (S (List.length data))));
        cbn [andb]; try reflexivity; try lia.
      replace (Z.to_nat (i - off)) with (S (Z.to_nat (i - (off + 1)))) by lia.
      reflexivity.
Qed.

Lemma holds_poke (buf : gmap Z Z) (off : Z) (data : list Z) :
  holds (poke buf off data) off data.
Proof.
  intros k Hk. rewrite byte_at_poke.
  destruct (Z.leb_spec off (off + Z.of_nat k)); [| lia].
  destruct (Z.ltb_spec (off + Z.of_nat k) (off + Z.of_nat (List.length data))); [| lia].
  cbn [andb]. f_equal. lia.
Qed.

(** *** Records read in one batch *)

Lemma events_bytes_cons (e : inotify_event) (es : list inotify_event) :
  events_bytes (e :: es) = (event_bytes e ++ events_bytes es)%list.
Proof. reflexivity. Qed.

Lemma events_bytes_nonempty (e : inotify_event) (es : list inotify_event) :
  (0 < List.length (events_bytes (e :: es)))%nat.
Proof.
  rewrite events_bytes_cons, length_app. unfold event_bytes.
  rewrite length_app, le32_bytes_length. lia.
Qed.

Lemma RETURN_plain (st : state) (event : inotify_event) :
  regex st = None -> collect_stats st = false -> RETURN st event = Return_event st.
Proof. intros Hre Hst. unfold RETURN. now rewrite Hre, Hst. Qed.

(** A call that finds records left in the array hands out the first of
    them without asking the kernel. *)
Lemma next_event_buffered (fuel : nat) (st : state) (rd : reader)
    (env : list kernel_round) (timeout : Z) (e : inotify_event)
    (es : list inotify_event) :
  regex st = None -> collect_stats st = false ->
  Forall kernel_record (e :: es) -> pending rd (e :: es) ->
  exists rd' ret e',
    inotifytools_next_event (S fuel) st rd env timeout
    = Event (set_error 0 st) rd' env ret e'
    /\ same_record e e' /\ pending rd' es.
Proof.
  intros Hre Hst Hwf (Hfb & Hholds & Hbytes & Hmax).
  inversion Hwf as [|? ? He Hes]; subst.
  pose proof He as (_ & _ & _ & Hlen & _).
  rewrite events_bytes_cons in Hholds, Hbytes.
  apply holds_app in Hholds as [Hh Hrest]. rewrite length_app in Hbytes.
  pose proof (event_bytes_length e ltac:(lia)) as Elen.
  unfold BUF_SIZE, EVENT_SIZE, MAX_EVENTS in *.
  destruct (event_at_holds (event_buf rd) (first_byte rd) e He Hh) as [Hsame Hl];
    [lia | unfold BUF_SIZE, EVENT_SIZE, MAX_EVENTS; lia |].
  unfold inotifytools_next_event, inotifytools_next_events.
  cbn [next_events_loop]. change (1 <? 1) with false. cbv iota.
  unfold EVENT_SIZE.
  rewrite (to_int32_id (bytes rd - 16)) by (unfold int_range; lia).
  destruct (Z.eqb_spec (first_byte rd) 0) as [?|_]; [lia |].
  destruct (Z.leb_spec (first_byte rd) (bytes rd - 16)) as [_|?]; [| lia].
  cbn [negb andb]. rewrite Hl.
  rewrite (to_int32_id (first_byte rd + 16 + ev_len e)) by (unfold int_range; lia).
  rewrite !RETURN_plain by assumption.
  destruct es as [|e2 es].
  - cbn [events_bytes map concat List.length] in Hbytes.
    destruct (Z.eqb_spec (first_byte rd + 16 + ev_len e) (bytes rd)) as [_|?]; [| lia].
    eexists _, _, _. split; [reflexivity |]. split; [exact Hsame | reflexivity].
  - pose proof (events_bytes_nonempty e2 es) as Hne.
    destruct (Z.eqb_spec (first_byte rd + 16 + ev_len e) (bytes rd)) as [?|_]; [lia |].
    destruct (Z.ltb_spec (bytes rd) (first_byte rd + 16 + ev_len e)) as [?|_]; [lia |].
    eexists _, _, _. split; [reflexivity |]. split; [exact Hsame |].
    cbn [pending first_byte event_buf bytes]. split; [lia |].
    split; [| split; [lia | unfold BUF_SIZE, EVENT_SIZE, MAX_EVENTS; lia]].
    replace (first_byte rd + 16 + ev_len e)
      with (first_byte rd + Z.of_nat (List.length (event_bytes e))) by lia.
    exact Hrest.
Qed.

(** A call that finds the array empty reads what the kernel has and
    hands out the first record. *)
Lemma next_event_fresh (fuel : nat) (st : state) (rd : reader)
    (env : list kernel_round) (timeout : Z) (e : inotify_event)
    (es : list inotify_event) :
  regex st = None -> collect_stats st = false ->
  Forall kernel_record (e :: es) -> first_byte rd = 0 ->
  Z.of_nat (List.length (events_bytes (e :: es))) <= BUF_SIZE ->
  exists rd' e',
    inotifytools_next_event (S fuel) st rd
      (ready_round (events_bytes (e :: es)) :: env) timeout
    = Event (set_error 0 st) rd' env 0 e'
    /\ same_record e e' /\ pending rd' es.
Proof.
  intros Hre Hst Hwf Hfb Hmax.
  inversion Hwf as [|? ? He Hes]; subst.
  pose proof He as (_ & _ & _ & Hlen & _).
  pose proof (event_bytes_length e ltac:(lia)) as Elen.
  set (data := events_bytes (e :: es)) in *.
  assert (Hdata : data = (event_bytes e ++ events_bytes es)%list) by reflexivity.
  assert (Hdlen : Z.of_nat (List.length data)
                  = 16 + ev_len e + Z.of_nat (List.length (events_bytes es))).
  { rewrite Hdata, length_app. unfold EVENT_SIZE in Elen. lia. }
  pose proof (holds_poke (event_buf rd) 0 data) as Hholds.
  rewrite Hdata in Hholds. apply holds_app in Hholds as [Hh Hrest].
  rewrite <- Hdata in Hh, Hrest.
  unfold BUF_SIZE, EVENT_SIZE, MAX_EVENTS in *.
  destruct (event_at_holds (poke (event_buf rd) 0 data) 0 e He Hh) as [Hsame Hl];
    [lia | unfold BUF_SIZE, EVENT_SIZE, MAX_EVENTS; lia |].
  unfold inotifytools_next_event, inotifytools_next_events.
  cbn [next_events_loop]. change (1 <? 1) with false. cbv iota.
  rewrite Hfb. change (0 =? 0) with true. cbn [negb andb].
  unfold ready_round. cbn [select k_select_errno k_ready_after].
  assert (Esel : (if timeout <=? 0 then None else Some timeout) = None
                 \/ exists t, (if timeout <=? 0 then None else Some timeout) = Some t
                              /\ 0 < t).
  { destruct (Z.leb_spec timeout 0); [now left | right; now exists timeout]. }
  assert (Eselect :
            match (if timeout <=? 0 then None else Some timeout), Some 0 with
            | None, None => Select_blocks
            | None, Some _ => Select_returns 1 0
            | Some t, Some s => if s <=? t then Select_returns 1 0 else Select_returns 0 0
            | Some t, None => Select_returns 0 0
            end = Select_returns 1 0).
  { destruct Esel as [->|(t & -> & Ht)]; [reflexivity |].
    destruct (Z.leb_spec 0 t); [reflexivity | lia]. }
  rewrite Eselect. change (1 <? 0) with false. change (1 =? 0) with false. cbv iota.
  cbn [k_fionread fionread_loop k_read]. unfold EVENT_SIZE.
  change (0 =? 0) with true. cbn [andb].
  destruct (Z.ltb_spec (Z.of_nat (List.length data)) (16 * 1)) as [?|_]; [lia |].
  change (0 =? -1) with false. cbv iota.
  unfold BUF_SIZE, EVENT_SIZE, MAX_EVENTS.
  rewrite firstn_all2 by lia.
  destruct (Z.eqb_spec (Z.of_nat (List.length data)) 0) as [?|_]; [lia |].
  change (16 * 0) with 0.
  destruct (Z.ltb_spec (16 * 4096) (0 + Z.of_nat (List.length data))) as [?|_]; [lia |].
  change (0 + 12) with 12 in Hl. rewrite Hl.
  rewrite (to_int32_id (16 + ev_len e)) by (unfold int_range; lia).
  rewrite !RETURN_plain by assumption.
  destruct es as [|e2 es].
  - cbn [events_bytes map concat List.length] in Hdlen.
    destruct (Z.eqb_spec (16 + ev_len e) (0 + Z.of_nat (List.length data)))
      as [_|?]; [| lia].
    eexists _, _. split; [reflexivity |]. split; [exact Hsame | reflexivity].
  - pose proof (events_bytes_nonempty e2 es) as Hne.
    destruct (Z.eqb_spec (16 + ev_len e) (0 + Z.of_nat (List.length data)))
      as [?|_]; [lia |].
    eexists _, _. split; [reflexivity |]. split; [exact Hsame |].
    cbn [pending first_byte event_buf bytes]. split; [lia |].
    split; [| split; [lia | unfold BUF_SIZE, EVENT_SIZE, MAX_EVENTS; lia]].
    replace (16 + ev_len e) with (0 + Z.of_nat (List.length (event_bytes e))) by lia.
    exact Hrest.
Qed.

Lemma next_event_n_pending (fuel : nat) (timeout : Z) (es : list inotify_event) :
  forall (st : state) (rd : reader) (env : list kernel_round),
  regex st = None -> collect_stats st = false ->
  Forall kernel_record es -> pending rd es ->
  exists es' rd',
    next_event_n (List.length es) (S fuel) (set_error 0 st) rd env timeout
    = Some (es', set_error 0 st, rd', env)
    /\ Forall2 same_record es es' /\ first_byte rd' = 0.
Proof.
  induction es as [|e es IH]; intros st rd env Hre Hst Hwf Hpending.
  - exists [], rd. split; [reflexivity |]. split; [constructor | exact Hpending].
  - destruct (next_event_buffered fuel (set_error 0 st) rd env timeout e es)
      as (rd1 & ret & e' & E & Hsame & Hp); try assumption.
    inversion Hwf as [|? ? _ Hes]; subst.
    destruct (IH st rd1 env Hre Hst Hes Hp) as (es' & rd' & En & Hall & Hfb).
    exists (e' :: es'), rd'. cbn [List.length next_event_n].
    rewrite E, set_error_idem, En. cbn [mbind option_bind].
    split; [reflexivity |]. split; [now constructor | exact Hfb].
Qed.

(** X21: records that one [read] delivers together are handed out one
    per call, in the order in which the kernel wrote them: with no filter
    and no statistics, as many calls of [inotifytools_next_event] as
    there are records return them all, only the first call consumes a
    round of the kernel, and afterwards the array is drained. *)
Theorem next_event_batch (fuel : nat) (st : state) (rd : reader)
    (env : list kernel_round) (timeout : Z) (es : list inotify_event) :
  regex st = None -> collect_stats st = false ->
  Forall kernel_record es -> es <> [] -> first_byte rd = 0 ->
  Z.of_nat (List.length (events_bytes es)) <= BUF_SIZE ->
  exists es' rd',
    next_event_n (List.length es) (S fuel) st rd
      (ready_round (events_bytes es) :: env) timeout
    = Some (es', set_error 0 st, rd', env)
    /\ Forall2 same_record es es' /\ first_byte rd' = 0.
Proof.
  intros Hre Hst Hwf Hne Hfb Hmax. destruct es as [|e es]; [congruence |].
  destruct (next_event_fresh fuel st rd env timeout e es Hre Hst Hwf Hfb Hmax)
    as (rd1 & e' & E & Hsame & Hp).
  inversion Hwf as [|? ? _ Hes]; subst.
  destruct (next_event_n_pending fuel timeout es st rd1 env Hre Hst Hes Hp)
    as (es' & rd' & En & Hall & Hfb').
  exists (e' :: es'), rd'. cbn [List.length next_event_n].
  rewrite E, En. cbn [mbind option_bind].
  split; [reflexivity |]. split; [now constructor | exact Hfb'].
Qed.

Lemma name_record (w mask cookie len : Z) (name : string) :
  int_range w -> 0 <= mask < 2 ^ 32 -> 0 <= cookie < 2 ^ 32 -> 0 <= len < 2 ^ 32 ->
  strlen name < len -> strchr name NUL = Some EmptyString ->
  kernel_record (mkEvent w mask cookie len name).
Proof.
  intros Hw Hm Hc Hl Hn Hfree. unfold kernel_record. cbn [ev_wd ev_mask ev_cookie ev_len ev_name].
  do 4 (split; [assumption |]). intros _. split; [assumption |].
  clear Hn. induction name as [|c name IH]; [constructor |].
  cbn [strchr] in Hfree. destruct (Ascii.eqb c NUL) eqn:E; [discriminate |].
  constructor; [now apply Ascii.eqb_neq | now apply IH].
Qed.

Lemma skip_keep_records : Forall kernel_record [skip_event; keep_event].
Proof.
  apply List.Forall_cons; [| apply List.Forall_cons; [| apply List.Forall_nil]];
    apply name_record; unfold int_range; try reflexivity;
    vm_compute; first [reflexivity | split; (reflexivity || discriminate)].
Qed.

Lemma next_event_batch_witness :
  exists es' rd',
    next_event_n 2 1 one_watch_state idle_reader
      [ready_round (events_bytes [skip_event; keep_event])] 0
    = Some (es', set_error 0 one_watch_state, rd', [])
    /\ Forall2 same_record [skip_event; keep_event] es'.
Proof.
  destruct (next_event_batch 0 one_watch_state idle_reader [] 0
              [skip_event; keep_event] eq_refl eq_refl skip_keep_records)
    as (es' & rd' & E & H & _);
    [discriminate | reflexivity | vm_compute; discriminate |].
  exists es', rd'. split; [exact E | exact H].
Defined.

(** *** Failures of the kernel calls *)

(** X22: a call of [inotifytools_next_events] that finds nothing
    buffered and is let down by the kernel returns no event, with
    [errno] in [error] when [select], the [FIONREAD] query or [read]
    fails, and with [error] 0 when the wait times out or [read] delivers
    no byte; the round of the kernel is consumed, nothing is buffered and
    nothing is counted. *)
Theorem next_events_failures (fuel : nat) (st : state) (rd : reader)
    (k : kernel_round) (env : list kernel_round) (timeout num_events : Z) :
  1 <= num_events -> first_byte rd = 0 ->
  let read_timeout_ptr := if timeout <=? 0 then None else Some timeout in
  let returns_null (e : Z) :=
    inotifytools_next_events (S fuel) st rd (k :: env) timeout num_events
    = NoEvent (set_error e st) (mkReader (event_buf rd) 0 0) env in
  (forall e, select read_timeout_ptr k = Select_returns (-1) e -> returns_null e)
  /\ (select read_timeout_ptr k = Select_returns 0 0 -> returns_null 0)
  /\ (select read_timeout_ptr k = Select_returns 1 0 ->
      (forall n, fionread_loop (k_fionread k) (EVENT_SIZE * num_events) = Some (-1, n) ->
                 returns_null (k_ioctl_errno k))
      /\ (forall n, fionread_loop (k_fionread k) (EVENT_SIZE * num_events) = Some (0, n) ->
            (forall e, k_read k = inl e -> returns_null e)
            /\ (k_read k = inr [] -> returns_null 0))).
Proof.
  intros Hnum Hfb read_timeout_ptr returns_null. unfold returns_null.
  unfold inotifytools_next_events. cbn [next_events_loop].
  destruct (Z.ltb_spec num_events 1) as [?|_]; [lia |].
  rewrite Hfb. change (0 =? 0) with true. cbn [negb andb]. fold read_timeout_ptr.
  split; [| split].
  - intros e ->. cbn. now rewrite set_error_idem.
  - intros ->. reflexivity.
  - intros ->. cbn [Z.ltb Z.eqb Z.compare Pos.compare]. split.
    + intros n ->. cbn. now rewrite set_error_idem.
    + intros n ->. change (0 =? -1) with false. cbv iota. split.
      * intros e ->. now rewrite set_error_idem.
      * intros ->. reflexivity.
Qed.

Lemma next_events_failures_witness :
  inotifytools_next_events 1 one_watch_state idle_reader [interrupted_round] 0 1
  = NoEvent (set_error 4 one_watch_state) idle_reader [].
Proof.
  destruct (next_events_failures 0 one_watch_state idle_reader interrupted_round [] 0 1)
    as (_ & _ & H); [lia | reflexivity |].
  destruct (H eq_refl) as [_ H2]. destruct (H2 16 eq_refl) as [H3 _].
  exact (H3 4 eq_refl).
Defined.

(** ** RecursiveWatcher: further properties *)

Lemma strip_slash_length (e : string) :
  Z.of_nat (String.length (strip_slash e))
  = if Ascii.eqb (last_char e) "/" then strlen e - 1 else strlen e.
Proof.
  unfold strip_slash, strlen. destruct (Ascii.eqb (last_char e) "/") eqn:E; [| reflexivity].
  rewrite strlen_take. destruct e as [|c e]; [discriminate |]. cbn [String.length]. lia.
Qed.

Lemma strip_slash_take (e : string) :
  take (Z.to_nat (if Ascii.eqb (last_char e) "/" then strlen e - 1 else strlen e)) e
  = strip_slash e.
Proof.
  unfold strip_slash, strlen. destruct (Ascii.eqb (last_char e) "/").
  - f_equal. lia.
  - rewrite Nat2Z.id. apply take_all.
Qed.

(** X23: the exclude list is matched by whole paths, not by prefixes:
    a directory [d/] is excluded exactly when some entry of the list,
    without the ["/"] it may end in, is [d]. *)
Theorem excluded_spec (exclude_list : list string) (d : string) :
  Forall (fun e => strlen e < 2 ^ 31) exclude_list ->
  (excluded exclude_list (d +:+ "/") = true
   <-> Exists (fun e => strip_slash e = d) exclude_list).
Proof.
  induction 1 as [|e l He Hl IH]; cbn [excluded].
  - split; [discriminate | intros H; inversion H].
  - set (el := if Ascii.eqb (last_char e) "/" then strlen e - 1 else strlen e).
    assert (Hel : 0 <= el < 2 ^ 31).
    { subst el. unfold strlen in *. destruct (Ascii.eqb (last_char e) "/") eqn:E; [| lia].
      destruct e; [discriminate | cbn [String.length] in *; lia]. }
    assert (E32 : to_uint32 (el + 1) = el + 1)
      by (unfold to_uint32; apply Z.mod_small; lia).
    rewrite E32.
    assert (Hmatch :
              (strlen (d +:+ "/") =? el + 1)
              && String.eqb (take (Z.to_nat el) e) (take (Z.to_nat el) (d +:+ "/"))
              = true <-> strip_slash e = d).
    { assert (Etake : take (Z.to_nat el) e = strip_slash e)
        by (subst el; apply strip_slash_take).
      rewrite Etake, andb_true_iff, Z.eqb_eq, String.eqb_eq.
      pose proof (strip_slash_length e) as Hlen. fold el in Hlen.
      rewrite strlen_append. change (strlen "/") with 1.
      assert (Hd : strlen d = Z.of_nat (String.length d)) by reflexivity.
      split.
      - intros [Hl1 Hs]. rewrite Hs.
        replace (Z.to_nat el) with (String.length d) by lia. apply take_append.
      - intros <-. split; [lia |].
        replace (Z.to_nat el) with (String.length (strip_slash e)) by lia.
        symmetry. apply take_append. }
    destruct ((strlen (d +:+ "/") =? el + 1)
              && String.eqb (take (Z.to_nat el) e) (take (Z.to_nat el) (d +:+ "/")))
      eqn:Em.
    + split; [intros _ | reflexivity]. apply Exists_cons_hd. now apply Hmatch.
    + rewrite IH. split.
      * intros Hex. now apply Exists_cons_tl.
      * intros Hex. apply Exists_cons in Hex as [Hhd|Htl]; [| assumption].
        apply Hmatch in Hhd. congruence.
Qed.

Lemma excluded_spec_witness :
  (excluded ["root/b/"; "root/c"] "root/c/" = true
   <-> Exists (fun e => strip_slash e = "root/c") ["root/b/"; "root/c"]).
Proof.
  apply (excluded_spec ["root/b/"; "root/c"] "root/c").
  repeat (apply List.Forall_cons; [vm_compute; reflexivity |]). apply List.Forall_nil.
Defined.

Lemma watch_entries_passed_over (inotify_add_watch : string -> Z -> Z * Z)
    (lstat64 : string -> stat_result) (events : Z)
    (exclude_list : option (list string)) (my_path : string) (ents : dirents) :
  passed_over lstat64 my_path ents ->
  forall st,
  watch_entries inotify_add_watch lstat64 events exclude_list ents my_path
                (set_error 0 st)
  = inotifytools_watch_file inotify_add_watch lstat64 st my_path events.
Proof.
  induction ents as [|d_name sub rest IH]; intros Hp st.
  - cbn [watch_entries]. unfold inotifytools_watch_file, inotifytools_watch_files.
    now rewrite set_error_idem.
  - destruct Hp as [Hd Hrest]. simpl watch_entries.
    rewrite set_error_idem.
    destruct Hd as [->|[->|[E|(s_isdir & s_islnk & E & Hno)]]].
    + cbn. now apply IH.
    + cbn. now apply IH.
    + destruct (negb (String.eqb d_name ".") && negb (String.eqb d_name ".."));
        [| now apply IH].
      rewrite E. change (negb (EACCES =? EACCES)) with false. cbv iota. now apply IH.
    + destruct (negb (String.eqb d_name ".") && negb (String.eqb d_name ".."));
        [| now apply IH].
      rewrite E, Hno. now apply IH.
Qed.

(** X24: the walk goes into directories proper only.  In a directory
    whose entries are all passed over (["."], [".."], plain files,
    symbolic links, entries [lstat64] may not examine) the recursive
    watch makes the debugging table, if there is none yet, and is then
    the watch on the directory itself, under its path with a ["/"] at
    the end, whatever the exclude list. *)
Theorem watch_recursively_plain_directory
    (inotify_add_watch : string -> Z -> Z * Z) (lstat64 : string -> stat_result)
    (events : Z) (exclude_list : option (list string)) (ents : dirents)
    (path : string) (st : state) :
  let my_path :=
    if negb (Ascii.eqb (last_char path) "/") then path +:+ "/" else path in
  passed_over lstat64 my_path ents ->
  inotifytools_watch_recursively_with_exclude inotify_add_watch lstat64 events
    exclude_list (OpenDir ents) path st
  = inotifytools_watch_file inotify_add_watch lstat64
      (set_tab (hcreate_r (tab (dbg st))) st) my_path events
  /\ inotifytools_watch_recursively inotify_add_watch lstat64 events
       (OpenDir ents) path st
     = inotifytools_watch_file inotify_add_watch lstat64
         (set_tab (hcreate_r (tab (dbg st))) st) my_path events.
Proof.
  intros my_path Hp.
  unfold inotifytools_watch_recursively, inotifytools_watch_recursively_with_exclude.
  change (watch_recursively inotify_add_watch lstat64 events exclude_list
            (OpenDir ents) path st)
    with (watch_entries inotify_add_watch lstat64 events exclude_list ents my_path
            (set_error 0 (set_tab (hcreate_r (tab (dbg st))) st))).
  change (watch_recursively inotify_add_watch lstat64 events None (OpenDir ents) path st)
    with (watch_entries inotify_add_watch lstat64 events None ents my_path
            (set_error 0 (set_tab (hcreate_r (tab (dbg st))) st))).
  split; now apply watch_entries_passed_over.
Qed.

Lemma watch_recursively_plain_directory_witness :
  inotifytools_watch_recursively var_add_watch plain_files IN_ALL_EVENTS files_tree
    "/var" one_watch_state
  = inotifytools_watch_file var_add_watch plain_files one_watch_tab_state "/var/"
      IN_ALL_EVENTS.
Proof.
  apply (watch_recursively_plain_directory var_add_watch plain_files IN_ALL_EVENTS None
           (Entry "." (OpenDir NoMore)
              (Entry "a.txt" (OpenErr ENOTDIR) (Entry "b.txt" (OpenErr ENOTDIR) NoMore)))
           "/var" one_watch_state).
  cbn [passed_over]. split; [now left |].
  split; [right; right; right; exists false, false; now split |].
  split; [right; right; right; exists false, false; now split | exact I].
Defined.

(** ** Sorting by a tally *)

Lemma lex_lt_irrefl (a : Z * Z) : ~ lex_lt a a.
Proof. unfold lex_lt. lia. Qed.

Lemma lex_lt_trans (a b c : Z * Z) : lex_lt a b -> lex_lt b c -> lex_lt a c.
Proof. unfold lex_lt. lia. Qed.

Lemma stat_of_known (c c' : counters) (kind : Z) :
  is_Some (stat_of c kind) -> is_Some (stat_of c' kind).
Proof.
  unfold stat_of.
  repeat match goal with
         | |- context [kind =? ?k] => destruct (kind =? k); [intros _; now eexists |]
         end.
  intros [? ?]. discriminate.
Qed.

(** In-order reading of an ordered tree is sorted. *)
Lemma bst_sorted {K : Type} (key : ptr -> K) (lt : K -> K -> Prop) (t : rbtree) :
  (forall a b c, lt a b -> lt b c -> lt a c) ->
  bst key lt t -> StronglySorted (fun p q => lt (key p) (key q)) (elements t).
Proof.
  intros Htrans. induction t as [|l IHl k r IHr]; cbn [elements bst].
  - intros _. constructor.
  - intros (Hl & Hr & Hlt & Hgt).
    assert (Happ : forall a b : list ptr,
              StronglySorted (fun p q => lt (key p) (key q)) a ->
              StronglySorted (fun p q => lt (key p) (key q)) b ->
              (forall x y, x ∈ a -> y ∈ b -> lt (key x) (key y)) ->
              StronglySorted (fun p q => lt (key p) (key q)) (a ++ b)).
    { clear. induction a as [|x a IH]; intros b Ha Hb Hab; [exact Hb |].
      cbn [app]. inversion Ha as [|? ? Hsa Hxa]; subst. constructor.
      - apply IH; [assumption .. |]. intros u v Hu Hv. apply Hab; [| assumption].
        now apply elem_of_cons; right.
      - apply List.Forall_app. split; [assumption |].
        apply List.Forall_forall. intros y Hy. apply Hab.
        + now apply elem_of_cons; left.
        + now apply list_elem_of_In. }
    apply Happ; [now apply IHl | |].
    + constructor; [now apply IHr |]. apply List.Forall_forall. intros y Hy.
      apply Hgt. now apply list_elem_of_In.
    + intros x y Hx Hy. apply elem_of_cons in Hy as [->|Hy]; [now apply Hlt |].
      apply Htrans with (key k); [now apply Hlt | now apply Hgt].
Qed.

(** [event_compare] decides the order of [sort_key] on live watches
    whose tallies fit an [int]. *)
Lemma cmp_event_at_ok (r : registry) (sort_event : Z) (w : ptr) (t : rbtree) :
  registry_ok r ->
  is_Some (stat_of zero_counters (fst (sort_order sort_event))) ->
  (forall p d i, heap r !! p = Some d ->
     stat_of (hit d) (fst (sort_order sort_event)) = Some i -> 0 <= i < 2 ^ 31) ->
  is_Some (heap r !! w) ->
  (forall p, p ∈ elements t -> is_Some (heap r !! p)) ->
  cmp_ok (sort_key (heap r) sort_event) lex_lt (sort_key (heap r) sort_event w)
         (cmp_event_at (heap r) sort_event w) t.
Proof.
  intros Hok Hkind Hfit [dw Ew] Hlive p Hp. destruct (Hlive p Hp) as [dp Ep].
  unfold cmp_event_at, sort_key, event_compare. rewrite Ew, Ep. cbn [mbind option_bind].
  destruct (sort_order sort_event) as [kind asc] eqn:Eso. cbn [fst] in *.
  destruct (stat_of_known zero_counters (hit dw) kind Hkind) as [iw Eiw].
  destruct (stat_of_known zero_counters (hit dp) kind Hkind) as [ip Eip].
  rewrite Eiw, Eip. cbn [mbind option_bind].
  pose proof (Hfit w dw iw Ew Eiw) as Hiw. pose proof (Hfit p dp ip Ep Eip) as Hip.
  pose proof (ok_wd_range r Hok w dw Ew) as Hww.
  pose proof (ok_wd_range r Hok p dp Ep) as Hwp.
  rewrite (to_int32_id iw), (to_int32_id ip) by (unfold int_range; lia).
  rewrite (to_int32_id (iw - ip)), (to_int32_id (ip - iw)),
          (to_int32_id (wd dw - wd dp)) by (unfold int_range; lia).
  unfold lex_lt.
  destruct (Z.eqb_spec (iw - ip) 0) as [E0|Hne].
  - eexists. split; [reflexivity |]. assert (iw = ip) by lia. subst ip.
    cbn [fst snd]. repeat split; intros Hz.
    + f_equal. lia.
    + right. split; [reflexivity | lia].
    + right. split; [reflexivity | lia].
  - destruct asc; (eexists; split; [reflexivity |]); cbn [fst snd];
      repeat split; intros Hz; try lia; left; lia.
Qed.

Lemma sorted_insert_all_spec (r : registry) (sort_event : Z) :
  registry_ok r ->
  is_Some (stat_of zero_counters (fst (sort_order sort_event))) ->
  (forall p d i, heap r !! p = Some d ->
     stat_of (hit d) (fst (sort_order sort_event)) = Some i -> 0 <= i < 2 ^ 31) ->
  forall (ps : list ptr) (t : rbtree),
  NoDup ps -> (forall p, p ∈ ps -> is_Some (heap r !! p)) ->
  (forall p, p ∈ elements t -> is_Some (heap r !! p) /\ p ∉ ps) ->
  bst (sort_key (heap r) sort_event) lex_lt t ->
  exists t',
    sorted_insert_all (heap r) sort_event ps t = Some t'
    /\ bst (sort_key (heap r) sort_event) lex_lt t'
    /\ forall q, q ∈ elements t' <-> q ∈ ps \/ q ∈ elements t.
Proof.
  intros Hok Hkind Hfit. induction ps as [|p ps IH]; intros t Hnd Hlive Ht Hbst.
  - exists t. split; [reflexivity |]. split; [exact Hbst |].
    intros q. rewrite elem_of_nil. tauto.
  - apply NoDup_cons in Hnd as [Hp Hnd]. cbn [sorted_insert_all].
    destruct (rbsearch_absent (sort_key (heap r) sort_event) lex_lt
                (cmp_event_at (heap r) sort_event p) p t) as (t1 & E1 & Hb1 & He1).
    { exact Hbst. }
    { apply cmp_event_at_ok; try assumption.
      - apply Hlive. now apply elem_of_cons; left.
      - intros q Hq. now apply Ht. }
    { intros q Hq Ekey. destruct (Ht q Hq) as [[dq Eq] Hnq].
      destruct (Hlive p) as [dp Ep]; [now apply elem_of_cons; left |].
      apply Hnq. apply elem_of_cons. left.
      apply (registry_ok_wd_inj r q p dq dp Hok Eq Ep).
      unfold sort_key in Ekey. rewrite Eq, Ep in Ekey.
      destruct (sort_order sort_event). now injection Ekey. }
    rewrite E1. cbn [mbind option_bind].
    destruct (IH t1) as (t' & E & Hb & He).
    { exact Hnd. }
    { intros q Hq. apply Hlive. now apply elem_of_cons; right. }
    { intros q Hq. apply He1 in Hq as [->|Hq].
      - split; [apply Hlive; now apply elem_of_cons; left | exact Hp].
      - destruct (Ht q Hq) as [Hl Hn]. split; [exact Hl |].
        intros Hin. apply Hn. now apply elem_of_cons; right. }
    { exact Hb1. }
    exists t'. split; [exact E |]. split; [exact Hb |].
    intros q. rewrite He, He1, elem_of_cons. tauto.
Qed.

(** X25: [inotifytools_wd_sorted_by_event], on a registry that satisfies
    the invariant, with an event [stat_ptr] knows and tallies that fit an
    [int]: the tree it builds holds every watch exactly once, and read in
    order it lists the watches by ascending tally of that event (by
    descending tally for a negative [sort_event]), watches with equal
    tallies by ascending descriptor. *)
Theorem wd_sorted_by_event_spec (r : registry) (sort_event : Z) :
  registry_ok r ->
  is_Some (stat_of zero_counters (fst (sort_order sort_event))) ->
  (forall p d i, heap r !! p = Some d ->
     stat_of (hit d) (fst (sort_order sort_event)) = Some i -> 0 <= i < 2 ^ 31) ->
  exists t,
    inotifytools_wd_sorted_by_event r sort_event = Some t
    /\ elements t ≡ₚ elements (tree_wd r)
    /\ StronglySorted
         (fun p q => lex_lt (sort_key (heap r) sort_event p)
                            (sort_key (heap r) sort_event q))
         (elements t).
Proof.
  intros Hok Hkind Hfit. unfold inotifytools_wd_sorted_by_event.
  destruct (sorted_insert_all_spec r sort_event Hok Hkind Hfit
              (elements (tree_wd r)) RBNULL) as (t & E & Hb & He).
  - exact (bst_NoDup _ _ _ Z.lt_irrefl Z.lt_trans (ok_wd_bst r Hok)).
  - intros p Hp. now apply (ok_wd_live r Hok).
  - intros p Hp. cbn in Hp. now apply elem_of_nil in Hp.
  - exact I.
  - exists t. split; [exact E |]. split.
    + apply NoDup_Permutation.
      * exact (bst_NoDup _ _ _ lex_lt_irrefl lex_lt_trans Hb).
      * exact (bst_NoDup _ _ _ Z.lt_irrefl Z.lt_trans (ok_wd_bst r Hok)).
      * intros q. rewrite He. cbn [elements]. rewrite elem_of_nil. tauto.
    + apply bst_sorted; [exact lex_lt_trans | exact Hb].
Qed.

Lemma tallied_registry_ok : registry_ok tallied_registry.
Proof.
  apply (registry_ok_same_keys three_watch_registry); [exact three_watch_registry_ok |].
  intros p. cbn [heap three_watch_registry].
  destruct (decide (p = 3%nat)) as [->|H3]; [now rewrite !lookup_insert_eq |].
  rewrite !(lookup_insert_ne _ 3%nat) by congruence.
  destruct (decide (p = 2%nat)) as [->|H2]; [now rewrite !lookup_insert_eq |].
  rewrite !(lookup_insert_ne _ 2%nat) by congruence.
  destruct (decide (p = 1%nat)) as [->|H1]; [now rewrite !lookup_insert_eq |].
  rewrite !(lookup_insert_ne _ 1%nat) by congruence.
  now rewrite lookup_empty.
Qed.

Lemma wd_sorted_by_event_spec_witness :
  exists t,
    inotifytools_wd_sorted_by_event tallied_registry (-1) = Some t
    /\ elements t = [1%nat; 3%nat; 2%nat].
Proof.
  destruct (wd_sorted_by_event_spec tallied_registry (-1) tallied_registry_ok)
    as (t & E & _).
  - now eexists.
  - intros p d i Ed Ei. cbn [heap tallied_registry] in Ed.
    repeat (apply lookup_insert_Some in Ed as [[_ <-]|[_ Ed]];
            [injection Ei as <-; lia |]).
    now rewrite lookup_empty in Ed.
  - exists t. split; [exact E |]. vm_compute in E. injection E as <-. reflexivity.
Defined.
